(** * minarg: a shallow embedding of [minarg.hpp] and its properties

    The definitions follow the layout of the header: the value codec
    ([fromString] / [toString]), the polymorphic argument classes, the
    parse engine of [Parser], and the help renderer.  Caller variables
    bound by reference are cells of a memory indexed by location; the
    member functions of [Parser] thread a state made of the parser, that
    memory and the token cursor, and end in a normal return, an [Error]
    or a [Signal].  The types that the codec reads with [operator>>]
    are read from a stream of characters with its state flags, as the
    C++ standard defines the sentry and [std::ws]; the floating-point
    types follow the GNU implementation of the standard library in the
    C locale: the characters that [std::num_get] takes, the correctly
    rounded conversion of [strtod], and the output of [printf] with
    [%g] and six digits.  The properties come after the definitions: the codec
    first, then the parse engine stage by stage, then the renderer;
    after these the tokens and the width of the rendered text, the
    outcomes and the errors of a parse, the binding of operands and the
    shape of integer tokens; and last the cases of the test suite
    evaluated on the embedding. *)

From Stdlib Require Import ZArith String Ascii List Bool Lia SpecFloat.
From stdpp Require Import base gmap.
Import ListNotations.

Local Open Scope string_scope.
Local Open Scope list_scope.

(* ================================================================== *)
(** ** std::string primitives used by the header *)

Notation "s +++ t" := (String.append s t)
  (at level 60, right associativity) : string_scope.

#[local] Arguments String.append !s1 s2 : simpl nomatch.

(** [s.size()] *)
Definition size (s : string) : nat := String.length s.

(** [s.find(c) != npos] *)
Fixpoint contains (c : ascii) (s : string) : bool :=
  match s with
  | EmptyString => false
  | String d r => if Ascii.eqb d c then true else contains c r
  end.

(** [s.find_first_of(cs) != npos] *)
Fixpoint contains_any (cs : string) (s : string) : bool :=
  match s with
  | EmptyString => false
  | String d r => if contains d cs then true else contains_any cs r
  end.

(** [s.compare(0, p.size(), p) == 0] *)
Fixpoint starts_with (p s : string) : bool :=
  match p, s with
  | EmptyString, _ => true
  | String a p', String b s' => if Ascii.eqb a b then starts_with p' s' else false
  | String _ _, EmptyString => false
  end.

(** [std::next(s.begin(), n)] read as the remaining range. *)
Fixpoint str_drop (n : nat) (s : string) : string :=
  match n, s with
  | O, _ => s
  | S n', String _ r => str_drop n' r
  | S _, EmptyString => EmptyString
  end.

(** [std::find(first, last, c)]: the range before the first [c], and the
    range after it when [c] was found ([None] stands for [last]). *)
Fixpoint find_split (c : ascii) (s : string) : string * option string :=
  match s with
  | EmptyString => (EmptyString, None)
  | String d r =>
      if Ascii.eqb d c then (EmptyString, Some r)
      else let '(b, a) := find_split c r in (String d b, a)
  end.

(** [std::string(n, ' ')] *)
Fixpoint spaces (n : nat) : string :=
  match n with
  | O => EmptyString
  | S k => String " " (spaces k)
  end.

(* ================================================================== *)
(** ** Exceptions *)

(** What a call can end in: normal return, [throw Error{message}], or
    [throw Signal{shortName, longName}]. *)
Inductive Result (A : Type) : Type :=
| Ok (a : A)
| Error (message : string)
| Signal (shortName : ascii) (longName : string).
Arguments Ok {A} a.
Arguments Error {A} message.
Arguments Signal {A} shortName longName.

(* ================================================================== *)
(** ** String to value *)

(** The integral payload types: signedness and bit width.  [long long]
    and [intmax_t] are taken to be 64 bits wide. *)
Inductive Width := W8 | W16 | W32 | W64.

Definition bits (w : Width) : Z :=
  match w with W8 => 8 | W16 => 16 | W32 => 32 | W64 => 64 end%Z.

(** [std::numeric_limits<T>::min()] and [max()] *)
Definition numeric_min (sg : bool) (w : Width) : Z :=
  if sg then (- 2 ^ (bits w - 1))%Z else 0%Z.
Definition numeric_max (sg : bool) (w : Width) : Z :=
  if sg then (2 ^ (bits w - 1) - 1)%Z else (2 ^ bits w - 1)%Z.

Definition LLONG_MIN : Z := (- 2 ^ 63)%Z.
Definition LLONG_MAX : Z := (2 ^ 63 - 1)%Z.
Definition ULLONG_MAX : Z := (2 ^ 64 - 1)%Z.

(** [isspace] in the C locale. *)
Definition isspace (c : ascii) : bool :=
  let n := nat_of_ascii c in
  Nat.eqb n 32 || (Nat.leb 9 n && Nat.leb n 13).

(** Value of a character as a digit, letters counting from ten. *)
Definition digit_value (c : ascii) : option Z :=
  let n := Z.of_nat (nat_of_ascii c) in
  if ((48 <=? n) && (n <=? 57))%Z then Some (n - 48)%Z
  else if ((97 <=? n) && (n <=? 122))%Z then Some (n - 87)%Z
  else if ((65 <=? n) && (n <=? 90))%Z then Some (n - 55)%Z
  else None.

Definition is_digit (base : Z) (c : ascii) : bool :=
  match digit_value c with
  | Some d => (d <? base)%Z
  | None => false
  end.

(** The digit loop of [strtoll]: accumulated value and characters read. *)
Fixpoint scan_digits (base : Z) (s : string) (acc : Z) (n : nat) : Z * nat :=
  match s with
  | EmptyString => (acc, n)
  | String c r =>
      match digit_value c with
      | Some d =>
          if (d <? base)%Z then scan_digits base r (acc * base + d)%Z (S n)
          else (acc, n)
      | None => (acc, n)
      end
  end.

Fixpoint skip_space (s : string) (n : nat) : string * nat :=
  match s with
  | String c r => if isspace c then skip_space r (S n) else (s, n)
  | EmptyString => (s, n)
  end.

(** Optional sign: negative?, rest, characters read. *)
Definition read_sign (s : string) (n : nat) : bool * string * nat :=
  match s with
  | String "-" r => (true, r, S n)
  | String "+" r => (false, r, S n)
  | _ => (false, s, n)
  end.

(** A [0x] / [0X] prefix is skipped in base 16 when a hex digit follows. *)
Definition skip_hex_prefix (base : Z) (s : string) (n : nat) : string * nat :=
  match s with
  | String "0" (String x (String h r)) =>
      if (base =? 16)%Z && (Ascii.eqb x "x" || Ascii.eqb x "X") && is_digit 16 h
      then (String h r, S (S n)) else (s, n)
  | _ => (s, n)
  end.

(** The subject sequence of [strtoll] / [strtoull]: sign, magnitude and
    the number of characters processed; [None] when no digit was read. *)
Definition strto_subject (s : string) (base : Z) : option (bool * Z * nat) :=
  let '(s1, n1) := skip_space s 0 in
  let '(neg, s2, n2) := read_sign s1 n1 in
  let '(s3, n3) := skip_hex_prefix base s2 n2 in
  let '(mag, n4) := scan_digits base s3 0%Z n3 in
  if Nat.eqb n4 n3 then None else Some (neg, mag, n4).

Inductive Sto : Type :=
| StoValue (value : Z) (pos : nat)
| StoInvalidArgument
| StoOutOfRange.

(** [std::stoll(s, &pos, base)] *)
Definition stoll (s : string) (base : Z) : Sto :=
  match strto_subject s base with
  | None => StoInvalidArgument
  | Some (neg, mag, pos) =>
      let v := if neg then (- mag)%Z else mag in
      if ((LLONG_MIN <=? v) && (v <=? LLONG_MAX))%Z then StoValue v pos
      else StoOutOfRange
  end.

(** [std::stoull(s, &pos, base)]: a negated magnitude wraps around. *)
Definition stoull (s : string) (base : Z) : Sto :=
  match strto_subject s base with
  | None => StoInvalidArgument
  | Some (neg, mag, pos) =>
      if (mag <=? ULLONG_MAX)%Z
      then StoValue (if neg then ((- mag) mod 2 ^ 64)%Z else mag) pos
      else StoOutOfRange
  end.

(** What [toLongest] can end in: the library exceptions are caught by
    [fromString], the [Error] of the unsigned overload is not. *)
Inductive Longest : Type :=
| LValue (value : Z) (pos : nat)
| LStdException
| LError (message : string).

Definition toLongest (sg : bool) (s : string) (base : Z) : Longest :=
  if sg then
    match stoll s base with
    | StoValue v p => LValue v p
    | _ => LStdException
    end
  else if contains "-" s then LError ("Cannot parse unsigned integer: " +++ s)
  else
    match stoull s base with
    | StoValue v p => LValue v p
    | _ => LStdException
    end.

(** [int base{s.find_first_of("Xx") == npos ? 10 : 16}] *)
Definition base_of (s : string) : Z :=
  if contains_any "Xx" s then 16%Z else 10%Z.

(** [fromString<T>] for integral [T]. *)
Definition fromString_int (sg : bool) (w : Width) (s : string) : Result Z :=
  match toLongest sg s (base_of s) with
  | LValue value pos =>
      if Nat.eqb pos (size s)
         && (numeric_min sg w <=? value)%Z
         && (value <=? numeric_max sg w)%Z
      then Ok value
      else Error ("Cannot parse integer: " +++ s)
  | LStdException => Error ("Cannot parse integer: " +++ s)
  | LError m => Error m
  end.

(** *** Integers as decimal text *)

Definition digit_char (d : Z) : ascii := ascii_of_nat (48 + Z.to_nat d).

(** Decimal digits of a non-negative number, most significant first. *)
Fixpoint put_digits (fuel : nat) (n : Z) (tail : string) : string :=
  match fuel with
  | O => tail
  | S f =>
      let tail' := String (digit_char (n mod 10)) tail in
      if (n <? 10)%Z then tail' else put_digits f (n / 10) tail'
  end.

(** [stream << n] for [intmax_t] / [uintmax_t]. *)
Definition put_integer (z : Z) : string :=
  if (z <? 0)%Z
  then String "-" (put_digits (S (Z.to_nat (Z.log2 (- z)))) (- z) EmptyString)
  else put_digits (S (Z.to_nat (Z.log2 z))) z EmptyString.

(** *** Types read through a stream *)

(** A [std::stringstream] that is read: the characters not yet
    extracted and the state flags.  [badbit] is never set by the
    operations below. *)
Record Stream := mkStream {
  buffer : string;
  eofbit : bool;
  failbit : bool
}.

(** [std::stringstream stream{s}] *)
Definition stringstream (s : string) : Stream := mkStream s false false.

(** [stream.good()] *)
Definition good (st : Stream) : bool := negb (eofbit st) && negb (failbit st).

(** [stream.setstate(std::ios_base::failbit)] *)
Definition setstate_failbit (st : Stream) : Stream :=
  mkStream (buffer st) (eofbit st) true.

(** [std::istream::sentry]: whether the stream is ready for input, and
    the stream.  A stream that is not good gets [failbit]; with
    [skipws] the white space is skipped first, and reaching the end
    sets [eofbit] and [failbit]. *)
Definition sentry (skipws : bool) (st : Stream) : bool * Stream :=
  if good st then
    if skipws then
      match fst (skip_space (buffer st) 0) with
      | EmptyString => (false, mkStream EmptyString true true)
      | String c r => (true, mkStream (String c r) false false)
      end
    else (true, st)
  else (false, setstate_failbit st).

(** [stream >> std::ws]: an unformatted input function, so its sentry
    sets [failbit] on a stream that is not good (in particular one
    whose [eofbit] the extraction before has set); otherwise white
    space is discarded, and reaching the end sets [eofbit] only. *)
Definition ws (st : Stream) : Stream :=
  let '(ok, st1) := sentry false st in
  if ok then
    match fst (skip_space (buffer st1) 0) with
    | EmptyString => mkStream EmptyString true (failbit st1)
    | String c r => mkStream (String c r) (eofbit st1) (failbit st1)
    end
  else st1.

(** A type [T] used through its stream operators: [T{}],
    [operator>>(std::istream&, T&)] on the stream and the variable, and
    [operator<<(std::ostream&, const T&)] as the text it writes. *)
Record StreamType := mkStreamType {
  carrier : Type;
  init : carrier;
  extract : Stream -> carrier -> Stream * carrier;
  insert : carrier -> string
}.

(** [fromString<T>] for [T] that is neither integral nor a string. *)
Definition fromString_stream (U : StreamType) (s : string)
    : Result (carrier U) :=
  let '(st1, value) := extract U (stringstream s) (init U) in
  let st2 := ws st1 in
  if failbit st2 || negb (eofbit st2)
  then Error ("Cannot parse value: " +++ s)
  else Ok value.

(** [operator>>] of a stream for a [std::string]: the characters up to
    the next white space; [eofbit] when the end is reached, [failbit]
    when no character is taken. *)
Fixpoint extract_word (s : string) : string * string :=
  match s with
  | EmptyString => (EmptyString, EmptyString)
  | String c r =>
      if isspace c then (EmptyString, s)
      else let '(word, rest) := extract_word r in (String c word, rest)
  end.

Definition extract_string (st : Stream) (v : string) : Stream * string :=
  let '(ok, st1) := sentry true st in
  if ok then
    let '(word, rest) := extract_word (buffer st1) in
    (mkStream rest (Nat.eqb (size rest) 0) (Nat.eqb (size word) 0), word)
  else (st1, v).

(** The type [YesNo] of the test suite ([src/test/value.cpp]) with its
    two operators. *)
Definition YesNo_extract (st : Stream) (y : bool) : Stream * bool :=
  let '(st1, str) := extract_string st EmptyString in
  if negb (failbit st1) then
    if String.eqb str "yes" then (st1, true)
    else if String.eqb str "no" then (st1, false)
    else (setstate_failbit st1, y)
  else (st1, y).

Definition YesNo : StreamType :=
  mkStreamType bool false YesNo_extract
    (fun y => if y then "yes" else "no").

(** *** Floating-point types *)

(** The values of a binary floating-point type: the zeros, the
    infinities and the NaNs with their sign, and the finite values
    [m * 2^e]. *)
Inductive Float :=
| FZero (negative : bool)
| FInfinity (negative : bool)
| FNaN (negative : bool)
| FFinite (negative : bool) (m : positive) (e : Z).

(** [float], [double] and the 80-bit [long double]. *)
Inductive Format := Binary32 | Binary64 | Extended80.

(** The bits of the significand, and the exponent of the infinities. *)
Definition precision (f : Format) : Z :=
  match f with Binary32 => 24 | Binary64 => 53 | Extended80 => 64 end%Z.
Definition max_exponent (f : Format) : Z :=
  match f with Binary32 => 128 | Binary64 => 1024 | Extended80 => 16384 end%Z.

(** [std::numeric_limits<T>::max()] with a sign. *)
Definition max_float (f : Format) (negative : bool) : Float :=
  FFinite negative (Z.to_pos (2 ^ precision f - 1))
    (max_exponent f - precision f).

(** Text to floating point. *)

(** The characters that [std::num_get] of the GNU library takes for a
    floating-point number in the C locale, in three steps: a sign; the
    leading zeros, of which one is kept; and the digits with at most one
    point and at most one exponent, itself with an optional sign.  The
    result is the text taken and the text left. *)
Definition float_sign (s : string) : string * string :=
  match s with
  | String "+" r => ("+", r)
  | String "-" r => ("-", r)
  | _ => (EmptyString, s)
  end.

Fixpoint float_zeros (s : string) : string :=
  match s with
  | String "0" r => float_zeros r
  | _ => s
  end.

Fixpoint float_digits (s : string) (found_mantissa found_dec found_sci : bool)
    : string * string :=
  match s with
  | EmptyString => (EmptyString, EmptyString)
  | String c r =>
      if is_digit 10 c then
        let '(x, rest) := float_digits r true found_dec found_sci in
        (String c x, rest)
      else if Ascii.eqb c "." && negb found_dec && negb found_sci then
        let '(x, rest) := float_digits r found_mantissa true found_sci in
        (String "." x, rest)
      else if (Ascii.eqb c "e" || Ascii.eqb c "E") && negb found_sci
              && found_mantissa then
        match r with
        | EmptyString => ("e", EmptyString)
        | String d r' =>
            if Ascii.eqb d "+" || Ascii.eqb d "-" then
              let '(x, rest) := float_digits r' found_mantissa found_dec true in
              (String "e" (String d x), rest)
            else
              let '(x, rest) := float_digits r found_mantissa found_dec true in
              (String "e" x, rest)
        end
      else (EmptyString, s)
  end.

Definition extract_float_text (s : string) : string * string :=
  let '(sign, s1) := float_sign s in
  let '(zero, s2, found_mantissa) :=
    match s1 with
    | String "0" r => ("0", float_zeros r, true)
    | _ => (EmptyString, s1, false)
    end in
  let '(digits, rest) := float_digits s2 found_mantissa false false in
  (sign +++ zero +++ digits, rest).

(** A decimal floating-point text read as a whole: the sign, the digits
    as a number and the power of ten; [None] when the text has no digit
    before the exponent, an exponent without digit, or more text. *)
Definition decimal (x : string) : option (bool * Z * Z) :=
  let '(negative, s1, _) := read_sign x 0 in
  let '(whole, ni) := scan_digits 10 s1 0 0 in
  let s2 := str_drop ni s1 in
  let '(digits, nf, s3) :=
    match s2 with
    | String "." r =>
        let '(v, k) := scan_digits 10 r whole 0 in (v, k, str_drop k r)
    | _ => (whole, 0, s2)
    end in
  if Nat.eqb (ni + nf) 0 then None
  else
    match s3 with
    | EmptyString => Some (negative, digits, (- Z.of_nat nf)%Z)
    | String c r =>
        if Ascii.eqb c "e" || Ascii.eqb c "E" then
          let '(minus, s4, _) := read_sign r 0 in
          let '(power, ne) := scan_digits 10 s4 0 0 in
          if Nat.eqb ne 0 || negb (Nat.eqb (size (str_drop ne s4)) 0) then None
          else Some (negative, digits,
                     ((if minus then - power else power) - Z.of_nat nf)%Z)
        else None
    end.

Definition to_Float (x : spec_float) : Float :=
  match x with
  | S754_zero s => FZero s
  | S754_infinity s => FInfinity s
  | S754_nan => FNaN false
  | S754_finite s m e => FFinite s m e
  end.

(** [strtof], [strtod] and [strtold] on a text that they read as a
    whole: the value of the decimal rounded to the nearest value of the
    format, ties to even. *)
Definition strtod (f : Format) (x : string) : option Float :=
  match decimal x with
  | None => None
  | Some (negative, digits, power) =>
      Some
        (to_Float
           match digits with
           | Zpos m =>
               if (0 <=? power)%Z then
                 binary_round (precision f) (max_exponent f) negative
                   (m * Z.to_pos (10 ^ power)) 0
               else
                 SFdiv (precision f) (max_exponent f)
                   (S754_finite negative m 0)
                   (S754_finite false (Z.to_pos (10 ^ (- power))) 0)
           | _ => S754_zero negative
           end)
  end.

(** [std::__convert_to_v]: the value and whether [failbit] is set. *)
Definition convert_to_v (f : Format) (x : string) : Float * bool :=
  match strtod f x with
  | None => (FZero false, true)
  | Some (FInfinity negative) => (max_float f negative, true)
  | Some v => (v, false)
  end.

(** [operator>>] of a stream for a floating-point variable. *)
Definition extract_float (f : Format) (st : Stream) (v : Float)
    : Stream * Float :=
  let '(ok, st1) := sentry true st in
  if ok then
    let '(text, rest) := extract_float_text (buffer st1) in
    let '(v', fail) := convert_to_v f text in
    (mkStream rest (Nat.eqb (size rest) 0) fail, v')
  else (st1, v).

(** Floating point to text. *)

(** [n / d] rounded to the nearest integer, ties to even. *)
Definition round_ratio (n d : Z) : Z :=
  match (2 * (n mod d) ?= d)%Z with
  | Lt => (n / d)%Z
  | Gt => (n / d + 1)%Z
  | Eq => if Z.even (n / d) then (n / d)%Z else (n / d + 1)%Z
  end.

(** [10^x <= n / d] *)
Definition at_least_power (n d x : Z) : bool :=
  if (0 <=? x)%Z then (10 ^ x * d <=? n)%Z else (d <=? n * 10 ^ (- x))%Z.

(** The decimal exponent of [n / d]: the largest [x] with
    [10^x <= n / d], looked for around the estimate that the binary
    logarithms give. *)
Definition decimal_exponent (n d : Z) : Z :=
  let est := ((Z.log2 n - Z.log2 d) * 30103 / 100000)%Z in
  if at_least_power n d (est + 2) then (est + 2)%Z
  else if at_least_power n d (est + 1) then (est + 1)%Z
  else if at_least_power n d est then est
  else if at_least_power n d (est - 1) then (est - 1)%Z
  else (est - 2)%Z.

(** [n / d / 10^(x - 5)] rounded: six significant digits. *)
Definition six_digits (n d x : Z) : Z :=
  if (x <=? 5)%Z then round_ratio (n * 10 ^ (5 - x)) d
  else round_ratio n (d * 10 ^ (x - 5)).

(** The text without the zeros at its end. *)
Fixpoint strip_zeros (s : string) : string :=
  match s with
  | EmptyString => EmptyString
  | String c r =>
      match strip_zeros r with
      | EmptyString => if Ascii.eqb c "0" then EmptyString else String c EmptyString
      | String d r' => String c (String d r')
      end
  end.

(** [s.substr(0, n)] *)
Fixpoint str_take (n : nat) (s : string) : string :=
  match n, s with
  | S n', String c r => String c (str_take n' r)
  | _, _ => EmptyString
  end.

(** [std::string(n, '0')] *)
Fixpoint zeros (n : nat) : string :=
  match n with
  | O => EmptyString
  | S k => String "0" (zeros k)
  end.

(** A point and the digits after it, when there are any. *)
Definition fraction (digits : string) : string :=
  match strip_zeros digits with
  | EmptyString => EmptyString
  | String c r => String "." (String c r)
  end.

(** [printf("%g", x)] for a positive [x = n / d] with the default
    precision of six digits, as [operator<<] writes a floating-point
    value on a stream with its settings untouched. *)
Definition printf_g (n d : Z) : string :=
  let x0 := decimal_exponent n d in
  let s0 := six_digits n d x0 in
  let '(s, x) := if (s0 =? 1000000)%Z then (100000, x0 + 1)%Z else (s0, x0) in
  let digits := put_integer s in
  if ((x <? -4) || (6 <=? x))%Z then
    str_take 1 digits +++ fraction (str_drop 1 digits) +++
    String "e" (String (if (x <? 0)%Z then "-" else "+")%char
      ((if (Z.abs x <? 10)%Z then "0" else EmptyString) +++
       put_integer (Z.abs x)))
  else if (0 <=? x)%Z then
    str_take (S (Z.to_nat x)) digits +++ fraction (str_drop (S (Z.to_nat x)) digits)
  else
    "0." +++ zeros (Z.to_nat (- x - 1)) +++ strip_zeros digits.

Definition signed (negative : bool) (s : string) : string :=
  if negative then String "-" s else s.

(** [operator<<] of a stream for a floating-point value. *)
Definition insert_float (v : Float) : string :=
  match v with
  | FZero negative => signed negative "0"
  | FInfinity negative => signed negative "inf"
  | FNaN negative => signed negative "nan"
  | FFinite negative m e =>
      signed negative
        (if (0 <=? e)%Z then printf_g (Zpos m * 2 ^ e) 1
         else printf_g (Zpos m) (2 ^ (- e)))
  end.

(** The floating-point types as types read and written through a
    stream. *)
Definition float_type (f : Format) : StreamType :=
  mkStreamType Float (FZero false) (extract_float f) insert_float.


(** The payload types and their values: the integral types, the
    string, the floating-point types and the types of the caller that
    have stream operators. *)
Inductive Payload :=
| PInt (sg : bool) (w : Width)
| PString
| PFloat (f : Format)
| PStream (U : StreamType).

Inductive Value :=
| VInt (z : Z)
| VString (s : string)
| VFloat (x : Float)
| VStream (U : StreamType) (x : carrier U).

(** [fromString<T>(s)] *)
Definition fromString (T : Payload) (s : string) : Result Value :=
  match T with
  | PInt sg w =>
      match fromString_int sg w s with
      | Ok z => Ok (VInt z)
      | Error m => Error m
      | Signal c l => Signal c l
      end
  | PString => Ok (VString s)
  | PFloat f =>
      match fromString_stream (float_type f) s with
      | Ok x => Ok (VFloat x)
      | Error m => Error m
      | Signal c l => Signal c l
      end
  | PStream U =>
      match fromString_stream U s with
      | Ok x => Ok (VStream U x)
      | Error m => Error m
      | Signal c l => Signal c l
      end
  end.

(* ================================================================== *)
(** ** Value to string *)

Definition dquote : ascii := "034"%char.

(** [toStream<T>] on an empty stream followed by [stream.str()].  A
    value is of the type of its payload in every state that the parser
    builds; the other cases are not used. *)
Definition toString (T : Payload) (v : Value) : string :=
  match T, v with
  | PInt _ _, VInt z => put_integer z
  | PString, VString s => String dquote (s +++ String dquote EmptyString)
  | PFloat f, VFloat x => insert (float_type f) x
  | PStream _, VStream U x => insert U x
  | _, _ => EmptyString
  end.


(* ================================================================== *)
(** ** Caller storage *)

(** A variable of the caller, bound by reference at declaration: a
    [bool], a payload value, or a container of payload values. *)
Inductive Slot := SBool (b : bool) | SValue (v : Value) | SSeq (vs : list Value).

Abbreviation Mem := (gmap nat Slot).

(* ================================================================== *)
(** ** Polymorphic argument types *)

(** The members that the subclasses add to [Arg]. *)
Inductive Derived :=
| DSignal
| DBool (target_ : nat)
| DValue (T : Payload) (target_ : nat) (default_ : Value)
| DSink (T : Payload) (target_ : nat).

Record Arg := mkArg {
  shortName_ : ascii;
  longName_ : string;
  valueName_ : string;
  description_ : string;
  isRequired_ : bool;
  hasValue_ : bool;
  isSink_ : bool;
  isDone_ : bool;
  derived : Derived
}.

Definition SignalArg (shortName : ascii) (longName description : string) : Arg :=
  mkArg shortName longName EmptyString description false false false false DSignal.

Definition BoolArg (shortName : ascii) (longName description : string)
    (isRequired : bool) (target : nat) : Arg :=
  mkArg shortName longName EmptyString description isRequired false false false
    (DBool target).

(** [current] is the value of the target when the argument is built; the
    constructor copies it into [default_]. *)
Definition ValueArg (T : Payload) (shortName : ascii)
    (longName valueName description : string) (isRequired : bool)
    (target : nat) (current : Value) : Arg :=
  mkArg shortName longName valueName description isRequired true false false
    (DValue T target current).

Definition SinkArg (T : Payload) (valueName description : string)
    (isRequired : bool) (target : nat) : Arg :=
  mkArg zero EmptyString valueName description isRequired true true false
    (DSink T target).

Definition set_isDone (a : Arg) : Arg :=
  mkArg (shortName_ a) (longName_ a) (valueName_ a) (description_ a)
    (isRequired_ a) (hasValue_ a) (isSink_ a) true (derived a).

Definition doGetDefaultValue (a : Arg) : string :=
  match derived a with
  | DValue T _ d => toString T d
  | _ => EmptyString
  end.

Definition getDefaultValue (a : Arg) : string :=
  if isRequired_ a then EmptyString else doGetDefaultValue a.

(* ================================================================== *)
(** ** Parser *)

Record Parser := mkParser {
  shortPrefix_ : ascii;
  longPrefix_ : string;
  longSeparator_ : ascii;
  terminator_ : string;
  isTerminated_ : bool;
  helpProlog_ : string;
  helpEpilog_ : string;
  usageTitle_ : string;
  optionsTitle_ : string;
  operandsTitle_ : string;
  utilityName_ : string;
  optionsUsage_ : string;
  operandsUsage_ : string;
  defaultIntro_ : string;
  helpWidth_ : nat;
  helpIndent_ : nat;
  options_ : list Arg;
  operands_ : list Arg
}.

(** [Parser{helpProlog, helpEpilog}] with the default member initialisers. *)
Definition newParser (helpProlog helpEpilog : string) : Parser :=
  mkParser "-" "--" "=" "--" false helpProlog helpEpilog
    "USAGE" "OPTIONS" "OPERANDS" EmptyString EmptyString EmptyString
    "default: " 80 2 [] [].

Definition with_args (p : Parser) (opts ops : list Arg) : Parser :=
  mkParser (shortPrefix_ p) (longPrefix_ p) (longSeparator_ p) (terminator_ p)
    (isTerminated_ p) (helpProlog_ p) (helpEpilog_ p) (usageTitle_ p)
    (optionsTitle_ p) (operandsTitle_ p) (utilityName_ p) (optionsUsage_ p)
    (operandsUsage_ p) (defaultIntro_ p) (helpWidth_ p) (helpIndent_ p) opts ops.

Definition with_isTerminated (p : Parser) (b : bool) : Parser :=
  mkParser (shortPrefix_ p) (longPrefix_ p) (longSeparator_ p) (terminator_ p)
    b (helpProlog_ p) (helpEpilog_ p) (usageTitle_ p)
    (optionsTitle_ p) (operandsTitle_ p) (utilityName_ p) (optionsUsage_ p)
    (operandsUsage_ p) (defaultIntro_ p) (helpWidth_ p) (helpIndent_ p)
    (options_ p) (operands_ p).

Definition setUtilityName (s : string) (p : Parser) : Parser :=
  mkParser (shortPrefix_ p) (longPrefix_ p) (longSeparator_ p) (terminator_ p)
    (isTerminated_ p) (helpProlog_ p) (helpEpilog_ p) (usageTitle_ p)
    (optionsTitle_ p) (operandsTitle_ p) s (optionsUsage_ p)
    (operandsUsage_ p) (defaultIntro_ p) (helpWidth_ p) (helpIndent_ p)
    (options_ p) (operands_ p).

(** The syntax and help settings, all at once. *)
Definition with_syntax (shortPrefix : ascii) (longPrefix : string)
    (longSeparator : ascii) (terminator : string) (p : Parser) : Parser :=
  mkParser shortPrefix longPrefix longSeparator terminator
    (isTerminated_ p) (helpProlog_ p) (helpEpilog_ p) (usageTitle_ p)
    (optionsTitle_ p) (operandsTitle_ p) (utilityName_ p) (optionsUsage_ p)
    (operandsUsage_ p) (defaultIntro_ p) (helpWidth_ p) (helpIndent_ p)
    (options_ p) (operands_ p).

Definition with_help (usageTitle optionsTitle operandsTitle optionsUsage
    operandsUsage defaultIntro : string) (helpWidth helpIndent : nat)
    (p : Parser) : Parser :=
  mkParser (shortPrefix_ p) (longPrefix_ p) (longSeparator_ p) (terminator_ p)
    (isTerminated_ p) (helpProlog_ p) (helpEpilog_ p) usageTitle
    optionsTitle operandsTitle (utilityName_ p) optionsUsage
    operandsUsage defaultIntro helpWidth helpIndent
    (options_ p) (operands_ p).

Definition setShortOptionPrefix c p :=
  with_syntax c (longPrefix_ p) (longSeparator_ p) (terminator_ p) p.
Definition setLongOptionPrefix s p :=
  with_syntax (shortPrefix_ p) s (longSeparator_ p) (terminator_ p) p.
Definition setLongOptionSeparator c p :=
  with_syntax (shortPrefix_ p) (longPrefix_ p) c (terminator_ p) p.
Definition setOptionTerminator s p :=
  with_syntax (shortPrefix_ p) (longPrefix_ p) (longSeparator_ p) s p.
Definition setUsageTitle s p :=
  with_help s (optionsTitle_ p) (operandsTitle_ p) (optionsUsage_ p)
    (operandsUsage_ p) (defaultIntro_ p) (helpWidth_ p) (helpIndent_ p) p.
Definition setOptionsTitle s p :=
  with_help (usageTitle_ p) s (operandsTitle_ p) (optionsUsage_ p)
    (operandsUsage_ p) (defaultIntro_ p) (helpWidth_ p) (helpIndent_ p) p.
Definition setOperandsTitle s p :=
  with_help (usageTitle_ p) (optionsTitle_ p) s (optionsUsage_ p)
    (operandsUsage_ p) (defaultIntro_ p) (helpWidth_ p) (helpIndent_ p) p.
Definition setOptionsUsage s p :=
  with_help (usageTitle_ p) (optionsTitle_ p) (operandsTitle_ p) s
    (operandsUsage_ p) (defaultIntro_ p) (helpWidth_ p) (helpIndent_ p) p.
Definition setOperandsUsage s p :=
  with_help (usageTitle_ p) (optionsTitle_ p) (operandsTitle_ p)
    (optionsUsage_ p) s (defaultIntro_ p) (helpWidth_ p) (helpIndent_ p) p.
Definition setDefaultValueIntro s p :=
  with_help (usageTitle_ p) (optionsTitle_ p) (operandsTitle_ p)
    (optionsUsage_ p) (operandsUsage_ p) s (helpWidth_ p) (helpIndent_ p) p.
Definition setHelpWidth n p :=
  with_help (usageTitle_ p) (optionsTitle_ p) (operandsTitle_ p)
    (optionsUsage_ p) (operandsUsage_ p) (defaultIntro_ p) n (helpIndent_ p) p.
Definition setHelpIndent n p :=
  with_help (usageTitle_ p) (optionsTitle_ p) (operandsTitle_ p)
    (optionsUsage_ p) (operandsUsage_ p) (defaultIntro_ p) (helpWidth_ p) n p.

(** *** Arguments *)

Definition addSignal (shortName : ascii) (longName description : string)
    (p : Parser) : Parser :=
  with_args p (options_ p ++ [SignalArg shortName longName description])
    (operands_ p).

Definition addOption_bool (target : nat) (shortName : ascii)
    (longName description : string) (isRequired : bool) (p : Parser) : Parser :=
  with_args p
    (options_ p ++ [BoolArg shortName longName description isRequired target])
    (operands_ p).

(** The zero-initialised [T{}], read when a location holds no such value. *)
Definition zero_of (T : Payload) : Value :=
  match T with
  | PInt _ _ => VInt 0
  | PString => VString EmptyString
  | PFloat f => VFloat (init (float_type f))
  | PStream U => VStream U (init U)
  end.

Definition read_value (T : Payload) (m : Mem) (target : nat) : Value :=
  match m !! target with
  | Some (SValue v) => v
  | _ => zero_of T
  end.

Definition read_seq (m : Mem) (target : nat) : list Value :=
  match m !! target with
  | Some (SSeq vs) => vs
  | _ => []
  end.

Definition addOption (T : Payload) (m : Mem) (target : nat) (shortName : ascii)
    (longName valueName description : string) (isRequired : bool)
    (p : Parser) : Parser :=
  with_args p
    (options_ p ++ [ValueArg T shortName longName valueName description
                      isRequired target (read_value T m target)])
    (operands_ p).

Definition addOperand (T : Payload) (m : Mem) (target : nat)
    (valueName description : string) (isRequired : bool) (p : Parser) : Parser :=
  with_args p (options_ p)
    (operands_ p ++ [ValueArg T zero EmptyString valueName description
                       isRequired target (read_value T m target)]).

Definition addOperandSink (T : Payload) (target : nat)
    (valueName description : string) (isRequired : bool) (p : Parser) : Parser :=
  with_args p (options_ p)
    (operands_ p ++ [SinkArg T valueName description isRequired target]).

(* ================================================================== *)
(** ** The state of a parse call *)

(** [self] is the parser object, [mem] the caller's variables, [it] the
    tokens from the cursor to [end].  [history] is ghost state: the
    assignments to caller variables made so far, oldest first; no
    function reads it. *)
Record State := mkState {
  self : Parser;
  mem : Mem;
  it : list string;
  history : list (nat * Slot)
}.

Definition set_self (p : Parser) (st : State) : State :=
  mkState p (mem st) (it st) (history st).
Definition set_it (ts : list string) (st : State) : State :=
  mkState (self st) (mem st) ts (history st).

(** Assignment through a bound reference. *)
Definition write (target : nat) (s : Slot) (st : State) : State :=
  mkState (self st) (<[target := s]> (mem st)) (it st)
    (history st ++ [(target, s)]).

(** The memory obtained from [m] by a sequence of assignments. *)
Definition replay (h : list (nat * Slot)) (m : Mem) : Mem :=
  fold_left (fun acc e => <[fst e := snd e]> acc) h m.

(** Computations that thread the state and may throw. *)
Definition M (A : Type) : Type := State -> Result A * State.

Definition ret {A} (a : A) : M A := fun st => (Ok a, st).
Definition throw {A} (message : string) : M A := fun st => (Error message, st).
Definition bind {A B} (m : M A) (k : A -> M B) : M B :=
  fun st =>
    match m st with
    | (Ok a, st') => k a st'
    | (Error e, st') => (Error e, st')
    | (Signal c l, st') => (Signal c l, st')
    end.

Notation "m ';;' k" := (bind m (fun _ => k))
  (at level 100, k at level 200, right associativity).

(** A pointer into [options_] or [operands_]. *)
Inductive ArgPtr := InOptions (i : nat) | InOperands (i : nat).

(** *** Arg::parse and Arg::done *)

Definition doParse (a : Arg) (s : string) : M unit := fun st =>
  match derived a with
  | DValue T target _ =>
      match fromString T s with
      | Ok v => (Ok tt, write target (SValue v) st)
      | Error e => (Error e, st)
      | Signal c l => (Signal c l, st)
      end
  | DSink T target =>
      match fromString T s with
      | Ok v => (Ok tt, write target (SSeq (read_seq (mem st) target ++ [v])) st)
      | Error e => (Error e, st)
      | Signal c l => (Signal c l, st)
      end
  | _ => (Ok tt, st)
  end.

Definition parse_arg (a : Arg) (s : string) : M unit := doParse a s.

Definition doDone (a : Arg) : M unit := fun st =>
  match derived a with
  | DSignal => (Signal (shortName_ a) (longName_ a), st)
  | DBool target => (Ok tt, write target (SBool true) st)
  | _ => (Ok tt, st)
  end.

(** [isDone_ = true] on the pointed-to argument. *)
Definition mark_done (ptr : ArgPtr) : M unit := fun st =>
  let p := self st in
  (Ok tt,
   set_self
     (match ptr with
      | InOptions i => with_args p (alter set_isDone i (options_ p)) (operands_ p)
      | InOperands i => with_args p (options_ p) (alter set_isDone i (operands_ p))
      end) st).

Definition done (ptr : ArgPtr) (a : Arg) : M unit :=
  doDone a ;; mark_done ptr.

(** *** Parse *)

Definition parseUtility : M unit := fun st =>
  match it st with
  | [] => (Ok tt, st)
  | t :: rest =>
      let p := self st in
      let p' := if Nat.eqb (size (utilityName_ p)) 0 then setUtilityName t p else p in
      (Ok tt, set_it rest (set_self p' st))
  end.

Definition parseTerminator : M unit := fun st =>
  match it st with
  | [] => (Ok tt, st)
  | t :: rest =>
      let p := self st in
      if isTerminated_ p
         || Nat.eqb (size (terminator_ p)) 0
         || negb (String.eqb t (terminator_ p))
      then (Ok tt, st)
      else (Ok tt, set_it rest (set_self (with_isTerminated p true) st))
  end.

Definition predictLongOption (st : State) : bool :=
  match it st with
  | [] => false
  | t :: _ =>
      let p := self st in
      negb (isTerminated_ p)
      && negb (Nat.eqb (size (longPrefix_ p)) 0)
      && Nat.ltb (size (longPrefix_ p)) (size t)
      && starts_with (longPrefix_ p) t
  end.

Definition front (s : string) : ascii :=
  match s with String c _ => c | EmptyString => zero end.

Definition predictShortOption (st : State) : bool :=
  match it st with
  | [] => false
  | t :: _ =>
      let p := self st in
      negb (isTerminated_ p)
      && Nat.ltb 1 (size t)
      && Ascii.eqb (front t) (shortPrefix_ p)
  end.

(** First index at which [f] holds, with the element. *)
Fixpoint find_from (f : Arg -> bool) (i : nat) (l : list Arg) : option (nat * Arg) :=
  match l with
  | [] => None
  | a :: r => if f a then Some (i, a) else find_from f (S i) r
  end.

(** [getOption(const std::string&)] *)
Definition getOption (name : string) : M (ArgPtr * Arg) := fun st =>
  match
    if Nat.eqb (size name) 0 then None
    else find_from (fun a => String.eqb (longName_ a) name) 0 (options_ (self st))
  with
  | Some (i, a) => (Ok (InOptions i, a), st)
  | None => (Error ("Unknown option name: " +++ name), st)
  end.

(** [getOption(char)] *)
Definition getOption_char (name : ascii) : M (ArgPtr * Arg) := fun st =>
  match
    if Ascii.eqb name zero then None
    else find_from (fun a => Ascii.eqb (shortName_ a) name) 0 (options_ (self st))
  with
  | Some (i, a) => (Ok (InOptions i, a), st)
  | None => (Error ("Unknown option name: " +++ String name EmptyString), st)
  end.

(** The value is the next token: [it == end] is checked, then the
    token under the cursor is passed on and the cursor advanced. *)
Definition parse_next (token : string) (a : Arg) : M unit := fun st =>
  match it st with
  | [] => (Error ("Cannot find value for option: " +++ token), st)
  | v :: rest => parse_arg a v (set_it rest st)
  end.

Definition parseLongOption : M unit := fun st =>
  if negb (predictLongOption st) then (Ok tt, st)
  else
    match it st with
    | [] => (Ok tt, st)
    | token :: rest =>
        let p := self st in
        let '(name, value) :=
          find_split (longSeparator_ p) (str_drop (size (longPrefix_ p)) token) in
        (bind (getOption name) (fun '(ptr, option) =>
         (if hasValue_ option then
            match value with
            | Some v => parse_arg option v
            | None => parse_next token option
            end
          else
            match value with
            | Some _ => throw ("Unexpected option value: " +++ token)
            | None => ret tt
            end) ;;
         done ptr option)) (set_it rest st)
    end.

(** The [while (nameIt != token.end())] loop over the rest of the token. *)
Fixpoint parseShortNames (token : string) (names : string) : M unit :=
  match names with
  | EmptyString => ret tt
  | String c rest =>
      bind (getOption_char c) (fun '(ptr, option) =>
        if hasValue_ option then
          (match rest with
           | String _ _ => parse_arg option rest
           | EmptyString => parse_next token option
           end) ;;
          done ptr option
        else
          done ptr option ;;
          parseShortNames token rest)
  end.

Definition parseShortOptions : M unit := fun st =>
  if negb (predictShortOption st) then (Ok tt, st)
  else
    match it st with
    | [] => (Ok tt, st)
    | token :: rest => parseShortNames token (str_drop 1 token) (set_it rest st)
    end.

(** [it != old], both iterators into the same vector. *)
Definition moved (old : list string) (st : State) : bool :=
  negb (Nat.eqb (length (it st)) (length old)).

(** A [while (true)] loop whose body answers [true] for [continue] and
    [false] for [break]. *)
Fixpoint loop (fuel : nat) (body : M bool) : M unit := fun st =>
  match fuel with
  | O => (Ok tt, st)
  | S k => bind body (fun again => if again then loop k body else ret tt) st
  end.

(** The body of the loop in [parseOptions]. *)
Definition parseOptions_body : M bool := fun st =>
  let old := it st in
  (parseTerminator ;;
   fun st1 =>
     if moved old st1 then (Ok false, st1)
     else
       (parseLongOption ;;
        fun st2 =>
          if moved old st2 then (Ok true, st2)
          else
            (parseShortOptions ;;
             fun st3 =>
               if moved old st3 then (Ok true, st3)
               else (Ok false, st3)) st2) st1) st.

(** Every pass that continues has advanced the cursor, so a fuel above
    the number of remaining tokens is never used up. *)
Definition parseOptions : M unit := fun st =>
  loop (S (length (it st))) parseOptions_body st.

(** The body of the loop in [parseOperandContent]. *)
Definition parseOperandContent_body (ptr : ArgPtr) (operand : Arg) : M bool :=
  parseTerminator ;;
  fun st1 =>
    match it st1 with
    | [] => (Ok false, st1)
    | t :: rest =>
        if predictLongOption st1 || predictShortOption st1
        then (Error ("Unexpected option: " +++ t), st1)
        else
          (parse_arg operand t ;;
           done ptr operand ;;
           ret (isSink_ operand)) (set_it rest st1)
    end.

Definition parseOperandContent (ptr : ArgPtr) (operand : Arg) : M unit :=
  fun st =>
    loop (S (length (it st))) (parseOperandContent_body ptr operand) st.

Fixpoint parseOperands_from (i : nat) (ops : list Arg) : M unit :=
  match ops with
  | [] => ret tt
  | operand :: rest =>
      parseOperandContent (InOperands i) operand ;;
      parseOperands_from (S i) rest
  end.

Definition parseOperands : M unit := fun st =>
  parseOperands_from 0 (operands_ (self st)) st.

Definition checkEnd : M unit := fun st =>
  match it st with
  | [] => (Ok tt, st)
  | t :: _ => (Error ("Unexpected argument: " +++ t), st)
  end.

Definition expandName (p : Parser) (a : Arg) : string :=
  if negb (Ascii.eqb (shortName_ a) zero)
  then String (shortPrefix_ p) (String (shortName_ a) EmptyString)
  else if negb (Nat.eqb (size (longName_ a)) 0)
  then longPrefix_ p +++ longName_ a
  else valueName_ a.

Fixpoint checkRequired_in (p : Parser) (args : list Arg) : option string :=
  match args with
  | [] => None
  | a :: rest =>
      if isRequired_ a && negb (isDone_ a)
      then Some ("Cannot find required argument: " +++ expandName p a)
      else checkRequired_in p rest
  end.

Definition checkRequired (args : Parser -> list Arg) : M unit := fun st =>
  match checkRequired_in (self st) (args (self st)) with
  | Some e => (Error e, st)
  | None => (Ok tt, st)
  end.

Definition parseAll : M unit :=
  parseUtility ;;
  parseOptions ;;
  parseOperands ;;
  parseTerminator ;;
  checkEnd ;;
  checkRequired options_ ;;
  checkRequired operands_.

(** [Parser::parse(argv)] on the caller memory [m]. *)
Definition parse (p : Parser) (m : Mem) (argv : list string) : Result unit * State :=
  parseAll (mkState p m argv []).

(* ================================================================== *)
(** ** Write *)

Definition newline : ascii := "010"%char.
Definition newline_token : string := String newline EmptyString.

(** [tokenize]: [word] is the range from [start] to [it], empty when no
    word has been started. *)
Definition flush (word : string) : list string :=
  match word with
  | EmptyString => []
  | String _ _ => [word]
  end.

Fixpoint tokenize_from (word : string) (text : string) : list string :=
  match text with
  | EmptyString => flush word
  | String c r =>
      if Ascii.eqb c " " then flush word ++ tokenize_from EmptyString r
      else if Ascii.eqb c newline
      then flush word ++ newline_token :: tokenize_from EmptyString r
      else tokenize_from (word +++ String c EmptyString) r
  end.

Definition tokenize (text : string) : list string :=
  tokenize_from EmptyString text.

(** The loop of [writeWrapped] from the column [pos] with [gap] pending
    blanks; the result is the text sent to [out].  [StringSize] is read
    as [nat]: the sums of columns and sizes stay below its wrap-around. *)
Fixpoint writeWrapped_from (helpWidth hangingIndent : nat)
    (tokens : list string) (pos gap : nat) : string :=
  match tokens with
  | [] => EmptyString
  | token :: rest =>
      let isNewline := String.eqb token newline_token in
      let isOverflow := Nat.ltb helpWidth (pos + gap + size token) in
      if isNewline || (isOverflow && Nat.ltb hangingIndent pos) then
        String newline
          (if isNewline
           then writeWrapped_from helpWidth hangingIndent rest 0 hangingIndent
           else spaces hangingIndent +++ token +++
                writeWrapped_from helpWidth hangingIndent rest
                  (0 + hangingIndent + size token) 1)
      else
        spaces gap +++ token +++
        writeWrapped_from helpWidth hangingIndent rest (pos + gap + size token) 1
  end.

Definition writeWrapped (p : Parser) (tokens : list string)
    (initialPos hangingIndent : nat) : string :=
  writeWrapped_from (helpWidth_ p) hangingIndent tokens initialPos 0.

Definition writeParagraph (p : Parser) (paragraph : string) : string :=
  match paragraph with
  | EmptyString => EmptyString
  | String _ _ =>
      writeWrapped p (tokenize paragraph) 0 0 +++
      String newline (String newline EmptyString)
  end.

Definition usageToken (p : Parser) (a : Arg) : string :=
  let t0 :=
    if negb (Ascii.eqb (shortName_ a) zero)
    then String (shortPrefix_ p) (String (shortName_ a) EmptyString)
    else if negb (Nat.eqb (size (longName_ a)) 0)
    then longPrefix_ p +++ longName_ a
    else EmptyString in
  let t1 :=
    if hasValue_ a
    then (if negb (Nat.eqb (size t0) 0) then t0 +++ " " else t0) +++ valueName_ a
    else t0 in
  let t2 := if negb (isRequired_ a) then "[" +++ t1 +++ "]" else t1 in
  if isSink_ a then t2 +++ "..." else t2.

Definition pushUsageTokens (p : Parser) (tokens : list string)
    (args : list Arg) : list string :=
  tokens ++ map (usageToken p) args.

Definition writeUsage (p : Parser) : string :=
  if Nat.eqb (size (usageTitle_ p)) 0 then EmptyString
  else
    let t0 := if negb (Nat.eqb (size (utilityName_ p)) 0)
              then [utilityName_ p] else [] in
    let t1 := if negb (Nat.eqb (size (optionsUsage_ p)) 0)
              then t0 ++ [optionsUsage_ p]
              else pushUsageTokens p t0 (options_ p) in
    let t2 := if negb (Nat.eqb (size (operandsUsage_ p)) 0)
              then t1 ++ [operandsUsage_ p]
              else pushUsageTokens p t1 (operands_ p) in
    usageTitle_ p +++ String newline (spaces (helpIndent_ p)) +++
    writeWrapped p t2 (helpIndent_ p) (helpIndent_ p * 2) +++
    String newline (String newline EmptyString).

Fixpoint hasAnyShortName (args : list Arg) : bool :=
  match args with
  | [] => false
  | a :: rest =>
      if negb (Ascii.eqb (shortName_ a) zero) then true else hasAnyShortName rest
  end.

Record Entry := mkEntry { term : string; description : list string }.

Definition entryTerm (p : Parser) (hasAnyShort : bool) (a : Arg) : string :=
  let t0 :=
    if hasAnyShort then
      if Ascii.eqb (shortName_ a) zero then "  "
      else String (shortPrefix_ p) (String (shortName_ a) EmptyString)
    else EmptyString in
  let t1 :=
    if negb (Nat.eqb (size (longName_ a)) 0) then
      (if hasAnyShort
       then t0 +++ (if negb (Ascii.eqb (shortName_ a) zero) then ", " else "  ")
       else t0) +++ longPrefix_ p +++ longName_ a
    else t0 in
  if hasValue_ a
  then (if negb (Nat.eqb (size t1) 0) then t1 +++ " " else t1) +++ valueName_ a
  else t1.

Definition entryDescription (p : Parser) (a : Arg) : list string :=
  let d := tokenize (description_ a) in
  if negb (Nat.eqb (size (defaultIntro_ p)) 0) then
    let value := getDefaultValue a in
    if negb (Nat.eqb (size value) 0)
    then d ++ ["(" +++ defaultIntro_ p +++ value +++ ")"]
    else d
  else d.

Definition makeEntry (p : Parser) (hasAnyShort : bool) (a : Arg) : Entry :=
  mkEntry (entryTerm p hasAnyShort a) (entryDescription p a).

Definition maxTermSize (entries : list Entry) : nat :=
  fold_left (fun m e => if Nat.ltb m (size (term e)) then size (term e) else m)
    entries 0.

Definition writeEntry (p : Parser) (tab : nat) (e : Entry) : string :=
  spaces (helpIndent_ p) +++ term e +++
  spaces (tab - helpIndent_ p - size (term e)) +++
  writeWrapped p (description e) tab tab +++
  String newline EmptyString.

Fixpoint concat_strings (l : list string) : string :=
  match l with
  | [] => EmptyString
  | s :: r => s +++ concat_strings r
  end.

Definition writeGlossary (p : Parser) (title : string) (args : list Arg) : string :=
  if Nat.eqb (size title) 0 || Nat.eqb (length args) 0 then EmptyString
  else
    let entries := map (makeEntry p (hasAnyShortName args)) args in
    let tab := helpIndent_ p + maxTermSize entries + helpIndent_ p in
    title +++ String newline
      (concat_strings (map (writeEntry p tab) entries)) +++
    String newline EmptyString.

Definition writeHelp (p : Parser) : string :=
  writeParagraph p (helpProlog_ p) +++
  writeUsage p +++
  writeGlossary p (optionsTitle_ p) (options_ p) +++
  writeGlossary p (operandsTitle_ p) (operands_ p) +++
  writeParagraph p (helpEpilog_ p).

(* ================================================================== *)
(** ** Vocabulary of the statements *)

(** The values representable in an integral type. *)
Definition in_range (sg : bool) (w : Width) (z : Z) : bool :=
  ((numeric_min sg w <=? z) && (z <=? numeric_max sg w))%Z.

(** The message of the [Error] that rejects [s] at an integral type;
    [negative] tells whether [s] holds a minus sign. *)
Definition integer_error (sg : bool) (negative : bool) (s : string) : string :=
  if negb sg && negative then "Cannot parse unsigned integer: " +++ s
  else "Cannot parse integer: " +++ s.

(** A computation respects a relation [R] on states and a set [E] of
    messages when it relates every state to the state it ends in and
    throws no [Error] outside [E]. *)
Definition respects (R : State -> State -> Prop) (E : string -> Prop)
    {A : Type} (m : M A) : Prop :=
  forall st,
    R st (snd (m st)) /\ forall e, fst (m st) = Error e -> E e.

(** A computation built from the steps of the parse stages: it respects
    every relation that the steps respect and every set of messages
    that holds the messages of the stages. *)
Definition staged {A : Type} (m : M A) : Prop :=
  forall (R : State -> State -> Prop) (E : string -> Prop),
    (forall st, R st st) ->
    (forall a b c, R a b -> R b c -> R a c) ->
    (forall st t s, R st (write t s st)) ->
    (forall st t rest, it st = t :: rest -> R st (set_it rest st)) ->
    (forall st ptr, R st (snd (mark_done ptr st))) ->
    (forall st s, R st (set_self (setUtilityName s (self st)) st)) ->
    (forall st, R st (set_self (with_isTerminated (self st) true) st)) ->
    (forall T s e, fromString T s = Error e -> E e) ->
    (forall n, E ("Unknown option name: " +++ n)) ->
    (forall t, E ("Cannot find value for option: " +++ t)) ->
    (forall t, E ("Unexpected option value: " +++ t)) ->
    (forall t, E ("Unexpected option: " +++ t)) ->
    respects R E m.

(** The cursor of the second state is not before that of the first. *)
Definition cursor_le (st st' : State) : Prop :=
  length (it st') <= length (it st).

(** The token is consumed as the terminator by [parseTerminator]. *)
Definition is_terminator (p : Parser) (t : string) : bool :=
  negb (isTerminated_ p)
  && negb (Nat.eqb (size (terminator_ p)) 0)
  && String.eqb t (terminator_ p).

(** The state after [parseTerminator] has recognised the terminator,
    cursor apart. *)
Definition terminate (st : State) : State :=
  set_self (with_isTerminated (self st) true) st.

(** The shape tests of [predictLongOption] and [predictShortOption] on a
    token, the terminated flag apart. *)
Definition looks_like_long (p : Parser) (t : string) : bool :=
  negb (Nat.eqb (size (longPrefix_ p)) 0)
  && Nat.ltb (size (longPrefix_ p)) (size t)
  && starts_with (longPrefix_ p) t.

Definition looks_like_short (p : Parser) (t : string) : bool :=
  Nat.ltb 1 (size t) && Ascii.eqb (front t) (shortPrefix_ p).

(** What a parser was declared with: the parser with the members that a
    parse call changes ([isTerminated_], [utilityName_] and the
    [isDone_] flags) set to fixed values. *)
Definition declared (p : Parser) : Parser :=
  mkParser (shortPrefix_ p) (longPrefix_ p) (longSeparator_ p) (terminator_ p)
    false (helpProlog_ p) (helpEpilog_ p) (usageTitle_ p)
    (optionsTitle_ p) (operandsTitle_ p) EmptyString (optionsUsage_ p)
    (operandsUsage_ p) (defaultIntro_ p) (helpWidth_ p) (helpIndent_ p)
    (map set_isDone (options_ p)) (map set_isDone (operands_ p)).

Definition same_declaration (st st' : State) : Prop :=
  declared (self st') = declared (self st).

(** The operand declared last is a sink. *)
Fixpoint last_is_sink (operands : list Arg) : bool :=
  match operands with
  | [] => false
  | a :: rest =>
      match rest with
      | [] => isSink_ a
      | _ :: _ => last_is_sink rest
      end
  end.

(** The messages thrown by [checkEnd]. *)
Definition end_error (message : string) : Prop :=
  exists t, message = "Unexpected argument: " +++ t.



(** The argument is a [SignalArg]. *)
Definition is_signal (a : Arg) : bool :=
  match derived a with DSignal => true | _ => false end.

(** Every character of [flags] is the short name of a declared option
    that takes no value and is no signal. *)
Fixpoint plain_flags (options : list Arg) (flags : string) : bool :=
  match flags with
  | EmptyString => true
  | String ch rest =>
      negb (Ascii.eqb ch zero)
      && match find_from (fun a => Ascii.eqb (shortName_ a) ch) 0 options with
         | Some (_, a) =>
             negb (hasValue_ a) && negb (is_signal a) && plain_flags options rest
         | None => false
         end
  end.

(** A word: a token that is not empty and holds neither a blank nor a
    newline, as [tokenize] produces them. *)
Fixpoint no_blank (s : string) : bool :=
  match s with
  | EmptyString => true
  | String c r =>
      negb (Ascii.eqb c " ") && negb (Ascii.eqb c newline) && no_blank r
  end.

Definition is_word (t : string) : bool :=
  negb (Nat.eqb (size t) 0) && no_blank t.

(** The tokens of a text as the renderer takes them: words and explicit
    newline tokens. *)
Definition is_token (t : string) : bool :=
  is_word t || String.eqb t newline_token.

(** The words of a token list, the newline tokens left out. *)
Fixpoint words (tokens : list string) : list string :=
  match tokens with
  | [] => []
  | t :: r => if String.eqb t newline_token then words r else t :: words r
  end.

(** The test of [writeWrapped] for a line break before a token. *)
Definition breaks_before (helpWidth hangingIndent : nat) (token : string)
    (pos gap : nat) : bool :=
  String.eqb token newline_token
  || (Nat.ltb helpWidth (pos + gap + size token) && Nat.ltb hangingIndent pos).

(** The text made of the given lines, each ended by a newline. *)
Fixpoint unlines (ls : list string) : string :=
  match ls with
  | [] => EmptyString
  | s :: r => s +++ String newline (unlines r)
  end.

(** The value of the caller variable at a location after a parse. *)
Definition after (x : Result unit * State) (target : nat) : option Slot :=
  mem (snd x) !! target.

(** The text with its blanks removed. *)
Fixpoint strip_spaces (s : string) : string :=
  match s with
  | EmptyString => EmptyString
  | String c r =>
      if Ascii.eqb c " " then strip_spaces r else String c (strip_spaces r)
  end.

(** Every line of a text whose first line starts at the column [col]
    ends at or before the column [w]. *)
Fixpoint lines_within (w col : nat) (s : string) : bool :=
  match s with
  | EmptyString => Nat.leb col w
  | String c r =>
      if Ascii.eqb c newline then Nat.leb col w && lines_within w 0 r
      else lines_within w (S col) r
  end.

(** A token that fits on a line of width [w] after an indent of [h]
    columns: an explicit newline, or a text that is not empty, holds no
    newline and is not wider than what the indent leaves. *)
Definition fits (w h : nat) (t : string) : bool :=
  String.eqb t newline_token
  || (negb (Nat.eqb (size t) 0) && negb (contains newline t)
      && Nat.leb (h + size t) w).

(** Every required argument of the list is marked done. *)
Definition required_done (args : list Arg) : bool :=
  forallb (fun a => implb (isRequired_ a) (isDone_ a)) args.

(** The stages of [parseAll] that follow [parseUtility]. *)
Definition parseArguments : M unit :=
  parseOptions ;;
  parseOperands ;;
  parseTerminator ;;
  checkEnd ;;
  checkRequired options_ ;;
  checkRequired operands_.

(** The outcome of the two required checks on a parser. *)
Definition required_outcome (p : Parser) : Result unit :=
  match checkRequired_in p (options_ p) with
  | Some e => Error e
  | None =>
      match checkRequired_in p (operands_ p) with
      | Some e => Error e
      | None => Ok tt
      end
  end.

(** The parser after [parseUtility] has seen the token [t]. *)
Definition named (t : string) (p : Parser) : Parser :=
  if Nat.eqb (size (utilityName_ p)) 0 then setUtilityName t p else p.

(** The flags that are set in the first state are set in the second:
    the terminated flag and the done flag of every argument. *)
Definition flags_kept (st st' : State) : Prop :=
  (isTerminated_ (self st) = true -> isTerminated_ (self st') = true)
  /\ (forall i a, options_ (self st) !! i = Some a -> isDone_ a = true ->
       exists a', options_ (self st') !! i = Some a' /\ isDone_ a' = true)
  /\ (forall i a, operands_ (self st) !! i = Some a -> isDone_ a = true ->
       exists a', operands_ (self st') !! i = Some a' /\ isDone_ a' = true).

(** The assignments that a cluster of short flags makes: [true] to the
    target of every flag that is a [BoolArg], in the order of the
    cluster. *)
Fixpoint flag_writes (options : list Arg) (flags : string) : list (nat * Slot) :=
  match flags with
  | EmptyString => []
  | String ch rest =>
      match find_from (fun a => Ascii.eqb (shortName_ a) ch) 0 options with
      | Some (_, a) =>
          match derived a with
          | DBool target => [(target, SBool true)]
          | _ => []
          end
      | None => []
      end ++ flag_writes options rest
  end.

(** The terminators that the operands stage can still consume. *)
Definition terminators_left (st : State) : nat :=
  if isTerminated_ (self st) then 0 else 1.

(** The last character of a text. *)
Fixpoint last_char (s : string) : option ascii :=
  match s with
  | EmptyString => None
  | String c r =>
      match r with
      | EmptyString => Some c
      | String _ _ => last_char r
      end
  end.

(** No character of the text is white space. *)
Fixpoint no_space (s : string) : bool :=
  match s with
  | EmptyString => true
  | String c r => negb (isspace c) && no_space r
  end.

(** The tokens of the usage line, as [writeUsage] collects them. *)
Definition usageTokens (p : Parser) : list string :=
  let t0 := if negb (Nat.eqb (size (utilityName_ p)) 0)
            then [utilityName_ p] else [] in
  let t1 := if negb (Nat.eqb (size (optionsUsage_ p)) 0)
            then t0 ++ [optionsUsage_ p]
            else pushUsageTokens p t0 (options_ p) in
  if negb (Nat.eqb (size (operandsUsage_ p)) 0)
  then t1 ++ [operandsUsage_ p]
  else pushUsageTokens p t1 (operands_ p).

(** A token that the operands stage binds: it is not taken as the
    terminator and does not look like an option. *)
Definition plain_token (p : Parser) (t : string) : bool :=
  negb (is_terminator p t)
  && negb (negb (isTerminated_ p)
           && (looks_like_long p t || looks_like_short p t)).

(** The assignments that the operands stage makes when the tokens are
    bound to the operands one by one: [None] when an operand is a sink
    or a token is not a value of the type of its operand. *)
Fixpoint operand_writes (ops : list Arg) (tokens : list string)
    : option (list (nat * Slot)) :=
  match ops, tokens with
  | a :: ops', t :: tokens' =>
      match derived a with
      | DValue T target _ =>
          match fromString T t with
          | Ok v =>
              if isSink_ a then None
              else
                match operand_writes ops' tokens' with
                | Some ws => Some ((target, SValue v) :: ws)
                | None => None
                end
          | _ => None
          end
      | _ => None
      end
  | _, _ => Some []
  end.

(* ================================================================== *)
(** ** Parsers of the test suite, used as concrete instances *)

(** A parser with the default syntax and one sink of strings bound to
    location 0, and the caller memory it is declared over. *)
Definition sink_mem : Mem := <[0 := SSeq []]> ∅.

Definition sink_parser : Parser :=
  addOperandSink PString 0 EmptyString EmptyString false
    (newParser EmptyString EmptyString).


Definition sink_state (tokens : list string) : State :=
  mkState sink_parser sink_mem tokens [].

(** The parser of the test case [value option]: strings at locations 0
    and 1, an [int] at location 2 and a [bool] at location 3. *)
Definition value_mem : Mem :=
  <[0 := SValue (VString "a")]>
    (<[1 := SValue (VString "b")]>
       (<[2 := SValue (VInt 1)]> (<[3 := SBool false]> ∅))).

Definition value_parser : Parser :=
  addOption_bool 3 "s" "sss" EmptyString false
    (addOption (PInt true W32) value_mem 2 "i" "iii" EmptyString EmptyString false
       (addOption PString value_mem 1 zero "bbb" EmptyString EmptyString false
          (addOption PString value_mem 0 "a" EmptyString EmptyString EmptyString
             false (newParser EmptyString EmptyString)))).

(** The parser of the test case [signal], with a required flag added,
    over a memory with the flag at location 0. *)
Definition signal_mem : Mem := <[0 := SBool false]> ∅.

Definition signal_parser : Parser :=
  addOption_bool 0 "a" EmptyString EmptyString true
    (addSignal "v" "version" EmptyString
       (addSignal "h" "help" EmptyString (newParser EmptyString EmptyString))).

(** A parser with one string option named [-o] and [--out], bound to
    location 0, which holds [a] at declaration. *)
Definition out_mem : Mem := <[0 := SValue (VString "a")]> ∅.

Definition out_parser : Parser :=
  addOption PString out_mem 0 "o" "out" "FILE" EmptyString false
    (newParser EmptyString EmptyString).

(** The parser of the test case [help message line wrapping]: width 21,
    no usage and no operands section. *)
Definition wrap_parser : Parser :=
  setHelpWidth 21
    (setOperandsTitle EmptyString
       (setUsageTitle EmptyString (newParser EmptyString EmptyString))).

(** The parser of the test case [error messages]: a flag at location 0,
    an [int] and an [unsigned] at 1 and 2, two [int] operands at 3, 4. *)
Definition error_mem : Mem :=
  <[0 := SBool false]>
    (<[1 := SValue (VInt 1)]>
       (<[2 := SValue (VInt 1)]>
          (<[3 := SValue (VInt 1)]> (<[4 := SValue (VInt 1)]> ∅)))).

Definition error_parser : Parser :=
  addOperand (PInt true W32) error_mem 4 "bb" EmptyString false
    (addOperand (PInt true W32) error_mem 3 "aa" EmptyString false
       (addOption (PInt false W32) error_mem 2 zero "uu" EmptyString EmptyString
          false
          (addOption (PInt true W32) error_mem 1 "i" "ii" EmptyString
             EmptyString false
             (addOption_bool 0 "s" "ss" EmptyString false
                (newParser EmptyString EmptyString))))).

(** The parser of the test case [required options and operands]. *)
Definition required_mem : Mem :=
  <[0 := SBool false]>
    (<[1 := SValue (VString "v")]>
       (<[2 := SValue (VString "w")]>
          (<[3 := SValue (VString "o")]> (<[4 := SSeq []]> ∅)))).

Definition required_parser : Parser :=
  addOperandSink PString 4 EmptyString EmptyString true
    (addOperand PString required_mem 3 EmptyString EmptyString true
       (addOption PString required_mem 2 zero "www" EmptyString EmptyString true
          (addOption PString required_mem 1 "v" EmptyString EmptyString
             EmptyString true
             (addOption_bool 0 "b" EmptyString EmptyString true
                (newParser EmptyString EmptyString))))).

(** The parser of the test case [prefix precedence]: both prefixes are
    the slash. *)
Definition precedence_mem : Mem :=
  <[0 := SBool false]>
    (<[1 := SBool false]> (<[2 := SBool false]> (<[3 := SBool false]> ∅))).

Definition precedence_parser : Parser :=
  setLongOptionPrefix "/"
    (setShortOptionPrefix "/"
       (addOption_bool 3 zero "ab" EmptyString false
          (addOption_bool 2 "b" EmptyString EmptyString false
             (addOption_bool 1 zero "a" EmptyString false
                (addOption_bool 0 "a" EmptyString EmptyString false
                   (newParser EmptyString EmptyString)))))).

(** The parser of the test case [custom syntax]: flags at locations 0
    and 1, an [int] at 2 and a string operand at 3. *)
Definition custom_mem : Mem :=
  <[0 := SBool false]>
    (<[1 := SBool false]>
       (<[2 := SValue (VInt 1)]> (<[3 := SValue (VString "o")]> ∅))).

Definition custom_parser : Parser :=
  addOperand PString custom_mem 3 EmptyString EmptyString false
    (addOption (PInt true W32) custom_mem 2 zero "iii" EmptyString EmptyString
       false
       (addOption_bool 1 zero "bbb" EmptyString false
          (addOption_bool 0 "a" EmptyString EmptyString false
             (newParser EmptyString EmptyString)))).

(* ================================================================== *)
(** * Properties *)

(** ** Strings *)

Lemma append_nil_r (s : string) : s +++ EmptyString = s.
Proof. induction s; simpl; congruence. Qed.

Lemma append_assoc (a b c : string) : (a +++ b) +++ c = a +++ (b +++ c).
Proof. induction a; simpl; congruence. Qed.

Lemma size_append (a b : string) : size (a +++ b) = size a + size b.
Proof. unfold size. induction a; simpl; congruence. Qed.

(** ** The value codec on rendered integers *)

#[local] Arguments digit_char : simpl never.
#[local] Arguments Z.pow : simpl never.
#[local] Arguments Z.of_nat : simpl never.

Lemma put_digits_S (f : nat) (n : Z) (tl : string) :
  put_digits (S f) n tl
  = if (n <? 10)%Z then String (digit_char (n mod 10)) tl
    else put_digits f (n / 10) (String (digit_char (n mod 10)) tl).
Proof. reflexivity. Qed.

Lemma scan_digits_cons (base : Z) (c : ascii) (r : string) (acc : Z) (n : nat) :
  scan_digits base (String c r) acc n
  = match digit_value c with
    | Some d =>
        if (d <? base)%Z then scan_digits base r (acc * base + d)%Z (S n)
        else (acc, n)
    | None => (acc, n)
    end.
Proof. reflexivity. Qed.

Ltac ten_cases d H :=
  let E := fresh "E" in
  assert (E : (d = 0 \/ d = 1 \/ d = 2 \/ d = 3 \/ d = 4 \/ d = 5 \/ d = 6
               \/ d = 7 \/ d = 8 \/ d = 9)%Z) by lia;
  clear H;
  repeat (destruct E as [E | E]; [subst d | ]); [.. | subst d].

Lemma digit_value_digit_char (d : Z) :
  (0 <= d < 10)%Z -> digit_value (digit_char d) = Some d.
Proof. intros H. ten_cases d H; reflexivity. Qed.

Lemma digit_char_plain (d : Z) (r : string) (n : nat) :
  (0 <= d < 10)%Z ->
  isspace (digit_char d) = false
  /\ read_sign (String (digit_char d) r) n = (false, String (digit_char d) r, n)
  /\ Ascii.eqb (digit_char d) "-" = false
  /\ contains (digit_char d) "Xx" = false.
Proof. intros H. ten_cases d H; repeat split; reflexivity. Qed.

(** A property of strings that holds of a tail and is kept by putting a
    decimal digit in front holds of the rendered digits. *)
Lemma put_digits_ind (P : string -> Prop) :
  (forall d tl, (0 <= d < 10)%Z -> P tl -> P (String (digit_char d) tl)) ->
  forall f n tl, (0 <= n)%Z -> P tl -> P (put_digits f n tl).
Proof.
  intros Hstep f. induction f as [| f IH]; intros n tl Hn Htl.
  - exact Htl.
  - rewrite put_digits_S.
    assert (Hd : (0 <= n mod 10 < 10)%Z) by (apply Z.mod_pos_bound; lia).
    destruct (n <? 10)%Z.
    + apply Hstep; assumption.
    + apply IH.
      * apply Z.div_pos; lia.
      * apply Hstep; assumption.
Qed.

Lemma put_digits_head (f : nat) : forall n tl,
  (0 <= n)%Z ->
  exists d r, (0 <= d < 10)%Z /\ put_digits (S f) n tl = String (digit_char d) r.
Proof.
  induction f as [| f IH]; intros n tl Hn.
  - exists (n mod 10)%Z, tl. split.
    + apply Z.mod_pos_bound; lia.
    + rewrite put_digits_S. destruct (n <? 10)%Z; reflexivity.
  - rewrite put_digits_S.
    destruct (n <? 10)%Z.
    + exists (n mod 10)%Z, tl. split; [apply Z.mod_pos_bound; lia | reflexivity].
    + apply IH. apply Z.div_pos; lia.
Qed.

Lemma put_digits_no_minus f n tl :
  (0 <= n)%Z -> contains "-" tl = false -> contains "-" (put_digits f n tl) = false.
Proof.
  intros Hn.
  apply put_digits_ind with (P := fun s => contains "-" s = false); [| exact Hn].
  intros d t Hd Ht. cbn [contains].
  destruct (digit_char_plain d EmptyString 0 Hd) as (_ & _ & E & _).
  rewrite E. exact Ht.
Qed.

Lemma put_digits_no_x f n tl :
  (0 <= n)%Z -> contains_any "Xx" tl = false ->
  contains_any "Xx" (put_digits f n tl) = false.
Proof.
  intros Hn.
  apply put_digits_ind with (P := fun s => contains_any "Xx" s = false); [| exact Hn].
  intros d t Hd Ht.
  destruct (digit_char_plain d EmptyString 0 Hd) as (_ & _ & _ & E).
  cbn [contains_any]. rewrite E. exact Ht.
Qed.

(** Scanning the rendered digits of [n] shifts the accumulator by their
    number and adds [n]. *)
Lemma scan_put_digits (f : nat) : forall n tl a k,
  (0 <= n < 10 ^ Z.of_nat (S f))%Z ->
  exists len,
    0 < len
    /\ size (put_digits (S f) n tl) = len + size tl
    /\ scan_digits 10 (put_digits (S f) n tl) a k
       = scan_digits 10 tl (a * 10 ^ Z.of_nat len + n)%Z (k + len).
Proof.
  assert (One : forall n tl a k, (0 <= n < 10)%Z ->
    scan_digits 10 (String (digit_char (n mod 10)) tl) a k
    = scan_digits 10 tl (a * 10 ^ Z.of_nat 1 + n)%Z (k + 1)).
  { intros n tl a k Hn. rewrite Z.mod_small by lia.
    rewrite scan_digits_cons, digit_value_digit_char by lia.
    destruct (Z.ltb_spec n 10); [| lia].
    replace (k + 1) with (S k) by lia.
    change (Z.of_nat 1) with 1%Z. rewrite Z.pow_1_r.
    reflexivity. }
  induction f as [| f IH]; intros n tl a k Hn.
  - assert (Hn' : (0 <= n < 10)%Z).
    { change (Z.of_nat 1) with 1%Z in Hn. rewrite Z.pow_1_r in Hn. exact Hn. }
    assert (Hp : put_digits 1 n tl = String (digit_char (n mod 10)) tl).
    { rewrite put_digits_S. destruct (n <? 10)%Z; reflexivity. }
    exists 1. split; [lia |]. split.
    + rewrite Hp. reflexivity.
    + rewrite Hp. apply One; assumption.
  - rewrite put_digits_S.
    destruct (Z.ltb_spec n 10) as [Hlt | Hge].
    + exists 1. split; [lia |]. split; [reflexivity |]. apply One. lia.
    + assert (Hq : (0 <= n / 10 < 10 ^ Z.of_nat (S f))%Z).
      { split; [apply Z.div_pos; lia |].
        apply Z.div_lt_upper_bound; [lia |].
        replace (Z.of_nat (S (S f))) with (Z.succ (Z.of_nat (S f))) in Hn by lia.
        rewrite Z.pow_succ_r in Hn by lia. lia. }
      destruct (IH (n / 10)%Z (String (digit_char (n mod 10)) tl) a k Hq)
        as (len & Hlen & Hsize & Hscan).
      exists (S len). split; [lia |]. split.
      * rewrite Hsize. unfold size. cbn [String.length]. lia.
      * rewrite Hscan, scan_digits_cons.
        rewrite digit_value_digit_char by (apply Z.mod_pos_bound; lia).
        destruct (Z.ltb_spec (n mod 10) 10) as [_ | Hbad];
          [| pose proof (Z.mod_pos_bound n 10); lia].
        replace (k + S len) with (S (k + len)) by lia.
        f_equal.
        replace (Z.of_nat (S len)) with (Z.succ (Z.of_nat len)) by lia.
        rewrite Z.pow_succ_r by lia.
        pose proof (Z.div_mod n 10). lia.
Qed.

Lemma log2_fuel (n : Z) :
  (0 <= n)%Z -> (0 <= n < 10 ^ Z.of_nat (S (Z.to_nat (Z.log2 n))))%Z.
Proof.
  intros Hn. split; [exact Hn |].
  pose proof (Z.log2_nonneg n) as Hl.
  replace (Z.of_nat (S (Z.to_nat (Z.log2 n)))) with (Z.succ (Z.log2 n)) by lia.
  destruct (Z.eq_dec n 0%Z) as [-> | Hnz].
  - vm_compute. reflexivity.
  - assert (Hs : (n < 2 ^ Z.succ (Z.log2 n))%Z) by (apply Z.log2_spec; lia).
    assert (Hp : (2 ^ Z.succ (Z.log2 n) <= 10 ^ Z.succ (Z.log2 n))%Z)
      by (apply Z.pow_le_mono_l; lia).
    lia.
Qed.

Lemma skip_hex_prefix_decimal (s : string) (n : nat) :
  skip_hex_prefix 10 s n = (s, n).
Proof.
  destruct s as [| c [| x [| h r]]]; try reflexivity;
    destruct c as [[|] [|] [|] [|] [|] [|] [|] [|]]; reflexivity.
Qed.

Lemma skip_space_cons (c : ascii) (r : string) (n : nat) :
  skip_space (String c r) n
  = if isspace c then skip_space r (S n) else (String c r, n).
Proof. reflexivity. Qed.

(** The subject sequence of a non-empty run of decimal digits that
    [scan_digits] reads to its end, with or without a minus sign. *)
Lemma strto_subject_run (s : string) (d : Z) (r : string) (n : Z) (len : nat) :
  s = String (digit_char d) r -> (0 <= d < 10)%Z -> 0 < len ->
  (forall k, scan_digits 10 s 0 k = (n, k + len)) ->
  strto_subject s 10 = Some (false, n, len)
  /\ strto_subject (String "-" s) 10 = Some (true, n, S len).
Proof.
  intros Hs Hd Hlen Hscan.
  destruct (digit_char_plain d r 0 Hd) as (Hsp & Hsign & _).
  split; unfold strto_subject.
  - assert (Hsk : skip_space s 0 = (s, 0)).
    { rewrite Hs, skip_space_cons, Hsp. reflexivity. }
    rewrite Hsk.
    assert (Hrs : read_sign s 0 = (false, s, 0)) by (rewrite Hs; exact Hsign).
    rewrite Hrs, skip_hex_prefix_decimal, Hscan.
    destruct (Nat.eqb_spec (0 + len) 0); [lia | reflexivity].
  - rewrite skip_space_cons.
    change (isspace "-") with false. cbv iota.
    change (read_sign (String "-" s) 0) with (true, s, 1).
    cbv iota beta.
    rewrite skip_hex_prefix_decimal, Hscan.
    destruct (Nat.eqb_spec (1 + len) 1); [lia | reflexivity].
Qed.

(** The subject sequence of the rendered digits of [n] is all of them. *)
Lemma strto_subject_digits (n : Z) :
  (0 <= n)%Z ->
  let s := put_digits (S (Z.to_nat (Z.log2 n))) n EmptyString in
  strto_subject s 10 = Some (false, n, size s)
  /\ strto_subject (String "-" s) 10 = Some (true, n, size (String "-" s)).
Proof.
  intros Hn s.
  destruct (put_digits_head (Z.to_nat (Z.log2 n)) n EmptyString Hn)
    as (d & r & Hd & Hs).
  fold s in Hs.
  assert (Hrun : exists len, 0 < len /\ size s = len
                 /\ forall k, scan_digits 10 s 0 k = (n, k + len)).
  { destruct (scan_put_digits (Z.to_nat (Z.log2 n)) n EmptyString 0%Z 0
                (log2_fuel n Hn)) as (len & Hlen & Hsize & _).
    fold s in Hsize.
    exists len. split; [exact Hlen |]. split.
    { rewrite Hsize. change (size EmptyString) with 0. lia. }
    intros k.
    destruct (scan_put_digits (Z.to_nat (Z.log2 n)) n EmptyString 0%Z k
                (log2_fuel n Hn)) as (len' & _ & Hsize' & Hscan).
    fold s in Hsize', Hscan.
    assert (len' = len) by lia. subst len'.
    rewrite Hscan. cbn [scan_digits]. f_equal; lia. }
  clearbody s.
  destruct Hrun as (len & Hlen & Hsize & Hscan).
  replace (size (String "-" s)) with (S len)
    by (unfold size in *; cbn [String.length]; lia).
  rewrite Hsize.
  exact (strto_subject_run s d r n len Hs Hd Hlen Hscan).
Qed.

Lemma put_integer_base (z : Z) : base_of (put_integer z) = 10%Z.
Proof.
  unfold base_of, put_integer.
  destruct (Z.ltb_spec z 0).
  - cbn [contains_any]. change (contains "-" "Xx") with false. cbv iota.
    rewrite put_digits_no_x by (lia || reflexivity). reflexivity.
  - rewrite put_digits_no_x by (lia || reflexivity). reflexivity.
Qed.

Lemma put_integer_minus (z : Z) : contains "-" (put_integer z) = (z <? 0)%Z.
Proof.
  unfold put_integer. destruct (Z.ltb_spec z 0).
  - reflexivity.
  - apply put_digits_no_minus; [assumption | reflexivity].
Qed.

Ltac eval_pow :=
  repeat match goal with
  | |- context [Z.pow ?a ?b] =>
      let v := eval vm_compute in (Z.pow a b) in change (Z.pow a b) with v
  end.

Ltac bounds :=
  cbv [in_range numeric_min numeric_max bits LLONG_MIN LLONG_MAX ULLONG_MAX];
  eval_pow;
  repeat first
    [ progress cbv beta iota
    | progress cbn [andb negb]
    | rewrite Nat.eqb_refl
    | match goal with
      | |- context [(?a <=? ?b)%Z] => destruct (Z.leb_spec a b)
      | |- context [(?a <? ?b)%Z] => destruct (Z.ltb_spec a b)
      end ];
  try reflexivity; try lia.

(** Re-reading the decimal rendering of [z] at an integral type returns
    [z] when [z] is representable there and is rejected otherwise. *)
Lemma fromString_int_put_integer (sg : bool) (w : Width) (z : Z) :
  fromString_int sg w (put_integer z)
  = if in_range sg w z then Ok z
    else Error (integer_error sg (z <? 0)%Z (put_integer z)).
Proof.
  unfold fromString_int, toLongest, integer_error.
  rewrite put_integer_base, put_integer_minus.
  assert (Hsub : strto_subject (put_integer z) 10
                 = Some ((z <? 0)%Z, Z.abs z, size (put_integer z))).
  { unfold put_integer. destruct (Z.ltb_spec z 0) as [Hneg | Hpos].
    - destruct (strto_subject_digits (- z)%Z ltac:(lia)) as [_ E].
      rewrite E. repeat f_equal. lia.
    - destruct (strto_subject_digits z Hpos) as [E _].
      rewrite E. repeat f_equal. lia. }
  unfold stoll, stoull. rewrite Hsub.
  set (s := put_integer z). clearbody s.
  destruct sg; cbn [negb andb].
  - assert (Hv : (if (z <? 0)%Z then (- Z.abs z)%Z else Z.abs z) = z)
      by (destruct (Z.ltb_spec z 0); lia).
    rewrite Hv. clear Hv Hsub.
    destruct w; bounds.
  - destruct (Z.ltb_spec z 0) as [Hneg | Hpos].
    + destruct w; bounds.
    + rewrite Z.abs_eq by lia. clear Hsub.
      destruct w; bounds.
Qed.

Lemma fromString_put_integer (sg : bool) (w : Width) (z : Z) :
  fromString (PInt sg w) (put_integer z)
  = if in_range sg w z then Ok (VInt z)
    else Error (integer_error sg (z <? 0)%Z (put_integer z)).
Proof.
  unfold fromString. rewrite fromString_int_put_integer.
  destruct (in_range sg w z); reflexivity.
Qed.

(** An accepted integer token denotes a representable value. *)
Lemma fromString_int_sound (sg : bool) (w : Width) (s : string) (v : Z) :
  fromString_int sg w s = Ok v -> in_range sg w v = true.
Proof.
  unfold fromString_int, in_range.
  destruct (toLongest sg s (base_of s)) as [value pos | | m]; try discriminate.
  destruct (Nat.eqb pos (size s)); cbn [andb]; try discriminate.
  destruct (numeric_min sg w <=? value)%Z eqn:E1; cbn [andb]; try discriminate.
  destruct (value <=? numeric_max sg w)%Z eqn:E2; try discriminate.
  intros H. injection H as <-. rewrite E1, E2. reflexivity.
Qed.

(** ** Types read through a stream *)




Lemma skip_space_plain (s : string) (n : nat) :
  no_space s = true -> skip_space s n = (s, n).
Proof.
  destruct s as [| c r]; [reflexivity |].
  cbn [no_space]. rewrite skip_space_cons.
  destruct (isspace c); [discriminate | reflexivity].
Qed.





Lemma fromString_stream_cases (U : StreamType) (s : string) :
  (exists v, fromString_stream U s = Ok v)
  \/ fromString_stream U s = Error ("Cannot parse value: " +++ s).
Proof.
  unfold fromString_stream.
  destruct (extract U (stringstream s) (init U)) as [st1 x].
  destruct (failbit (ws st1) || negb (eofbit (ws st1)));
    [right; reflexivity | left; exists x; reflexivity].
Qed.


(** ** The text of a floating-point value *)












Lemma printf_g_not_empty (n d : Z) : printf_g n d <> EmptyString.
Proof.
  unfold printf_g.
  destruct (if (six_digits n d (decimal_exponent n d) =? 1000000)%Z
            then (100000%Z, (decimal_exponent n d + 1)%Z)
            else (six_digits n d (decimal_exponent n d), decimal_exponent n d))
    as [s x].
  assert (Hs : exists c r, put_integer s = String c r).
  { unfold put_integer. destruct (s <? 0)%Z eqn:Hz; [eauto |].
    apply Z.ltb_ge in Hz.
    destruct (put_digits_head (Z.to_nat (Z.log2 s)) s EmptyString Hz)
      as (d0 & r & _ & ->). eauto. }
  destruct Hs as (c & r & ->).
  destruct ((x <? -4) || (6 <=? x))%Z; [discriminate |].
  destruct (0 <=? x)%Z; discriminate.
Qed.

Lemma insert_float_not_empty (v : Float) : insert_float v <> EmptyString.
Proof.
  destruct v as [[] | [] | [] | [] m e]; try discriminate;
    cbn [insert_float signed]; destruct (0 <=? e)%Z;
    apply printf_g_not_empty.
Qed.




(** C5: at every integral type the codec accepts the decimal text of an
    integer exactly when the integer is representable at the width and
    signedness of the type, an accepted token never denotes a value out
    of range, and the bounds of the 8-, 32- and 64-bit types are
    accepted while their neighbours are rejected. *)
Theorem C5_integer_bounds :
  (forall sg w z,
     fromString (PInt sg w) (put_integer z)
     = if in_range sg w z then Ok (VInt z)
       else Error (integer_error sg (z <? 0)%Z (put_integer z)))
  /\ (forall sg w z,
        in_range sg w z = true <->
        (if sg then - 2 ^ (bits w - 1) <= z <= 2 ^ (bits w - 1) - 1
         else 0 <= z <= 2 ^ bits w - 1)%Z)
  /\ (forall sg w s v,
        fromString (PInt sg w) s = Ok (VInt v) -> in_range sg w v = true)
  /\ (fromString (PInt true W8) "-128" = Ok (VInt (-128))
      /\ fromString (PInt true W8) "127" = Ok (VInt 127)
      /\ fromString (PInt true W8) "-129" = Error "Cannot parse integer: -129"
      /\ fromString (PInt true W8) "128" = Error "Cannot parse integer: 128")
  /\ (fromString (PInt false W8) "0" = Ok (VInt 0)
      /\ fromString (PInt false W8) "255" = Ok (VInt 255)
      /\ fromString (PInt false W8) "-1" = Error "Cannot parse unsigned integer: -1"
      /\ fromString (PInt false W8) "256" = Error "Cannot parse integer: 256")
  /\ (fromString (PInt true W32) "-2147483648" = Ok (VInt (-2147483648))
      /\ fromString (PInt true W32) "2147483647" = Ok (VInt 2147483647)
      /\ fromString (PInt true W32) "-2147483649"
         = Error "Cannot parse integer: -2147483649"
      /\ fromString (PInt true W32) "2147483648"
         = Error "Cannot parse integer: 2147483648")
  /\ (fromString (PInt false W32) "0" = Ok (VInt 0)
      /\ fromString (PInt false W32) "4294967295" = Ok (VInt 4294967295)
      /\ fromString (PInt false W32) "-1" = Error "Cannot parse unsigned integer: -1"
      /\ fromString (PInt false W32) "4294967296"
         = Error "Cannot parse integer: 4294967296")
  /\ (fromString (PInt true W64) "-9223372036854775808"
      = Ok (VInt (-9223372036854775808))
      /\ fromString (PInt true W64) "9223372036854775807"
         = Ok (VInt 9223372036854775807)
      /\ fromString (PInt true W64) "-9223372036854775809"
         = Error "Cannot parse integer: -9223372036854775809"
      /\ fromString (PInt true W64) "9223372036854775808"
         = Error "Cannot parse integer: 9223372036854775808")
  /\ (fromString (PInt false W64) "0" = Ok (VInt 0)
      /\ fromString (PInt false W64) "18446744073709551615"
         = Ok (VInt 18446744073709551615)
      /\ fromString (PInt false W64) "-1" = Error "Cannot parse unsigned integer: -1"
      /\ fromString (PInt false W64) "18446744073709551616"
         = Error "Cannot parse integer: 18446744073709551616").
Proof.
  split; [exact fromString_put_integer |].
  split.
  { intros sg w z. unfold in_range, numeric_min, numeric_max.
    rewrite andb_true_iff, !Z.leb_le. destruct sg; tauto. }
  split.
  { intros sg w s v H. apply (fromString_int_sound sg w s).
    unfold fromString in H.
    destruct (fromString_int sg w s); try discriminate.
    injection H as ->. reflexivity. }
  repeat split; vm_compute; reflexivity.
Qed.

Lemma C5_integer_bounds_witness :
  fromString (PInt true W16) "-32768" = Ok (VInt (-32768))
  /\ in_range true W16 (-32768) = true.
Proof.
  split; [vm_compute; reflexivity |].
  apply (proj1 (proj2 (proj2 C5_integer_bounds)) true W16 "-32768" (-32768)%Z).
  vm_compute. reflexivity.
Defined.




(** ** Stage-wise reasoning about the parse engine *)

Lemma set_self_same (st : State) : set_self (self st) st = st.
Proof. destruct st; reflexivity. Qed.

(** The stages change the state by a few steps only: an assignment to a
    caller variable, an advance of the cursor, the [isDone_] flag of an
    argument, the utility name and the terminated flag.  A relation that
    these steps respect is respected by every stage, and a set of
    messages that holds those thrown by the stages holds every message
    that a stage ends with. *)
Section Respects.
Variable R : State -> State -> Prop.
Variable E : string -> Prop.
Hypothesis R_refl : forall st, R st st.
Hypothesis R_trans : forall a b c, R a b -> R b c -> R a c.
Hypothesis R_write : forall st t s, R st (write t s st).
Hypothesis R_advance :
  forall st t rest, it st = t :: rest -> R st (set_it rest st).
Hypothesis R_done : forall st ptr, R st (snd (mark_done ptr st)).
Hypothesis R_name :
  forall st s, R st (set_self (setUtilityName s (self st)) st).
Hypothesis R_term :
  forall st, R st (set_self (with_isTerminated (self st) true) st).
Hypothesis E_codec : forall T s m, fromString T s = Error m -> E m.
Hypothesis E_unknown : forall n, E ("Unknown option name: " +++ n).
Hypothesis E_no_value : forall t, E ("Cannot find value for option: " +++ t).
Hypothesis E_value : forall t, E ("Unexpected option value: " +++ t).
Hypothesis E_option : forall t, E ("Unexpected option: " +++ t).

Local Abbreviation ok := (respects R E).

Lemma respects_ret {A} (a : A) : ok (ret a).
Proof. intros st. split; [apply R_refl | discriminate]. Qed.

Lemma respects_throw {A} (m : string) : E m -> ok (@throw A m).
Proof.
  intros Hm st. split; [apply R_refl |].
  simpl. intros e [= <-]. exact Hm.
Qed.

Lemma respects_bind {A B} (m : M A) (k : A -> M B) :
  ok m -> (forall a, ok (k a)) -> ok (bind m k).
Proof.
  intros Hm Hk st. unfold bind.
  destruct (Hm st) as [HR HE].
  destruct (m st) as [[a | e | c l] st1]; cbn [fst snd] in HR, HE |- *.
  - destruct (Hk a st1) as [HR' HE']. split.
    + eapply R_trans; eassumption.
    + exact HE'.
  - split; [exact HR |]. intros e' [= <-]. apply HE. reflexivity.
  - split; [exact HR | discriminate].
Qed.

Lemma respects_doParse a s : ok (doParse a s).
Proof.
  intros st. unfold doParse.
  destruct (derived a) as [| t | T t d | T t].
  - split; [apply R_refl | discriminate].
  - split; [apply R_refl | discriminate].
  - destruct (fromString T s) as [v | e | c l] eqn:F; simpl; split;
      try apply R_refl; try apply R_write; try discriminate.
    intros e' [= <-]. exact (E_codec _ _ _ F).
  - destruct (fromString T s) as [v | e | c l] eqn:F; simpl; split;
      try apply R_refl; try apply R_write; try discriminate.
    intros e' [= <-]. exact (E_codec _ _ _ F).
Qed.

Lemma respects_doDone a : ok (doDone a).
Proof.
  intros st. unfold doDone.
  destruct (derived a); simpl; split;
    try apply R_refl; try apply R_write; discriminate.
Qed.

Lemma respects_mark_done ptr : ok (mark_done ptr).
Proof. intros st. split; [apply R_done | discriminate]. Qed.

Lemma respects_done ptr a : ok (done ptr a).
Proof.
  apply respects_bind; [apply respects_doDone |].
  intros _. apply respects_mark_done.
Qed.

Lemma respects_parseUtility : ok parseUtility.
Proof.
  intros st. unfold parseUtility.
  destruct (it st) as [| t rest] eqn:Hit; simpl.
  - split; [apply R_refl | discriminate].
  - split; [| discriminate].
    destruct (Nat.eqb (size (utilityName_ (self st))) 0).
    + eapply R_trans; [apply (R_name st t) | apply (R_advance _ t); exact Hit].
    + rewrite set_self_same. apply (R_advance _ t); exact Hit.
Qed.

Lemma respects_parseTerminator : ok parseTerminator.
Proof.
  intros st. unfold parseTerminator.
  destruct (it st) as [| t rest] eqn:Hit; simpl.
  - split; [apply R_refl | discriminate].
  - destruct (isTerminated_ (self st)
              || Nat.eqb (size (terminator_ (self st))) 0
              || negb (String.eqb t (terminator_ (self st)))); simpl.
    + split; [apply R_refl | discriminate].
    + split; [| discriminate].
      eapply R_trans; [apply R_term | apply (R_advance _ t); exact Hit].
Qed.

Lemma respects_getOption name : ok (getOption name).
Proof.
  intros st. unfold getOption.
  destruct (if Nat.eqb (size name) 0 then None else _) as [[i a] |];
    simpl; split; try apply R_refl; try discriminate.
  intros e [= <-]. apply E_unknown.
Qed.

Lemma respects_getOption_char c : ok (getOption_char c).
Proof.
  intros st. unfold getOption_char.
  destruct (if Ascii.eqb c zero then None else _) as [[i a] |];
    simpl; split; try apply R_refl; try discriminate.
  intros e [= <-]. apply E_unknown.
Qed.

Lemma respects_parse_next token a : ok (parse_next token a).
Proof.
  intros st. unfold parse_next.
  destruct (it st) as [| v rest] eqn:Hit.
  - simpl. split; [apply R_refl |]. intros e [= <-]. apply E_no_value.
  - destruct (respects_doParse a v (set_it rest st)) as [HR HE].
    split; [| exact HE].
    eapply R_trans; [apply (R_advance _ v); exact Hit | exact HR].
Qed.

Lemma respects_parseLongOption : ok parseLongOption.
Proof.
  intros st. unfold parseLongOption.
  destruct (negb (predictLongOption st)).
  { split; [apply R_refl | discriminate]. }
  destruct (it st) as [| token rest] eqn:Hit.
  { split; [apply R_refl | discriminate]. }
  destruct (find_split _ _) as [name value].
  match goal with |- context [bind ?m ?k] =>
    assert (H : ok (bind m k)) end.
  { apply respects_bind; [apply respects_getOption |].
    intros [ptr option]. apply respects_bind; [| intros _; apply respects_done].
    destruct (hasValue_ option), value as [v |].
    - apply respects_doParse.
    - apply respects_parse_next.
    - apply respects_throw, E_value.
    - apply respects_ret. }
  destruct (H (set_it rest st)) as [HR HE]. split; [| exact HE].
  eapply R_trans; [apply (R_advance _ token); exact Hit | exact HR].
Qed.

Lemma respects_parseShortNames token names : ok (parseShortNames token names).
Proof.
  induction names as [| c rest IH]; simpl.
  - apply respects_ret.
  - apply respects_bind; [apply respects_getOption_char |].
    intros [ptr option]. destruct (hasValue_ option).
    + apply respects_bind; [| intros _; apply respects_done].
      destruct rest; [apply respects_parse_next | apply respects_doParse].
    + apply respects_bind; [apply respects_done | intros _; exact IH].
Qed.

Lemma respects_parseShortOptions : ok parseShortOptions.
Proof.
  intros st. unfold parseShortOptions.
  destruct (negb (predictShortOption st)).
  { split; [apply R_refl | discriminate]. }
  destruct (it st) as [| token rest] eqn:Hit.
  { split; [apply R_refl | discriminate]. }
  destruct (respects_parseShortNames token (str_drop 1 token) (set_it rest st))
    as [HR HE].
  split; [| exact HE].
  eapply R_trans; [apply (R_advance _ token); exact Hit | exact HR].
Qed.

Lemma respects_parseOptions_body : ok parseOptions_body.
Proof.
  intros st. unfold parseOptions_body.
  set (old := it st).
  match goal with |- context [bind ?m ?k] =>
    assert (H : ok (bind m k)); [| exact (H st)] end.
  apply respects_bind; [apply respects_parseTerminator | intros _].
  intros st1. destruct (moved old st1).
  { split; [apply R_refl | discriminate]. }
  revert st1.
  apply respects_bind; [apply respects_parseLongOption | intros _].
  intros st2. destruct (moved old st2).
  { split; [apply R_refl | discriminate]. }
  revert st2.
  apply respects_bind; [apply respects_parseShortOptions | intros _].
  intros st3. destruct (moved old st3); split;
    try apply R_refl; discriminate.
Qed.

Lemma respects_loop (body : M bool) (fuel : nat) :
  ok body -> ok (loop fuel body).
Proof.
  intros Hb. induction fuel as [| k IH]; simpl.
  - apply respects_ret.
  - apply respects_bind; [exact Hb |].
    intros [|]; [exact IH | apply respects_ret].
Qed.

Lemma respects_parseOptions : ok parseOptions.
Proof.
  intros st. unfold parseOptions.
  apply respects_loop, respects_parseOptions_body.
Qed.

Lemma respects_parseOperandContent_body ptr operand :
  ok (parseOperandContent_body ptr operand).
Proof.
  unfold parseOperandContent_body.
  apply respects_bind; [apply respects_parseTerminator | intros _].
  intros st1. destruct (it st1) as [| t rest] eqn:Hit.
  { split; [apply R_refl | discriminate]. }
  destruct (predictLongOption st1 || predictShortOption st1).
  { simpl. split; [apply R_refl |]. intros e [= <-]. apply E_option. }
  match goal with |- context [bind ?m ?k] =>
    assert (H : ok (bind m k)) end.
  { apply respects_bind; [apply respects_doParse | intros _].
    apply respects_bind; [apply respects_done | intros _].
    apply respects_ret. }
  destruct (H (set_it rest st1)) as [HR HE]. split; [| exact HE].
  eapply R_trans; [apply (R_advance _ t); exact Hit | exact HR].
Qed.

Lemma respects_parseOperandContent ptr operand :
  ok (parseOperandContent ptr operand).
Proof.
  intros st. unfold parseOperandContent.
  apply respects_loop, respects_parseOperandContent_body.
Qed.

Lemma respects_parseOperands_from ops : forall i, ok (parseOperands_from i ops).
Proof.
  induction ops as [| operand rest IH]; intros i; simpl.
  - apply respects_ret.
  - apply respects_bind; [apply respects_parseOperandContent |].
    intros _. apply IH.
Qed.

Lemma respects_parseOperands : ok parseOperands.
Proof. intros st. unfold parseOperands. apply respects_parseOperands_from. Qed.

(** The whole parse relates its first state to its last. *)
Lemma parseAll_related (st : State) : R st (snd (parseAll st)).
Proof.
  unfold parseAll, bind.
  destruct (respects_parseUtility st) as [H1 _].
  destruct (parseUtility st) as [[[] | e | c l] st1]; simpl in H1 |- *; try exact H1.
  destruct (respects_parseOptions st1) as [H2 _].
  destruct (parseOptions st1) as [[[] | e | c l] st2]; simpl in H2 |- *;
    try (eapply R_trans; eassumption).
  destruct (respects_parseOperands st2) as [H3 _].
  destruct (parseOperands st2) as [[[] | e | c l] st3]; simpl in H3 |- *;
    try (eapply R_trans; [eassumption |]; eapply R_trans; eassumption).
  destruct (respects_parseTerminator st3) as [H4 _].
  assert (H04 : R st (snd (parseTerminator st3))).
  { eapply R_trans; [eassumption |]. eapply R_trans; [eassumption |].
    eapply R_trans; eassumption. }
  destruct (parseTerminator st3) as [[[] | e | c l] st4]; simpl in H04 |- *;
    try exact H04.
  unfold checkEnd. destruct (it st4); simpl; [| exact H04].
  unfold checkRequired.
  destruct (checkRequired_in (self st4) (options_ (self st4))); simpl;
    [exact H04 |].
  destruct (checkRequired_in (self st4) (operands_ (self st4))); simpl;
    exact H04.
Qed.
End Respects.

Lemma staged_done ptr a : staged (done ptr a).
Proof. intros R E ? ? ? ? ? ? ? ? ? ? ? ?. now apply respects_done. Qed.

Lemma staged_parseUtility : staged parseUtility.
Proof. intros R E ? ? ? ? ? ? ? ? ? ? ? ?. now apply respects_parseUtility. Qed.

Lemma staged_parseTerminator : staged parseTerminator.
Proof. intros R E ? ? ? ? ? ? ? ? ? ? ? ?. now apply respects_parseTerminator. Qed.

Lemma staged_parseLongOption : staged parseLongOption.
Proof. intros R E ? ? ? ? ? ? ? ? ? ? ? ?. now apply respects_parseLongOption. Qed.

Lemma staged_parseShortOptions : staged parseShortOptions.
Proof. intros R E ? ? ? ? ? ? ? ? ? ? ? ?. now apply respects_parseShortOptions. Qed.

Lemma staged_parseOptions : staged parseOptions.
Proof. intros R E ? ? ? ? ? ? ? ? ? ? ? ?. now apply respects_parseOptions. Qed.

Lemma staged_parseOperands : staged parseOperands.
Proof. intros R E ? ? ? ? ? ? ? ? ? ? ? ?. now apply respects_parseOperands. Qed.

(** ** The cursor only advances *)

Lemma cursor_respected {A} (m : M A) :
  staged m ->
  forall st, cursor_le st (snd (m st)).
Proof.
  intros H st.
  apply (H cursor_le (fun _ => True)); unfold cursor_le; try tauto.
  - intros; lia.
  - intros; lia.
  - intros; simpl; lia.
  - intros st0 t rest Hit. rewrite Hit. simpl. lia.
  - intros st0 [i | i]; simpl; lia.
  - intros; simpl; lia.
  - intros; simpl; lia.
Qed.

Lemma cursor_parseTerminator st : cursor_le st (snd (parseTerminator st)).
Proof. apply cursor_respected, staged_parseTerminator. Qed.

Lemma cursor_parseLongOption st : cursor_le st (snd (parseLongOption st)).
Proof. apply cursor_respected, staged_parseLongOption. Qed.

Lemma cursor_parseShortOptions st : cursor_le st (snd (parseShortOptions st)).
Proof. apply cursor_respected, staged_parseShortOptions. Qed.

Lemma cursor_doParse a s st : it (snd (doParse a s st)) = it st.
Proof.
  unfold doParse.
  destruct (derived a) as [| t | T t d | T t]; try reflexivity;
    destruct (fromString T s); reflexivity.
Qed.

Lemma cursor_done ptr a st : it (snd (done ptr a st)) = it st.
Proof.
  unfold done, bind, doDone.
  destruct (derived a); simpl; destruct ptr; reflexivity.
Qed.

(** ** Loops: fuel above the number of remaining tokens is enough *)

Lemma loop_S (fuel : nat) (body : M bool) (st : State) :
  loop (S fuel) body st
  = match body st with
    | (Ok true, st') => loop fuel body st'
    | (Ok false, st') => (Ok tt, st')
    | (Error e, st') => (Error e, st')
    | (Signal c l, st') => (Signal c l, st')
    end.
Proof.
  simpl. unfold bind. destruct (body st) as [[[|] | e | c l] st']; reflexivity.
Qed.

Lemma loop_fuel (body : M bool) :
  (forall st st', body st = (Ok true, st') -> length (it st') < length (it st)) ->
  forall n m st,
    length (it st) < n -> length (it st) < m ->
    loop n body st = loop m body st.
Proof.
  intros Hdec n. induction n as [| n IH]; intros m st Hn Hm; [lia |].
  destruct m as [| m]; [lia |].
  rewrite !loop_S.
  destruct (body st) as [[[|] | e | c l] st'] eqn:Hb; try reflexivity.
  apply Hdec in Hb. apply IH; lia.
Qed.

Lemma moved_lt (old : list string) (st : State) :
  length (it st) <= length old -> moved old st = true ->
  length (it st) < length old.
Proof.
  unfold moved. intros Hle H.
  destruct (Nat.eqb_spec (length (it st)) (length old)); [discriminate | lia].
Qed.

Lemma parseOptions_body_advances st st' :
  parseOptions_body st = (Ok true, st') -> length (it st') < length (it st).
Proof.
  unfold parseOptions_body, bind.
  pose proof (cursor_parseTerminator st) as H1.
  destruct (parseTerminator st) as [[[] | e | c l] st1]; try discriminate.
  unfold cursor_le in H1. simpl in H1.
  destruct (moved (it st) st1) eqn:M1; [discriminate |].
  pose proof (cursor_parseLongOption st1) as H2.
  destruct (parseLongOption st1) as [[[] | e | c l] st2]; try discriminate.
  unfold cursor_le in H2. simpl in H2.
  destruct (moved (it st) st2) eqn:M2.
  { intros [= <-]. apply moved_lt; [lia | exact M2]. }
  pose proof (cursor_parseShortOptions st2) as H3.
  destruct (parseShortOptions st2) as [[[] | e | c l] st3]; try discriminate.
  unfold cursor_le in H3. simpl in H3.
  destruct (moved (it st) st3) eqn:M3; [| discriminate].
  intros [= <-]. apply moved_lt; [lia | exact M3].
Qed.

Lemma parseOperandContent_body_advances ptr operand st st' :
  parseOperandContent_body ptr operand st = (Ok true, st') ->
  length (it st') < length (it st).
Proof.
  unfold parseOperandContent_body, bind.
  pose proof (cursor_parseTerminator st) as H1.
  destruct (parseTerminator st) as [[[] | e | c l] st1]; try discriminate.
  unfold cursor_le in H1. simpl in H1.
  destruct (it st1) as [| t rest] eqn:Hit; [discriminate |].
  destruct (predictLongOption st1 || predictShortOption st1); [discriminate |].
  unfold parse_arg.
  pose proof (cursor_doParse operand t (set_it rest st1)) as H2.
  destruct (doParse operand t (set_it rest st1)) as [[[] | e | c l] st2];
    try discriminate.
  pose proof (cursor_done ptr operand st2) as H3.
  destruct (done ptr operand st2) as [[[] | e | c l] st3]; try discriminate.
  unfold ret. intros [= _ <-].
  simpl in H2, H3, H1. rewrite H3, H2. simpl. lia.
Qed.

(** The options stage is one pass of its body, followed by the stage
    again when the pass says [continue]. *)
Lemma parseOptions_unroll (st : State) :
  parseOptions st
  = bind parseOptions_body
      (fun again => if again then parseOptions else ret tt) st.
Proof.
  unfold parseOptions at 1. rewrite loop_S. unfold bind.
  destruct (parseOptions_body st) as [[[|] | e | c l] st'] eqn:Hb;
    try reflexivity.
  unfold parseOptions. apply parseOptions_body_advances in Hb.
  apply loop_fuel; [apply parseOptions_body_advances | lia | lia].
Qed.

Lemma parseOperandContent_unroll ptr operand (st : State) :
  parseOperandContent ptr operand st
  = bind (parseOperandContent_body ptr operand)
      (fun again => if again then parseOperandContent ptr operand else ret tt) st.
Proof.
  unfold parseOperandContent at 1. rewrite loop_S. unfold bind.
  destruct (parseOperandContent_body ptr operand st)
    as [[[|] | e | c l] st'] eqn:Hb; try reflexivity.
  unfold parseOperandContent. apply parseOperandContent_body_advances in Hb.
  apply loop_fuel; [apply parseOperandContent_body_advances | lia | lia].
Qed.

(** ** The monad laws used below *)

Lemma bind_assoc {A B C} (m : M A) (k : A -> M B) (h : B -> M C) (st : State) :
  bind (bind m k) h st = bind m (fun a => bind (k a) h) st.
Proof.
  unfold bind. destruct (m st) as [[a | e | c l] st1]; reflexivity.
Qed.

(** ** Terminator and option prediction on the token under the cursor *)

Lemma parseTerminator_spec (st : State) (t : string) (rest : list string) :
  it st = t :: rest ->
  parseTerminator st
  = if is_terminator (self st) t
    then (Ok tt, set_it rest (terminate st))
    else (Ok tt, st).
Proof.
  intros Hit. unfold parseTerminator, is_terminator, terminate. rewrite Hit.
  destruct (isTerminated_ (self st)); [reflexivity |].
  destruct (Nat.eqb (size (terminator_ (self st))) 0); [reflexivity |].
  destruct (String.eqb t (terminator_ (self st))); reflexivity.
Qed.

Lemma parseTerminator_terminated (st : State) :
  isTerminated_ (self st) = true -> parseTerminator st = (Ok tt, st).
Proof.
  intros H. unfold parseTerminator. rewrite H.
  destruct (it st); reflexivity.
Qed.

Lemma predictLongOption_spec (st : State) (t : string) (rest : list string) :
  it st = t :: rest ->
  predictLongOption st
  = negb (isTerminated_ (self st)) && looks_like_long (self st) t.
Proof.
  intros Hit. unfold predictLongOption, looks_like_long. rewrite Hit.
  rewrite !andb_assoc. reflexivity.
Qed.

Lemma predictShortOption_spec (st : State) (t : string) (rest : list string) :
  it st = t :: rest ->
  predictShortOption st
  = negb (isTerminated_ (self st)) && looks_like_short (self st) t.
Proof.
  intros Hit. unfold predictShortOption, looks_like_short. rewrite Hit.
  rewrite !andb_assoc. reflexivity.
Qed.


(** ** The operands stage *)

(** One pass of the operand loop on a token that is neither taken as the
    terminator nor as an option. *)
Lemma parseOperandContent_body_bound ptr operand st t rest :
  it st = t :: rest ->
  is_terminator (self st) t = false ->
  negb (isTerminated_ (self st))
  && (looks_like_long (self st) t || looks_like_short (self st) t) = false ->
  parseOperandContent_body ptr operand st
  = (parse_arg operand t ;; done ptr operand ;; ret (isSink_ operand))
      (set_it rest st).
Proof.
  intros Hit Ht Hp. unfold parseOperandContent_body.
  unfold bind at 1. rewrite (parseTerminator_spec st t rest Hit), Ht, Hit.
  rewrite (predictLongOption_spec st t rest Hit).
  rewrite (predictShortOption_spec st t rest Hit).
  rewrite <- andb_orb_distrib_r, Hp. reflexivity.
Qed.

Lemma parseOperandContent_bound ptr operand st t rest :
  it st = t :: rest ->
  is_terminator (self st) t = false ->
  negb (isTerminated_ (self st))
  && (looks_like_long (self st) t || looks_like_short (self st) t) = false ->
  parseOperandContent ptr operand st
  = (parse_arg operand t ;;
     done ptr operand ;;
     if isSink_ operand then parseOperandContent ptr operand else ret tt)
      (set_it rest st).
Proof.
  intros Hit Ht Hp. rewrite parseOperandContent_unroll.
  unfold bind at 1.
  rewrite (parseOperandContent_body_bound ptr operand st t rest Hit Ht Hp).
  unfold bind.
  destruct (parse_arg operand t (set_it rest st)) as [[[] | e | c l] st1];
    try reflexivity.
  destruct (done ptr operand st1) as [[[] | e | c l] st2]; try reflexivity.
  all: unfold ret; destruct (isSink_ operand); reflexivity.
Qed.






(** ** A parse call keeps what the parser was declared with *)

Lemma map_set_isDone_alter (i : nat) (l : list Arg) :
  map set_isDone (alter set_isDone i l) = map set_isDone l.
Proof.
  revert i. induction l as [| a l IH]; intros [| i]; simpl; try reflexivity.
  f_equal. apply IH.
Qed.

Lemma declaration_respected {A} (m : M A) :
  staged m ->
  forall st, same_declaration st (snd (m st)).
Proof.
  intros H st.
  apply (H same_declaration (fun _ => True)); unfold same_declaration;
    try tauto; try reflexivity.
  - intros a b c H1 H2. congruence.
  - intros st0 [i | i]; unfold declared; simpl;
      rewrite map_set_isDone_alter; reflexivity.
Qed.

Lemma same_declaration_trans (a b c : State) :
  same_declaration a b -> same_declaration b c -> same_declaration a c.
Proof. unfold same_declaration. congruence. Qed.

Lemma declared_operands (p p' : Parser) :
  declared p' = declared p ->
  map set_isDone (operands_ p') = map set_isDone (operands_ p).
Proof. intros H. apply (f_equal operands_) in H. exact H. Qed.

Lemma declared_options (p p' : Parser) :
  declared p' = declared p ->
  map set_isDone (options_ p') = map set_isDone (options_ p).
Proof. intros H. apply (f_equal options_) in H. exact H. Qed.

Lemma last_is_sink_map (l : list Arg) :
  last_is_sink (map set_isDone l) = last_is_sink l.
Proof.
  induction l as [| a [| b r] IH]; try reflexivity.
  exact IH.
Qed.

(** ** A sink takes every token that is left *)

Lemma parseOperandContent_body_break ptr operand st st' :
  isSink_ operand = true ->
  parseOperandContent_body ptr operand st = (Ok false, st') ->
  it st' = [].
Proof.
  intros Hs. unfold parseOperandContent_body, bind.
  destruct (parseTerminator st) as [[[] | e | c l] st1]; try discriminate.
  destruct (it st1) as [| t rest] eqn:Hit.
  { intros [= <-]. exact Hit. }
  destruct (predictLongOption st1 || predictShortOption st1); [discriminate |].
  destruct (parse_arg operand t (set_it rest st1)) as [[[] | e | c l] st2];
    try discriminate.
  destruct (done ptr operand st2) as [[[] | e | c l] st3]; try discriminate.
  unfold ret. rewrite Hs. discriminate.
Qed.

Lemma parseOperandContent_sink ptr operand :
  isSink_ operand = true ->
  forall n st st',
    length (it st) <= n ->
    parseOperandContent ptr operand st = (Ok tt, st') ->
    it st' = [].
Proof.
  intros Hs n. induction n as [| n IH]; intros st st' Hn;
    rewrite parseOperandContent_unroll; unfold bind;
    destruct (parseOperandContent_body ptr operand st)
      as [[[|] | e | c l] st1] eqn:Hb; try discriminate.
  - apply parseOperandContent_body_advances in Hb. lia.
  - unfold ret. intros [= <-].
    exact (parseOperandContent_body_break ptr operand st st1 Hs Hb).
  - apply parseOperandContent_body_advances in Hb.
    apply IH. lia.
  - unfold ret. intros [= <-].
    exact (parseOperandContent_body_break ptr operand st st1 Hs Hb).
Qed.

Lemma parseOperands_from_sink (ops : list Arg) :
  last_is_sink ops = true ->
  forall i st st',
    parseOperands_from i ops st = (Ok tt, st') -> it st' = [].
Proof.
  induction ops as [| a [| b r] IH]; intros Hl i st st'.
  - discriminate.
  - simpl in Hl. simpl. unfold bind.
    destruct (parseOperandContent (InOperands i) a st)
      as [[[] | e | c l] st1] eqn:Hp; try discriminate.
    unfold ret. intros [= <-].
    exact (parseOperandContent_sink _ a Hl _ st st1 (le_n _) Hp).
  - change (parseOperands_from i (a :: b :: r))
      with (parseOperandContent (InOperands i) a ;;
            parseOperands_from (S i) (b :: r)).
    unfold bind.
    destruct (parseOperandContent (InOperands i) a st)
      as [[[] | e | c l] st1]; try discriminate.
    apply (IH Hl).
Qed.

(** ** No message of the stages before the end check is an end error *)

Lemma fromString_error_not_end (T : Payload) (s e : string) :
  fromString T s = Error e -> ~ end_error e.
Proof.
  destruct T as [sg w | | f | U]; [| discriminate | |].
  2, 3: unfold fromString; intros H [t Ht];
    match type of H with context [fromString_stream ?V ?t] =>
      destruct (fromString_stream_cases V t) as [[x Hx] | Hx]; rewrite Hx in H
    end; [discriminate H | injection H as <-; discriminate Ht].
  unfold fromString, fromString_int, toLongest.
  intros H [t Ht].
  destruct sg.
  - destruct (stoll s (base_of s)) as [v p | |];
      try (injection H as <-; discriminate Ht).
    destruct (Nat.eqb p (size s) && _ && _);
      [discriminate | injection H as <-; discriminate Ht].
  - destruct (contains "-" s); [injection H as <-; discriminate Ht |].
    destruct (stoull s (base_of s)) as [v p | |];
      try (injection H as <-; discriminate Ht).
    destruct (Nat.eqb p (size s) && _ && _);
      [discriminate | injection H as <-; discriminate Ht].
Qed.

Lemma stage_errors_respected {A} (m : M A) :
  staged m ->
  forall st e, fst (m st) = Error e -> ~ end_error e.
Proof.
  intros H st.
  apply (H (fun _ _ => True) (fun e => ~ end_error e)); try tauto.
  - apply fromString_error_not_end.
  - intros n [t Ht]. discriminate Ht.
  - intros n [t Ht]. discriminate Ht.
  - intros n [t Ht]. discriminate Ht.
  - intros n [t Ht]. discriminate Ht.
Qed.

Lemma checkRequired_not_end (p : Parser) (args : list Arg) (e : string) :
  checkRequired_in p args = Some e -> ~ end_error e.
Proof.
  induction args as [| a r IH]; simpl; [discriminate |].
  destruct (isRequired_ a && negb (isDone_ a)); [| exact IH].
  intros [= <-] [t Ht]. discriminate Ht.
Qed.

(** C10: when the operand declared last is a sink, the operands stage
    returns only with the cursor at the end of the input, and no parse
    of any token sequence fails with the [Unexpected argument] error of
    the end check. *)
Theorem C10_sink_exhausts_input :
  (forall st st',
     last_is_sink (operands_ (self st)) = true ->
     parseOperands st = (Ok tt, st') -> it st' = [])
  /\ (forall st t,
        last_is_sink (operands_ (self st)) = true ->
        fst (parseAll st) <> Error ("Unexpected argument: " +++ t))
  /\ (forall p m argv t,
        last_is_sink (operands_ p) = true ->
        fst (parse p m argv) <> Error ("Unexpected argument: " +++ t)).
Proof.
  assert (Hops : forall st st',
     last_is_sink (operands_ (self st)) = true ->
     parseOperands st = (Ok tt, st') -> it st' = []).
  { intros st st' Hl. unfold parseOperands.
    apply parseOperands_from_sink. exact Hl. }
  assert (Hall : forall st t,
     last_is_sink (operands_ (self st)) = true ->
     fst (parseAll st) <> Error ("Unexpected argument: " +++ t)).
  { intros st t Hl Hfail.
    assert (Hend : end_error ("Unexpected argument: " +++ t)) by (exists t; reflexivity).
    revert Hfail. unfold parseAll. unfold bind at 1.
    pose proof (stage_errors_respected _ staged_parseUtility st) as E1.
    pose proof (declaration_respected _ staged_parseUtility st) as D1.
    destruct (parseUtility st) as [[[] | e | c l] st1]; simpl in E1, D1;
      [| intros [= ->]; exact (E1 _ eq_refl Hend) | discriminate].
    unfold bind at 1.
    pose proof (stage_errors_respected _ staged_parseOptions st1) as E2.
    pose proof (declaration_respected _ staged_parseOptions st1) as D2.
    destruct (parseOptions st1) as [[[] | e | c l] st2]; simpl in E2, D2;
      [| intros [= ->]; exact (E2 _ eq_refl Hend) | discriminate].
    unfold bind at 1.
    pose proof (stage_errors_respected _ staged_parseOperands st2) as E3.
    assert (Hl2 : last_is_sink (operands_ (self st2)) = true).
    { pose proof (same_declaration_trans _ _ _ D1 D2) as D.
      apply declared_operands in D.
      rewrite <- last_is_sink_map, D, last_is_sink_map. exact Hl. }
    pose proof (Hops st2) as H3.
    destruct (parseOperands st2) as [[[] | e | c l] st3]; simpl in E3;
      [| intros [= ->]; exact (E3 _ eq_refl Hend) | discriminate].
    specialize (H3 st3 Hl2 eq_refl).
    unfold bind at 1.
    assert (Ht : parseTerminator st3 = (Ok tt, st3)).
    { unfold parseTerminator. rewrite H3. reflexivity. }
    rewrite Ht. unfold bind at 1. unfold checkEnd at 1. rewrite H3.
    unfold bind, checkRequired.
    destruct (checkRequired_in (self st3) (options_ (self st3))) as [e |] eqn:R1.
    { simpl. intros [= ->]. exact (checkRequired_not_end _ _ _ R1 Hend). }
    destruct (checkRequired_in (self st3) (operands_ (self st3))) as [e |] eqn:R2.
    { simpl. intros [= ->]. exact (checkRequired_not_end _ _ _ R2 Hend). }
    discriminate. }
  split; [exact Hops |]. split; [exact Hall |].
  intros p m argv t Hl. unfold parse. apply Hall. exact Hl.
Qed.

Lemma C10_sink_exhausts_input_witness :
  last_is_sink (operands_ sink_parser) = true
  /\ fst (parse sink_parser sink_mem ["prog"; "A"; "--"; "-B"; "--"])
     <> Error ("Unexpected argument: " +++ "--").
Proof.
  split; [reflexivity |].
  apply (proj2 (proj2 C10_sink_exhausts_input)). reflexivity.
Defined.

(** ** Writes to caller variables are never undone *)

Lemma replay_app (h1 h2 : list (nat * Slot)) (m : Mem) :
  replay (h1 ++ h2) m = replay h2 (replay h1 m).
Proof. unfold replay. apply fold_left_app. Qed.





(** ** The glossary reads only what the parser was declared with *)

Lemma hasAnyShortName_map (args : list Arg) :
  hasAnyShortName (map set_isDone args) = hasAnyShortName args.
Proof.
  induction args as [| a r IH]; simpl; [reflexivity |].
  rewrite IH. reflexivity.
Qed.

Lemma writeGlossary_declared (p : Parser) (title : string) (args : list Arg) :
  writeGlossary p title args
  = writeGlossary (declared p) title (map set_isDone args).
Proof.
  unfold writeGlossary.
  rewrite length_map, hasAnyShortName_map.
  assert (He : map (makeEntry (declared p) (hasAnyShortName args))
                 (map set_isDone args)
               = map (makeEntry p (hasAnyShortName args)) args)
    by (rewrite map_map; reflexivity).
  rewrite He. reflexivity.
Qed.

Lemma writeGlossary_same_declaration (p p' : Parser) (title : string) :
  declared p' = declared p ->
  writeGlossary p' title (options_ p') = writeGlossary p title (options_ p)
  /\ writeGlossary p' title (operands_ p') = writeGlossary p title (operands_ p).
Proof.
  intros H.
  rewrite (writeGlossary_declared p'), (writeGlossary_declared p).
  rewrite (writeGlossary_declared p' title (operands_ p')).
  rewrite (writeGlossary_declared p title (operands_ p)).
  rewrite (declared_options _ _ H), (declared_operands _ _ H), H.
  split; reflexivity.
Qed.

Lemma parseAll_same_declaration (st : State) :
  same_declaration st (snd (parseAll st)).
Proof.
  apply (parseAll_related same_declaration (fun _ => True));
    unfold same_declaration; try tauto; try reflexivity.
  - intros a b c H1 H2. congruence.
  - intros st0 [i | i]; unfold declared; simpl;
      rewrite map_set_isDone_alter; reflexivity.
Qed.

Lemma size_nonzero (s : string) :
  s <> EmptyString -> negb (Nat.eqb (size s) 0) = true.
Proof. destruct s; [congruence | reflexivity]. Qed.

(** C7 (as amended): for an optional value argument, when the default
    label is non-empty and the rendered value is non-empty, the glossary
    appends the token [(label X)] to the description, where [X] is the
    codec rendering of the copy of the target that the argument took
    when it was declared; the glossary is the same before and after a
    parse, whatever the parse wrote to the target. *)
Theorem C7_default_suffix :
  (forall p a T target d,
     derived a = DValue T target d ->
     isRequired_ a = false ->
     defaultIntro_ p <> EmptyString ->
     toString T d <> EmptyString ->
     entryDescription p a
     = tokenize (description_ a)
       ++ ["(" +++ defaultIntro_ p +++ toString T d +++ ")"])
  /\ (forall T m target c l vn ds req p,
        last (options_ (addOption T m target c l vn ds req p))
        = Some (ValueArg T c l vn ds req target (read_value T m target)))
  /\ (forall T m target vn ds req p,
        last (operands_ (addOperand T m target vn ds req p))
        = Some (ValueArg T zero EmptyString vn ds req target
                  (read_value T m target)))
  /\ (forall st title,
        writeGlossary (self (snd (parseAll st))) title
          (options_ (self (snd (parseAll st))))
        = writeGlossary (self st) title (options_ (self st))
        /\ writeGlossary (self (snd (parseAll st))) title
             (operands_ (self (snd (parseAll st))))
           = writeGlossary (self st) title (operands_ (self st))).
Proof.
  split.
  { intros p a T target d Hd Hr Hi Hv.
    unfold entryDescription, getDefaultValue, doGetDefaultValue.
    rewrite Hd, Hr, (size_nonzero _ Hi), (size_nonzero _ Hv). reflexivity. }
  split.
  { intros. unfold addOption. simpl. apply last_snoc. }
  split.
  { intros. unfold addOperand. simpl. apply last_snoc. }
  intros st title.
  apply writeGlossary_same_declaration, parseAll_same_declaration.
Qed.

Lemma C7_default_suffix_witness :
  entryDescription (newParser EmptyString EmptyString)
    (ValueArg (PInt true W32) "i" "iii" "N" "A number." false 2 (VInt 1))
  = ["A"; "number."; "(default: 1)"].
Proof.
  apply (proj1 C7_default_suffix (newParser EmptyString EmptyString)
           (ValueArg (PInt true W32) "i" "iii" "N" "A number." false 2 (VInt 1))
           (PInt true W32) 2 (VInt 1)).
  - reflexivity.
  - reflexivity.
  - discriminate.
  - vm_compute. discriminate.
Defined.

(** After [-i 5] the target holds 5, and the glossary still shows the
    value 1 that it held at declaration. *)
Lemma C7_current_value_counterexample :
  let st' := snd (parse value_parser value_mem ["prog"; "-i"; "5"]) in
  let a := set_isDone
             (ValueArg (PInt true W32) "i" "iii" EmptyString EmptyString false 2
                (VInt 1)) in
  options_ (self st') !! 2 = Some a
  /\ mem st' !! 2 = Some (SValue (VInt 5))
  /\ entryDescription (self st') a = ["(default: 1)"]
  /\ entryDescription (self st') a
     <> tokenize (description_ a)
        ++ ["(" +++ defaultIntro_ (self st')
            +++ toString (PInt true W32)
                  (read_value (PInt true W32) (mem st') 2) +++ ")"].
Proof.
  vm_compute. repeat split; try reflexivity. discriminate.
Qed.

(** ** Looking options up *)

Lemma find_from_map (f : Arg -> bool) (l : list Arg) :
  (forall a, f (set_isDone a) = f a) ->
  forall i,
    find_from f i (map set_isDone l)
    = match find_from f i l with
      | Some (k, a) => Some (k, set_isDone a)
      | None => None
      end.
Proof.
  intros Hf. induction l as [| a r IH]; intros i; simpl; [reflexivity |].
  rewrite Hf. destruct (f a); [reflexivity | apply IH].
Qed.

(** Two lists of options that were declared alike answer a lookup by
    name with the same index and with arguments that differ at most in
    their [isDone_] flag. *)
Lemma find_from_same (f : Arg -> bool) (l l' : list Arg) (i : nat) (a : Arg) :
  (forall a, f (set_isDone a) = f a) ->
  map set_isDone l' = map set_isDone l ->
  find_from f 0 l = Some (i, a) ->
  exists a', find_from f 0 l' = Some (i, a') /\ set_isDone a' = set_isDone a.
Proof.
  intros Hf Hm Hl.
  pose proof (find_from_map f l Hf 0) as H1.
  pose proof (find_from_map f l' Hf 0) as H2.
  rewrite Hm, H1, Hl in H2.
  destruct (find_from f 0 l') as [[k a'] |]; [| discriminate].
  assert (Hk : k = i) by congruence.
  assert (E : set_isDone a' = set_isDone a) by congruence.
  subst k. exists a'. split; [reflexivity | exact E].
Qed.

Lemma set_isDone_fields (a a' : Arg) :
  set_isDone a' = set_isDone a ->
  shortName_ a' = shortName_ a /\ longName_ a' = longName_ a
  /\ hasValue_ a' = hasValue_ a /\ derived a' = derived a.
Proof.
  intros H.
  repeat split;
    [ apply (f_equal shortName_) in H | apply (f_equal longName_) in H
    | apply (f_equal hasValue_) in H | apply (f_equal derived) in H ];
    exact H.
Qed.

Lemma plain_flags_map (l : list Arg) (flags : string) :
  plain_flags (map set_isDone l) flags = plain_flags l flags.
Proof.
  induction flags as [| ch r IH]; simpl; [reflexivity |].
  rewrite find_from_map by reflexivity.
  destruct (find_from _ 0 l) as [[k a] |]; [| reflexivity].
  rewrite IH. reflexivity.
Qed.

(** ** Signals *)

Lemma done_signal ptr a st :
  derived a = DSignal ->
  done ptr a st = (Signal (shortName_ a) (longName_ a), st).
Proof. intros H. unfold done, bind, doDone. rewrite H. reflexivity. Qed.

Lemma getOption_found name i a st :
  name <> EmptyString ->
  find_from (fun o => String.eqb (longName_ o) name) 0 (options_ (self st))
  = Some (i, a) ->
  getOption name st = (Ok (InOptions i, a), st).
Proof.
  intros Hn Hf. unfold getOption.
  destruct name; [congruence |]. simpl Nat.eqb. cbv iota.
  rewrite Hf. reflexivity.
Qed.

Lemma getOption_char_found c i a st :
  c <> zero ->
  find_from (fun o => Ascii.eqb (shortName_ o) c) 0 (options_ (self st))
  = Some (i, a) ->
  getOption_char c st = (Ok (InOptions i, a), st).
Proof.
  intros Hc Hf. unfold getOption_char.
  destruct (Ascii.eqb_spec c zero); [congruence |].
  rewrite Hf. reflexivity.
Qed.

Lemma parseOptions_body_not_terminator st t rest :
  it st = t :: rest ->
  is_terminator (self st) t = false ->
  parseOptions_body st
  = (parseLongOption ;;
     fun st2 =>
       if moved (it st) st2 then (Ok true, st2)
       else
         (parseShortOptions ;;
          fun st3 =>
            if moved (it st) st3 then (Ok true, st3)
            else (Ok false, st3)) st2) st.
Proof.
  intros Hit Ht. unfold parseOptions_body.
  unfold bind at 1. rewrite (parseTerminator_spec st t rest Hit), Ht.
  unfold moved at 1. rewrite Nat.eqb_refl. reflexivity.
Qed.

Lemma parseLongOption_not_predicted st :
  predictLongOption st = false -> parseLongOption st = (Ok tt, st).
Proof. intros H. unfold parseLongOption. rewrite H. reflexivity. Qed.

Lemma parseLongOption_signal st token rest name i a :
  it st = token :: rest ->
  predictLongOption st = true ->
  find_split (longSeparator_ (self st))
    (str_drop (size (longPrefix_ (self st))) token) = (name, None) ->
  name <> EmptyString ->
  find_from (fun o => String.eqb (longName_ o) name) 0 (options_ (self st))
  = Some (i, a) ->
  derived a = DSignal -> hasValue_ a = false ->
  parseLongOption st = (Signal (shortName_ a) (longName_ a), set_it rest st).
Proof.
  intros Hit Hp Hs Hn Hf Hd Hv. unfold parseLongOption.
  rewrite Hp, Hit. cbn [negb]. rewrite Hs.
  unfold bind at 1.
  rewrite (getOption_found name i a (set_it rest st) Hn Hf).
  rewrite Hv. unfold bind at 1. unfold ret.
  apply done_signal. exact Hd.
Qed.

Lemma parseShortNames_signal token c more st i a :
  c <> zero ->
  find_from (fun o => Ascii.eqb (shortName_ o) c) 0 (options_ (self st))
  = Some (i, a) ->
  derived a = DSignal -> hasValue_ a = false ->
  parseShortNames token (String c more) st
  = (Signal (shortName_ a) (longName_ a), st).
Proof.
  intros Hc Hf Hd Hv. cbn [parseShortNames]. unfold bind at 1.
  rewrite (getOption_char_found c i a st Hc Hf), Hv.
  unfold bind. rewrite (done_signal _ a st Hd). reflexivity.
Qed.

(** The walk over a cluster passes flags that take no value and are no
    signals, and leaves the parser declared as it was. *)
Lemma parseShortNames_flags token (flags : string) :
  forall names st,
    plain_flags (options_ (self st)) flags = true ->
    exists st1,
      parseShortNames token (flags +++ names) st
      = parseShortNames token names st1
      /\ same_declaration st st1 /\ it st1 = it st.
Proof.
  induction flags as [| ch r IH]; intros names st Hp.
  - exists st. repeat split; reflexivity.
  - cbn [plain_flags] in Hp.
    destruct (Ascii.eqb_spec ch zero) as [| Hch]; [discriminate |].
    destruct (find_from _ 0 (options_ (self st))) as [[i a] |] eqn:Hf;
      [| discriminate].
    cbn [negb andb] in Hp.
    destruct (hasValue_ a) eqn:Hv; [discriminate |].
    destruct (is_signal a) eqn:Hs; [discriminate |].
    cbn [negb andb] in Hp.
    change (String ch r +++ names) with (String ch (r +++ names)).
    cbn [parseShortNames]. unfold bind at 1.
    rewrite (getOption_char_found ch i a st Hch Hf), Hv.
    pose proof (declaration_respected _ (staged_done (InOptions i) a) st) as Hd.
    pose proof (cursor_done (InOptions i) a st) as Hc.
    unfold bind at 1.
    destruct (done (InOptions i) a st) as [[[] | e | c l] st0] eqn:Hdone.
    + simpl in Hd, Hc.
      assert (Hp0 : plain_flags (options_ (self st0)) r = true).
      { rewrite <- plain_flags_map, (declared_options _ _ Hd), plain_flags_map.
        exact Hp. }
      destruct (IH names st0 Hp0) as (st1 & E & D & C).
      exists st1. split; [exact E |]. split.
      * eapply same_declaration_trans; eassumption.
      * congruence.
    + exfalso. unfold done, bind, doDone, is_signal in *.
      destruct (derived a); discriminate.
    + exfalso. unfold done, bind, doDone, is_signal in *.
      destruct (derived a); discriminate.
Qed.

Lemma parseOptions_signal st c l st' :
  parseOptions_body st = (Signal c l, st') -> parseOptions st = (Signal c l, st').
Proof.
  intros H. rewrite parseOptions_unroll. unfold bind. rewrite H. reflexivity.
Qed.

Lemma parseUtility_ok st : fst (parseUtility st) = Ok tt.
Proof. unfold parseUtility. destruct (it st); reflexivity. Qed.

(** C4: a signal argument that is marked done in the options stage, by
    its long name or at any place of a cluster of short flags, ends the
    parse there with a [Signal] that carries its short and long name;
    the options stage goes on from the state that a pass left, so this
    holds at every pass; a [Signal] is no [Error]; and none of the later
    stages runs, the required check included.  (A long token that merges
    a value after the name of a signal is rejected before the signal is
    marked done.) *)
Theorem C4_signal_aborts :
  (forall st token rest name i a,
     it st = token :: rest ->
     is_terminator (self st) token = false ->
     predictLongOption st = true ->
     find_split (longSeparator_ (self st))
       (str_drop (size (longPrefix_ (self st))) token) = (name, None) ->
     name <> EmptyString ->
     find_from (fun o => String.eqb (longName_ o) name) 0 (options_ (self st))
     = Some (i, a) ->
     derived a = DSignal -> hasValue_ a = false ->
     parseOptions st = (Signal (shortName_ a) (longName_ a), set_it rest st))
  /\ (forall st token rest flags c more i a,
        it st = token :: rest ->
        is_terminator (self st) token = false ->
        predictLongOption st = false ->
        predictShortOption st = true ->
        str_drop 1 token = flags +++ String c more ->
        plain_flags (options_ (self st)) flags = true ->
        c <> zero ->
        find_from (fun o => Ascii.eqb (shortName_ o) c) 0 (options_ (self st))
        = Some (i, a) ->
        derived a = DSignal -> hasValue_ a = false ->
        exists st',
          parseOptions st = (Signal (shortName_ a) (longName_ a), st'))
  /\ (forall st st',
        parseOptions_body st = (Ok true, st') ->
        parseOptions st = parseOptions st')
  /\ (forall st c l st',
        parseOptions (snd (parseUtility st)) = (Signal c l, st') ->
        parseAll st = (Signal c l, st'))
  /\ (forall c l e, @Signal unit c l <> Error e)
  /\ (fst (parse signal_parser signal_mem ["prog"; "-h"]) = Signal "h" "help"
      /\ fst (parse signal_parser signal_mem ["prog"; "--version"])
         = Signal "v" "version"
      /\ fst (parse signal_parser signal_mem ["prog"; "-ah"]) = Signal "h" "help"
      /\ fst (parse signal_parser signal_mem ["prog"])
         = Error "Cannot find required argument: -a"
      /\ fst (parse signal_parser signal_mem ["prog"; "--help=now"])
         = Error "Unexpected option value: --help=now").
Proof.
  split.
  { intros st token rest name i a Hit Ht Hp Hs Hn Hf Hd Hv.
    apply parseOptions_signal.
    rewrite (parseOptions_body_not_terminator st token rest Hit Ht).
    unfold bind.
    rewrite (parseLongOption_signal st token rest name i a Hit Hp Hs Hn Hf Hd Hv).
    reflexivity. }
  split.
  { intros st token rest flags c more i a Hit Ht Hpl Hps Hdrop Hflags Hc Hf Hd Hv.
    destruct (parseShortNames_flags token flags (String c more) (set_it rest st)
                Hflags) as (st1 & E & D & C).
    destruct (find_from_same (fun o => Ascii.eqb (shortName_ o) c)
                (options_ (self st)) (options_ (self st1)) i a
                (fun _ => eq_refl) (declared_options _ _ D) Hf)
      as (a' & Hf' & Ha').
    destruct (set_isDone_fields _ _ Ha') as (Es & El & Ev & Ed).
    exists st1. apply parseOptions_signal.
    rewrite (parseOptions_body_not_terminator st token rest Hit Ht).
    unfold bind at 1. rewrite (parseLongOption_not_predicted st Hpl).
    unfold moved at 1. rewrite Nat.eqb_refl. cbn [negb].
    unfold bind at 1. unfold parseShortOptions.
    rewrite Hps, Hit. cbn [negb]. rewrite Hdrop, E.
    rewrite (parseShortNames_signal token c more st1 i a' Hc Hf');
      [| congruence | congruence].
    rewrite Es, El. reflexivity. }
  split.
  { intros st st' Hb. rewrite parseOptions_unroll. unfold bind.
    rewrite Hb. reflexivity. }
  split.
  { intros st c l st' H. unfold parseAll. unfold bind at 1.
    pose proof (parseUtility_ok st) as Hu.
    destruct (parseUtility st) as [r st1]. simpl in Hu, H. subst r.
    unfold bind at 1. rewrite H. reflexivity. }
  split; [discriminate |].
  vm_compute. repeat split; reflexivity.
Qed.

Lemma C4_signal_aborts_witness :
  parseOptions (mkState signal_parser signal_mem ["--help"; "x"] [])
  = (Signal "h" "help", mkState signal_parser signal_mem ["x"] [])
  /\ exists st',
       parseOptions (mkState signal_parser signal_mem ["-av"; "x"] [])
       = (Signal "v" "version", st').
Proof.
  split.
  - apply (proj1 C4_signal_aborts
             (mkState signal_parser signal_mem ["--help"; "x"] [])
             "--help" ["x"] "help" 0
             (SignalArg "h" "help" EmptyString));
      try reflexivity.
    discriminate.
  - apply (proj1 (proj2 C4_signal_aborts)
             (mkState signal_parser signal_mem ["-av"; "x"] [])
             "-av" ["x"] "a" "v"%char EmptyString 1
             (SignalArg "v" "version" EmptyString));
      try reflexivity.
    discriminate.
Defined.

(** ** Tokens built from a prefix, a name and a value *)

Lemma str_drop_append (p x : string) : str_drop (size p) (p +++ x) = x.
Proof. unfold size. induction p; simpl; [reflexivity | assumption]. Qed.

Lemma starts_with_append (p x : string) : starts_with p (p +++ x) = true.
Proof.
  induction p as [| ch p IH]; simpl; [reflexivity |].
  rewrite Ascii.eqb_refl. exact IH.
Qed.

Lemma find_split_absent (ch : ascii) (l : string) :
  contains ch l = false -> find_split ch l = (l, None).
Proof.
  induction l as [| d r IH]; simpl; [reflexivity |].
  destruct (Ascii.eqb d ch); [discriminate |].
  intros H. rewrite (IH H). reflexivity.
Qed.

Lemma find_split_first (ch : ascii) (l v : string) :
  contains ch l = false -> find_split ch (l +++ String ch v) = (l, Some v).
Proof.
  induction l as [| d r IH]; simpl.
  - rewrite Ascii.eqb_refl. reflexivity.
  - destruct (Ascii.eqb d ch); [discriminate |].
    intros H. rewrite (IH H). reflexivity.
Qed.

Lemma looks_like_long_prefixed (p : Parser) (x : string) :
  longPrefix_ p <> EmptyString -> x <> EmptyString ->
  looks_like_long p (longPrefix_ p +++ x) = true.
Proof.
  intros Hp Hx. unfold looks_like_long.
  rewrite starts_with_append, size_append, (size_nonzero _ Hp).
  destruct x; [congruence |].
  unfold size at 3. simpl String.length.
  destruct (Nat.ltb_spec (size (longPrefix_ p))
              (size (longPrefix_ p) + S (String.length x)));
    [reflexivity | lia].
Qed.

(** ** A value option met in the options stage *)

Lemma cursor_bound ptr a v st :
  it (snd ((parse_arg a v ;; done ptr a) st)) = it st.
Proof.
  unfold bind, parse_arg.
  pose proof (cursor_doParse a v st) as H1.
  destruct (doParse a v st) as [[[] | e | c l] st1]; simpl in H1 |- *;
    try exact H1.
  rewrite cursor_done. exact H1.
Qed.

(** A pass in which the long or the short match consumed tokens is
    followed by the options stage from the state it left, unless the
    match threw. *)
Lemma parseOptions_after_long st t rest :
  it st = t :: rest ->
  is_terminator (self st) t = false ->
  length (it (snd (parseLongOption st))) < length (it st) ->
  parseOptions st = (parseLongOption ;; parseOptions) st.
Proof.
  intros Hit Ht Hlen. rewrite parseOptions_unroll.
  unfold bind at 1.
  rewrite (parseOptions_body_not_terminator st t rest Hit Ht).
  unfold bind.
  destruct (parseLongOption st) as [[[] | e | c l] st2]; try reflexivity.
  simpl in Hlen. unfold moved.
  destruct (Nat.eqb_spec (length (it st2)) (length (it st))); [lia |].
  reflexivity.
Qed.

Lemma parseOptions_after_short st t rest :
  it st = t :: rest ->
  is_terminator (self st) t = false ->
  predictLongOption st = false ->
  length (it (snd (parseShortOptions st))) < length (it st) ->
  parseOptions st = (parseShortOptions ;; parseOptions) st.
Proof.
  intros Hit Ht Hp Hlen. rewrite parseOptions_unroll.
  unfold bind at 1.
  rewrite (parseOptions_body_not_terminator st t rest Hit Ht).
  unfold bind at 1. rewrite (parseLongOption_not_predicted st Hp).
  unfold moved at 1. rewrite Nat.eqb_refl. cbn [negb].
  unfold bind.
  destruct (parseShortOptions st) as [[[] | e | c l] st2]; try reflexivity.
  simpl in Hlen. unfold moved.
  destruct (Nat.eqb_spec (length (it st2)) (length (it st))); [lia |].
  reflexivity.
Qed.

Section Forms.
Variables (st : State) (c : ascii) (l V : string) (i : nat) (a : Arg)
          (rest : list string).
Hypothesis not_terminated : isTerminated_ (self st) = false.
Hypothesis prefix_set : longPrefix_ (self st) <> EmptyString.
Hypothesis long_set : l <> EmptyString.
Hypothesis short_set : c <> zero.
Hypothesis long_plain : contains (longSeparator_ (self st)) l = false.
Hypothesis by_long :
  find_from (fun o => String.eqb (longName_ o) l) 0 (options_ (self st))
  = Some (i, a).
Hypothesis by_short :
  find_from (fun o => Ascii.eqb (shortName_ o) c) 0 (options_ (self st))
  = Some (i, a).
Hypothesis takes_value : hasValue_ a = true.

Lemma form_long_separate :
  is_terminator (self st) (longPrefix_ (self st) +++ l) = false ->
  parseOptions (set_it ((longPrefix_ (self st) +++ l) :: V :: rest) st)
  = ((parse_arg a V ;; done (InOptions i) a) ;; parseOptions) (set_it rest st).
Proof.
  intros Ht.
  set (st0 := set_it ((longPrefix_ (self st) +++ l) :: V :: rest) st).
  assert (Hl : parseLongOption st0
               = (parse_arg a V ;; done (InOptions i) a) (set_it rest st)).
  { unfold parseLongOption.
    rewrite (predictLongOption_spec st0 _ (V :: rest) eq_refl).
    change (self st0) with (self st).
    rewrite not_terminated.
    rewrite (looks_like_long_prefixed (self st) l prefix_set long_set).
    cbn [negb andb].
    change (it st0) with ((longPrefix_ (self st) +++ l) :: V :: rest).
    cbv iota. rewrite str_drop_append, (find_split_absent _ _ long_plain).
    unfold bind at 1.
    rewrite (getOption_found l i a (set_it (V :: rest) st0) long_set by_long).
    rewrite takes_value. reflexivity. }
  rewrite (parseOptions_after_long st0 _ (V :: rest) eq_refl Ht).
  - unfold bind at 1. rewrite Hl. reflexivity.
  - rewrite Hl. rewrite cursor_bound. simpl. lia.
Qed.

Lemma form_long_merged :
  is_terminator (self st)
    (longPrefix_ (self st) +++ l +++ String (longSeparator_ (self st)) V)
  = false ->
  parseOptions
    (set_it
       ((longPrefix_ (self st) +++ l +++ String (longSeparator_ (self st)) V)
        :: rest) st)
  = ((parse_arg a V ;; done (InOptions i) a) ;; parseOptions) (set_it rest st).
Proof.
  intros Ht.
  set (token := longPrefix_ (self st) +++ l
                +++ String (longSeparator_ (self st)) V) in *.
  set (st0 := set_it (token :: rest) st).
  assert (Hne : l +++ String (longSeparator_ (self st)) V <> EmptyString)
    by (destruct l; [congruence | discriminate]).
  assert (Hl : parseLongOption st0
               = (parse_arg a V ;; done (InOptions i) a) (set_it rest st)).
  { unfold parseLongOption.
    rewrite (predictLongOption_spec st0 _ rest eq_refl).
    change (self st0) with (self st).
    unfold token.
    rewrite not_terminated.
    rewrite (looks_like_long_prefixed (self st) _ prefix_set Hne).
    cbn [negb andb].
    change (it st0)
      with ((longPrefix_ (self st) +++ l +++ String (longSeparator_ (self st)) V)
            :: rest).
    cbv iota. rewrite str_drop_append, (find_split_first _ _ _ long_plain).
    unfold bind at 1.
    rewrite (getOption_found l i a (set_it rest st0) long_set by_long).
    rewrite takes_value. reflexivity. }
  rewrite (parseOptions_after_long st0 _ rest eq_refl Ht).
  - unfold bind at 1. rewrite Hl. reflexivity.
  - rewrite Hl. rewrite cursor_bound. simpl. lia.
Qed.

Lemma form_short (v : string) (tokens : list string) :
  let token := String (shortPrefix_ (self st)) (String c v) in
  is_terminator (self st) token = false ->
  looks_like_long (self st) token = false ->
  (match v with
   | String _ _ => parse_arg a v
   | EmptyString => parse_next token a
   end) (set_it tokens st) = parse_arg a V (set_it rest st) ->
  parseOptions (set_it (token :: tokens) st)
  = ((parse_arg a V ;; done (InOptions i) a) ;; parseOptions) (set_it rest st).
Proof.
  intros token Ht Hlong Hv.
  set (st0 := set_it (token :: tokens) st).
  assert (Hp : predictLongOption st0 = false).
  { rewrite (predictLongOption_spec st0 token tokens eq_refl).
    change (self st0) with (self st). rewrite Hlong. apply andb_false_r. }
  assert (Hs : parseShortOptions st0
               = (parse_arg a V ;; done (InOptions i) a) (set_it rest st)).
  { unfold parseShortOptions.
    rewrite (predictShortOption_spec st0 token tokens eq_refl).
    change (self st0) with (self st). rewrite not_terminated.
    unfold looks_like_short, token. cbn [front]. rewrite Ascii.eqb_refl.
    replace (Nat.ltb 1 (size (String (shortPrefix_ (self st)) (String c v)))) with true
      by (unfold size; simpl; reflexivity).
    cbn [negb andb]. change (it st0) with (token :: tokens). cbv iota.
    unfold token. cbn [str_drop parseShortNames].
    unfold bind at 1.
    rewrite (getOption_char_found c i a (set_it tokens st0) short_set by_short).
    rewrite takes_value.
    unfold bind. fold token.
    change (set_it tokens st0) with (set_it tokens st).
    rewrite Hv. reflexivity. }
  rewrite (parseOptions_after_short st0 token tokens eq_refl Ht Hp).
  - unfold bind at 1. rewrite Hs. reflexivity.
  - rewrite Hs. rewrite cursor_bound.
    assert (Hc : length (it (set_it rest st)) <= length tokens).
    { pose proof (f_equal (fun x => length (it (snd x))) Hv) as E.
      cbv beta in E. unfold parse_arg in E. rewrite cursor_doParse in E.
      rewrite <- E. destruct v.
      - unfold parse_next. change (it (set_it tokens st)) with tokens.
        destruct tokens as [| t0 ts]; simpl; [lia |].
        unfold parse_arg. rewrite cursor_doParse. simpl. lia.
      - unfold parse_arg. rewrite cursor_doParse. simpl. lia. }
    simpl. simpl in Hc. lia.
Qed.
End Forms.

(** The options stage on the four ways of writing a value option. *)
Lemma forms_options (st : State) (c : ascii) (l V : string) (i : nat) (a : Arg)
    (rest : list string) :
  let p := self st in
  let short := String (shortPrefix_ p) (String c EmptyString) in
  let long := longPrefix_ p +++ l in
  let long_merged := longPrefix_ p +++ l +++ String (longSeparator_ p) V in
  let short_merged := String (shortPrefix_ p) (String c V) in
  isTerminated_ p = false ->
  longPrefix_ p <> EmptyString -> l <> EmptyString -> c <> zero ->
  contains (longSeparator_ p) l = false ->
  find_from (fun o => String.eqb (longName_ o) l) 0 (options_ p) = Some (i, a) ->
  find_from (fun o => Ascii.eqb (shortName_ o) c) 0 (options_ p) = Some (i, a) ->
  hasValue_ a = true ->
  is_terminator p short = false -> is_terminator p long = false ->
  is_terminator p long_merged = false -> is_terminator p short_merged = false ->
  looks_like_long p short = false -> looks_like_long p short_merged = false ->
  let bound := (parse_arg a V ;; done (InOptions i) a ;; parseOptions)
                 (set_it rest st) in
  parseOptions (set_it (short :: V :: rest) st) = bound
  /\ parseOptions (set_it (long :: V :: rest) st) = bound
  /\ parseOptions (set_it (long_merged :: rest) st) = bound
  /\ (V <> EmptyString ->
      parseOptions (set_it (short_merged :: rest) st) = bound).
Proof.
  intros p short long long_merged short_merged
    Hnt Hlp Hl Hc Hsep Hbl Hbs Hv T1 T2 T3 T4 L1 L2 bound.
  assert (Hb : bound
               = ((parse_arg a V ;; done (InOptions i) a) ;; parseOptions)
                   (set_it rest st))
    by (unfold bound; rewrite bind_assoc; reflexivity).
  rewrite Hb. split; [| split; [| split]].
  - apply (form_short st c V i a rest Hnt Hc Hbs Hv EmptyString (V :: rest));
      [exact T1 | exact L1 | reflexivity].
  - apply (form_long_separate st l V i a rest Hnt Hlp Hl Hsep Hbl Hv). exact T2.
  - apply (form_long_merged st l V i a rest Hnt Hlp Hl Hsep Hbl Hv). exact T3.
  - intros HV.
    apply (form_short st c V i a rest Hnt Hc Hbs Hv V rest);
      [exact T4 | exact L2 |].
    destruct V; [congruence | reflexivity].
Qed.

Lemma parseAll_first_token (st : State) (util : string) (tokens : list string) :
  parseAll (set_it (util :: tokens) st)
  = (parseOptions ;;
     parseOperands ;;
     parseTerminator ;;
     checkEnd ;;
     checkRequired options_ ;;
     checkRequired operands_)
      (set_it tokens
         (set_self
            (if Nat.eqb (size (utilityName_ (self st))) 0
             then setUtilityName util (self st) else self st) st)).
Proof. reflexivity. Qed.

(** C2 (as amended): take a value option that both its short and its
    long name resolve to, a long name free of the separator, and option
    tokens that are neither the terminator nor, for the short ones,
    shaped like a long option.  Then a parse ends in the same outcome
    and the same caller memory whether the value is the token after the
    short name, the token after the long name, or merged after the
    separator of the long form, the empty value included; and for a
    value that is not empty the same holds when it is merged after the
    short name.  In each case the value text is converted and assigned
    in the state that has the tokens of the option behind it. *)
Theorem C2_value_forms (st : State) (c : ascii) (l V util : string) (i : nat)
    (a : Arg) (rest : list string) :
  let p := self st in
  let short := String (shortPrefix_ p) (String c EmptyString) in
  let long := longPrefix_ p +++ l in
  let long_merged := longPrefix_ p +++ l +++ String (longSeparator_ p) V in
  let short_merged := String (shortPrefix_ p) (String c V) in
  isTerminated_ p = false ->
  longPrefix_ p <> EmptyString -> l <> EmptyString -> c <> zero ->
  contains (longSeparator_ p) l = false ->
  find_from (fun o => String.eqb (longName_ o) l) 0 (options_ p) = Some (i, a) ->
  find_from (fun o => Ascii.eqb (shortName_ o) c) 0 (options_ p) = Some (i, a) ->
  hasValue_ a = true ->
  is_terminator p short = false -> is_terminator p long = false ->
  is_terminator p long_merged = false -> is_terminator p short_merged = false ->
  looks_like_long p short = false -> looks_like_long p short_merged = false ->
  let run := fun tokens => parseAll (set_it (util :: tokens ++ rest) st) in
  run [long; V] = run [short; V]
  /\ run [long_merged] = run [short; V]
  /\ (V <> EmptyString -> run [short_merged] = run [short; V])
  /\ parseOptions (set_it (short :: V :: rest) st)
     = (parse_arg a V ;; done (InOptions i) a ;; parseOptions) (set_it rest st).
Proof.
  intros p short long long_merged short_merged
    Hnt Hlp Hl Hc Hsep Hbl Hbs Hv T1 T2 T3 T4 L1 L2 run.
  assert (Hall : forall st1,
    st1 = set_self p st \/ st1 = set_self (setUtilityName util p) st ->
    parseOptions (set_it (long :: V :: rest) st1)
    = parseOptions (set_it (short :: V :: rest) st1)
    /\ parseOptions (set_it (long_merged :: rest) st1)
       = parseOptions (set_it (short :: V :: rest) st1)
    /\ (V <> EmptyString ->
        parseOptions (set_it (short_merged :: rest) st1)
        = parseOptions (set_it (short :: V :: rest) st1))).
  { intros st1 Hst1.
    assert (F : let bound := (parse_arg a V ;; done (InOptions i) a ;; parseOptions)
                               (set_it rest st1) in
                parseOptions (set_it (short :: V :: rest) st1) = bound
                /\ parseOptions (set_it (long :: V :: rest) st1) = bound
                /\ parseOptions (set_it (long_merged :: rest) st1) = bound
                /\ (V <> EmptyString ->
                    parseOptions (set_it (short_merged :: rest) st1) = bound)).
    { destruct Hst1 as [-> | ->].
      - exact (forms_options (set_self p st) c l V i a rest
                 Hnt Hlp Hl Hc Hsep Hbl Hbs Hv T1 T2 T3 T4 L1 L2).
      - exact (forms_options (set_self (setUtilityName util p) st) c l V i a
                 rest Hnt Hlp Hl Hc Hsep Hbl Hbs Hv T1 T2 T3 T4 L1 L2). }
    destruct F as (F1 & F2 & F3 & F4).
    split; [congruence | split; [congruence |]].
    intros HV. rewrite (F4 HV). congruence. }
  assert (Hst1 : forall st1,
    st1 = set_self (if Nat.eqb (size (utilityName_ (self st))) 0
                    then setUtilityName util (self st) else self st) st ->
    st1 = set_self p st \/ st1 = set_self (setUtilityName util p) st).
  { intros st1 ->. fold p. destruct (Nat.eqb (size (utilityName_ p)) 0); tauto. }
  split; [| split; [| split]].
  4: { apply (forms_options st c l V i a rest); assumption. }
  all: unfold run; cbn [app]; rewrite !parseAll_first_token;
    set (st1 := set_self _ st);
    destruct (Hall st1 (Hst1 st1 eq_refl)) as (E1 & E2 & E3).
  - unfold bind at 1 3. rewrite E1. reflexivity.
  - unfold bind at 1 3. rewrite E2. reflexivity.
  - intros HV. unfold bind at 1 3. rewrite (E3 HV). reflexivity.
Qed.

Lemma C2_value_forms_witness :
  parse out_parser out_mem ["prog"; "--out"; "x"]
  = parse out_parser out_mem ["prog"; "-o"; "x"]
  /\ parse out_parser out_mem ["prog"; "--out=x"]
     = parse out_parser out_mem ["prog"; "-o"; "x"]
  /\ parse out_parser out_mem ["prog"; "-ox"]
     = parse out_parser out_mem ["prog"; "-o"; "x"].
Proof.
  destruct (C2_value_forms (mkState out_parser out_mem [] []) "o" "out" "x"
              "prog" 0
              (ValueArg PString "o" "out" "FILE" EmptyString false 0
                 (VString "a")) [])
    as (H1 & H2 & H3 & _); try reflexivity; try discriminate.
  split; [exact H1 | split; [exact H2 | apply H3; discriminate]].
Defined.

(** With the empty value the short name with nothing merged is the bare
    option [-o], which finds no value, while the other two forms assign
    the empty string. *)
Lemma C2_empty_value_counterexample :
  mem (snd (parse out_parser out_mem ["prog"; "-o" +++ EmptyString])) !! 0
  <> mem (snd (parse out_parser out_mem ["prog"; "--out=" +++ EmptyString])) !! 0
  /\ mem (snd (parse out_parser out_mem ["prog"; "--out=" +++ EmptyString])) !! 0
     = mem (snd (parse out_parser out_mem ["prog"; "-o"; EmptyString])) !! 0
  /\ fst (parse out_parser out_mem ["prog"; "-o" +++ EmptyString])
     = Error "Cannot find value for option: -o".
Proof. vm_compute. repeat split; try reflexivity. discriminate. Qed.

(** ** Word wrapping *)

Lemma is_word_not_newline (t : string) :
  is_word t = true -> String.eqb t newline_token = false.
Proof.
  unfold is_word, newline_token. destruct t as [| c r]; [discriminate |].
  cbn [no_blank size String.length Nat.eqb negb andb].
  destruct (Ascii.eqb_spec c newline) as [-> | Hc].
  - rewrite andb_false_r. discriminate.
  - intros _. cbn [String.eqb].
    destruct (Ascii.eqb_spec c newline); [congruence | reflexivity].
Qed.

Lemma is_word_front (t : string) :
  is_word t = true ->
  exists c r, t = String c r /\ Ascii.eqb c newline = false
              /\ Ascii.eqb c " " = false.
Proof.
  unfold is_word. destruct t as [| c r]; [discriminate |].
  cbn [no_blank size String.length Nat.eqb negb andb].
  intros H. exists c, r.
  destruct (Ascii.eqb c " "); [discriminate |].
  destruct (Ascii.eqb c newline); [discriminate |].
  repeat split.
Qed.

Lemma writeWrapped_from_cons (w h : nat) (token : string) (rest : list string)
    (pos gap : nat) :
  writeWrapped_from w h (token :: rest) pos gap
  = if breaks_before w h token pos gap then
      String newline
        (if String.eqb token newline_token
         then writeWrapped_from w h rest 0 h
         else spaces h +++ token +++
              writeWrapped_from w h rest (0 + h + size token) 1)
    else
      spaces gap +++ token +++
      writeWrapped_from w h rest (pos + gap + size token) 1.
Proof. reflexivity. Qed.

Lemma tokenize_from_spaces (n : nat) (s : string) :
  tokenize_from EmptyString (spaces n +++ s) = tokenize_from EmptyString s.
Proof. induction n as [| n IH]; simpl; [reflexivity | exact IH]. Qed.

Lemma tokenize_from_word (word : string) : forall acc s,
  no_blank word = true ->
  tokenize_from acc (word +++ s) = tokenize_from (acc +++ word) s.
Proof.
  induction word as [| c r IH]; intros acc s H.
  - rewrite append_nil_r. reflexivity.
  - cbn [no_blank] in H.
    destruct (Ascii.eqb c " ") eqn:E1; [discriminate |].
    destruct (Ascii.eqb c newline) eqn:E2; [discriminate |].
    cbn [negb andb] in H.
    change (String c r +++ s) with (String c (r +++ s)).
    cbn [tokenize_from]. rewrite E1, E2, (IH _ _ H).
    rewrite append_assoc. reflexivity.
Qed.

Lemma words_app (a b : list string) : words (a ++ b) = words a ++ words b.
Proof.
  induction a as [| t r IH]; simpl; [reflexivity |].
  destruct (String.eqb t newline_token); simpl; rewrite IH; reflexivity.
Qed.

Lemma words_flush (acc : string) :
  acc = EmptyString \/ is_word acc = true -> words (flush acc) = flush acc.
Proof.
  intros [-> | H]; [reflexivity |].
  destruct acc; [reflexivity |].
  cbn [flush words]. rewrite (is_word_not_newline _ H). reflexivity.
Qed.

(** Reading the rendered text back gives the words that were rendered:
    no token is split, dropped or joined to its neighbour. *)
Lemma words_writeWrapped_from (w h : nat) (tokens : list string) :
  forallb is_token tokens = true ->
  forall pos gap acc,
    acc = EmptyString \/ (is_word acc = true /\ 0 < gap) ->
    words (tokenize_from acc (writeWrapped_from w h tokens pos gap))
    = flush acc ++ words tokens.
Proof.
  induction tokens as [| token rest IH]; intros Htok pos gap acc Hacc.
  - cbn [writeWrapped_from tokenize_from words]. rewrite app_nil_r.
    apply words_flush. tauto.
  - cbn [forallb] in Htok. apply andb_true_iff in Htok as [Ht Hrest].
    assert (Hflush : words (flush acc) = flush acc)
      by (apply words_flush; tauto).
    assert (Hword : forall pos' x,
      is_word token = true ->
      words (tokenize_from EmptyString
               (spaces x +++ token +++ writeWrapped_from w h rest pos' 1))
      = token :: words rest).
    { intros pos' x Hw. rewrite tokenize_from_spaces.
      rewrite tokenize_from_word
        by (unfold is_word in Hw; apply andb_true_iff in Hw; tauto).
      rewrite (IH Hrest pos' 1 (EmptyString +++ token)).
      - simpl (EmptyString +++ token).
        destruct (is_word_front _ Hw) as (c & r & -> & _). reflexivity.
      - right. split; [exact Hw | lia]. }
    rewrite writeWrapped_from_cons. unfold breaks_before.
    unfold is_token in Ht.
    destruct (String.eqb token newline_token) eqn:En.
    + cbn [orb]. cbn [tokenize_from]. rewrite Ascii.eqb_refl.
      change (Ascii.eqb newline " ") with false. cbv iota.
      rewrite words_app, Hflush. cbn [words]. rewrite En.
      change (String.eqb newline_token newline_token) with true. cbv iota.
      rewrite (IH Hrest 0 h EmptyString) by tauto. reflexivity.
    + rewrite orb_false_r in Ht. cbn [orb words]. rewrite En.
      destruct (Nat.ltb w (pos + gap + size token) && Nat.ltb h pos).
      * cbn [tokenize_from]. rewrite Ascii.eqb_refl.
        change (Ascii.eqb newline " ") with false. cbv iota.
        rewrite words_app, Hflush.
        change (words (newline_token :: ?x)) with (words x).
        cbn [words].
        change (String.eqb newline_token newline_token) with true. cbv iota.
        rewrite (Hword _ h Ht). reflexivity.
      * destruct Hacc as [-> | [Hw Hg]].
        -- rewrite (Hword _ gap Ht). reflexivity.
        -- destruct gap as [| g]; [lia |].
           change (spaces (S g) +++ ?x) with (String " " (spaces g +++ x)).
           cbn [tokenize_from]. change (Ascii.eqb " " " ") with true. cbv iota.
           rewrite words_app, Hflush, (Hword _ g Ht). reflexivity.
Qed.

Lemma starts_with_spaces_word (gap : nat) (token s : string) :
  is_word token = true ->
  starts_with newline_token (spaces gap +++ token +++ s) = false.
Proof.
  intros H. destruct gap as [| g]; [| reflexivity].
  destruct (is_word_front _ H) as (c & r & -> & Hc & _).
  cbn [spaces String.append starts_with newline_token].
  rewrite Ascii.eqb_sym, Hc. reflexivity.
Qed.

(** C8: the renderer breaks the line before a token exactly when the
    token is an explicit newline, or when the token with its separating
    blanks would pass the width and the column is already past the
    hanging indent.  For every token list and every width, zero
    included, the rendering is defined and reading it back gives the
    same words in the same order; and a word longer than the width is
    written whole, on a fresh line at the hanging indent when the column
    is past the indent and in place otherwise, and the token after it
    goes to the next line once the column has passed the indent. *)
Theorem C8_word_wrapping :
  (forall w h token rest pos gap,
     is_token token = true ->
     starts_with newline_token (writeWrapped_from w h (token :: rest) pos gap)
     = breaks_before w h token pos gap)
  /\ (forall w h token rest pos gap,
        breaks_before w h token pos gap = false ->
        writeWrapped_from w h (token :: rest) pos gap
        = spaces gap +++ token +++
          writeWrapped_from w h rest (pos + gap + size token) 1)
  /\ (forall w h tokens pos,
        forallb is_token tokens = true ->
        words (tokenize (writeWrapped_from w h tokens pos 0)) = words tokens)
  /\ (forall w h token rest pos gap,
        is_word token = true -> w < size token ->
        (h < pos ->
         writeWrapped_from w h (token :: rest) pos gap
         = String newline
             (spaces h +++ token +++
              writeWrapped_from w h rest (h + size token) 1))
        /\ (pos <= h ->
            writeWrapped_from w h (token :: rest) pos gap
            = spaces gap +++ token +++
              writeWrapped_from w h rest (pos + gap + size token) 1)
        /\ (forall next rest' pos',
              rest = next :: rest' -> is_token next = true ->
              size token <= pos' -> h < pos' ->
              starts_with newline_token
                (writeWrapped_from w h rest pos' 1) = true))
  /\ writeHelp
       (addOption_bool 0 "a" EmptyString
          "See Averyveryverylongsingletoken here" false wrap_parser)
     = unlines ["OPTIONS";
                "  -a  See";
                "      Averyveryverylongsingletoken";
                "      here";
                EmptyString]
  /\ writeHelp
       (addOption_bool 0 "a" EmptyString
          "Thisisaverylongtoken Next line ok Anotherverylongtoken" false
          wrap_parser)
     = unlines ["OPTIONS";
                "  -a  Thisisaverylongtoken";
                "      Next line ok";
                "      Anotherverylongtoken";
                EmptyString]
  /\ writeHelp
       (setHelpWidth 0
          (addOption_bool 0 "a" EmptyString "A stupid width." false wrap_parser))
     = unlines ["OPTIONS";
                "  -a  A";
                "      stupid";
                "      width.";
                EmptyString].
Proof.
  split.
  { intros w h token rest pos gap Ht.
    rewrite writeWrapped_from_cons.
    destruct (breaks_before w h token pos gap) eqn:Hb; [reflexivity |].
    unfold breaks_before in Hb. apply orb_false_iff in Hb as [Hn _].
    unfold is_token in Ht. rewrite Hn, orb_false_r in Ht.
    apply starts_with_spaces_word. exact Ht. }
  split.
  { intros w h token rest pos gap Hb.
    rewrite writeWrapped_from_cons, Hb. reflexivity. }
  split.
  { intros w h tokens pos Ht. unfold tokenize.
    rewrite (words_writeWrapped_from w h tokens Ht pos 0 EmptyString) by tauto.
    reflexivity. }
  split.
  { intros w h token rest pos gap Hw Hlong.
    pose proof (is_word_not_newline _ Hw) as Hn.
    split; [| split].
    - intros Hpos. rewrite writeWrapped_from_cons. unfold breaks_before.
      rewrite Hn. cbn [orb].
      destruct (Nat.ltb_spec w (pos + gap + size token)); [| lia].
      destruct (Nat.ltb_spec h pos); [| lia].
      reflexivity.
    - intros Hpos. rewrite writeWrapped_from_cons. unfold breaks_before.
      rewrite Hn. cbn [orb].
      destruct (Nat.ltb_spec h pos); [lia |].
      rewrite andb_false_r. reflexivity.
    - intros next rest' pos' -> Hnext Hpast Hind.
      rewrite writeWrapped_from_cons.
      assert (Hb : breaks_before w h next pos' 1 = true).
      { unfold breaks_before.
        destruct (Nat.ltb_spec w (pos' + 1 + size next)); [| lia].
        destruct (Nat.ltb_spec h pos'); [| lia].
        apply orb_true_r. }
      rewrite Hb. reflexivity. }
  vm_compute. repeat split; reflexivity.
Qed.

Lemma C8_word_wrapping_witness :
  writeWrapped_from 21 6 ["Averyveryverylongsingletoken"; "here"] 9 1
  = String newline
      (spaces 6 +++ "Averyveryverylongsingletoken" +++
       writeWrapped_from 21 6 ["here"] (6 + size "Averyveryverylongsingletoken") 1)
  /\ words (tokenize (writeWrapped_from 0 6 ["A"; "stupid"; "width."] 6 0))
     = words ["A"; "stupid"; "width."].
Proof.
  split.
  - destruct (proj1 (proj2 (proj2 (proj2 C8_word_wrapping))) 21 6
                "Averyveryverylongsingletoken" ["here"] 9 1) as (H & _).
    + reflexivity.
    + unfold size. simpl. lia.
    + apply H. lia.
  - apply (proj1 (proj2 (proj2 C8_word_wrapping))). reflexivity.
Defined.
(** ** The tokens of a text *)

Lemma no_blank_append (a b : string) :
  no_blank (a +++ b) = no_blank a && no_blank b.
Proof.
  induction a as [| c r IH]; [reflexivity |].
  change (String c r +++ b) with (String c (r +++ b)).
  cbn [no_blank]. rewrite IH, !andb_assoc. reflexivity.
Qed.

Lemma is_word_snoc (acc : string) (c : ascii) :
  acc = EmptyString \/ is_word acc = true ->
  Ascii.eqb c " " = false -> Ascii.eqb c newline = false ->
  is_word (acc +++ String c EmptyString) = true.
Proof.
  intros Hacc H1 H2. unfold is_word.
  rewrite size_append, no_blank_append. cbn [size String.length no_blank].
  rewrite H1, H2, Nat.add_1_r. cbn [Nat.eqb negb andb].
  rewrite andb_true_r.
  destruct Hacc as [-> | H]; [reflexivity |].
  unfold is_word in H. apply andb_true_iff in H. tauto.
Qed.

Lemma flush_tokens (acc : string) :
  acc = EmptyString \/ is_word acc = true ->
  forallb is_token (flush acc) = true.
Proof.
  intros [-> | H]; [reflexivity |].
  destruct acc; [reflexivity |].
  cbn [flush forallb]. unfold is_token. rewrite H. reflexivity.
Qed.

Lemma tokenize_from_tokens (text : string) : forall acc,
  acc = EmptyString \/ is_word acc = true ->
  forallb is_token (tokenize_from acc text) = true.
Proof.
  induction text as [| c r IH]; intros acc Hacc; cbn [tokenize_from].
  - apply flush_tokens, Hacc.
  - destruct (Ascii.eqb c " ") eqn:E1.
    + rewrite forallb_app, (flush_tokens _ Hacc). apply IH. tauto.
    + destruct (Ascii.eqb c newline) eqn:E2.
      * rewrite forallb_app, (flush_tokens _ Hacc). cbn [forallb andb].
        change (is_token newline_token) with true. apply IH. tauto.
      * apply IH. right. apply is_word_snoc; assumption.
Qed.

(** X1: every token that [tokenize] returns is a word (not empty, free
    of blanks and newlines) or the one-character newline token; no
    empty token is ever produced, whatever the text. *)
Theorem tokenize_tokens (text : string) :
  forallb is_token (tokenize text) = true.
Proof. apply tokenize_from_tokens. tauto. Qed.

Lemma tokenize_from_append (a : string) : forall acc b,
  tokenize_from acc (a +++ String " " b)
  = tokenize_from acc a ++ tokenize b
  /\ tokenize_from acc (a +++ String newline b)
     = tokenize_from acc a ++ newline_token :: tokenize b.
Proof.
  induction a as [| c r IH]; intros acc b.
  - split; reflexivity.
  - change (String c r +++ ?x) with (String c (r +++ x)).
    cbn [tokenize_from].
    destruct (IH EmptyString b) as [I1 I2].
    destruct (IH (acc +++ String c EmptyString) b) as [J1 J2].
    destruct (Ascii.eqb c " ").
    { rewrite I1, I2, <- !app_assoc. split; reflexivity. }
    destruct (Ascii.eqb c newline).
    { rewrite I1, I2, <- !app_assoc. split; reflexivity. }
    split; assumption.
Qed.

(** X2: a blank or a newline ends the word before it, so the tokens of
    two texts joined by a blank are the tokens of the first followed by
    the tokens of the second, and joined by a newline they have the
    newline token in between. *)
Theorem tokenize_append (a b : string) :
  tokenize (a +++ String " " b) = tokenize a ++ tokenize b
  /\ tokenize (a +++ String newline b)
     = tokenize a ++ newline_token :: tokenize b.
Proof. apply tokenize_from_append. Qed.

Lemma concat_strings_app (a b : list string) :
  concat_strings (a ++ b) = concat_strings a +++ concat_strings b.
Proof.
  induction a as [| s r IH]; [reflexivity |].
  cbn [app concat_strings]. rewrite IH, append_assoc. reflexivity.
Qed.

Lemma concat_strings_flush (acc : string) : concat_strings (flush acc) = acc.
Proof.
  destruct acc; [reflexivity |].
  cbn [flush concat_strings]. apply append_nil_r.
Qed.

Lemma tokenize_from_characters (text : string) : forall acc,
  concat_strings (tokenize_from acc text) = acc +++ strip_spaces text.
Proof.
  induction text as [| c r IH]; intros acc; cbn [tokenize_from strip_spaces].
  - rewrite concat_strings_flush, append_nil_r. reflexivity.
  - destruct (Ascii.eqb c " ") eqn:E1.
    + rewrite concat_strings_app, concat_strings_flush, IH. reflexivity.
    + destruct (Ascii.eqb c newline) eqn:E2.
      * apply Ascii.eqb_eq in E2. subst c.
        rewrite concat_strings_app, concat_strings_flush.
        cbn [concat_strings]. rewrite IH. reflexivity.
      * rewrite IH, append_assoc. reflexivity.
Qed.

(** X3: [tokenize] drops blanks and nothing else: the tokens written one
    after the other are the text without its blanks, each newline kept
    in its place. *)
Theorem tokenize_keeps_characters (text : string) :
  concat_strings (tokenize text) = strip_spaces text.
Proof. apply tokenize_from_characters. Qed.
(** ** The width of the rendered lines *)

Lemma lines_within_append (w : nat) (x : string) : forall col s,
  contains newline x = false ->
  lines_within w col (x +++ s) = lines_within w (col + size x) s.
Proof.
  induction x as [| c r IH]; intros col s H.
  - cbn [size String.length]. rewrite Nat.add_0_r. reflexivity.
  - change (String c r +++ s) with (String c (r +++ s)).
    cbn [contains] in H. cbn [lines_within size String.length].
    destruct (Ascii.eqb c newline); [discriminate |].
    rewrite (IH _ _ H). unfold size. f_equal. lia.
Qed.

Lemma lines_within_newline (w : nat) (x : string) : forall col s,
  lines_within w col (x +++ String newline s)
  = lines_within w col x && lines_within w 0 s.
Proof.
  induction x as [| c r IH]; intros col s.
  - cbn [String.append lines_within]. rewrite Ascii.eqb_refl. reflexivity.
  - change (String c r +++ ?y) with (String c (r +++ y)).
    cbn [lines_within]. destruct (Ascii.eqb c newline).
    + rewrite IH, andb_assoc. reflexivity.
    + apply IH.
Qed.

Lemma contains_newline_spaces (n : nat) : contains newline (spaces n) = false.
Proof. induction n as [| n IH]; [reflexivity | exact IH]. Qed.

Lemma size_spaces (n : nat) : size (spaces n) = n.
Proof.
  induction n as [| n IH]; [reflexivity |].
  cbn [spaces size String.length]. f_equal. exact IH.
Qed.

Lemma no_blank_no_newline (t : string) :
  no_blank t = true -> contains newline t = false.
Proof.
  induction t as [| c r IH]; [reflexivity |].
  cbn [no_blank contains].
  destruct (Ascii.eqb c newline); [rewrite andb_false_r; discriminate |].
  destruct (Ascii.eqb c " "); [discriminate |].
  cbn [negb andb]. exact IH.
Qed.

(** The lines stay within the width when every token fits after the
    hanging indent and [slack] more columns, from every state of the
    loop in which the column is past the hanging indent or the next
    token starts at most [slack] columns after it. *)
Lemma wrapped_within (w h slack : nat) (tokens : list string) :
  forallb (fits w (h + slack)) tokens = true ->
  forall pos gap,
    pos <= w ->
    h < pos \/ (pos + gap <= h + slack /\ (slack = 0 -> pos + gap = h)) ->
    lines_within w pos (writeWrapped_from w h tokens pos gap) = true.
Proof.
  induction tokens as [| token rest IH]; intros Hfit pos gap Hpos Hinv.
  - cbn [writeWrapped_from lines_within]. apply Nat.leb_le, Hpos.
  - cbn [forallb] in Hfit. apply andb_true_iff in Hfit as [Ht Hrest].
    specialize (IH Hrest).
    assert (Hw : Nat.leb pos w = true) by (apply Nat.leb_le, Hpos).
    rewrite writeWrapped_from_cons. unfold breaks_before.
    unfold fits in Ht.
    destruct (String.eqb token newline_token) eqn:En.
    + cbn [orb lines_within]. rewrite Ascii.eqb_refl, Hw. cbn [andb].
      apply IH; [lia |]. right. split; lia.
    + cbn [orb] in Ht |- *.
      apply andb_true_iff in Ht as [Ht Hsize].
      apply andb_true_iff in Ht as [Hne Hnl].
      apply negb_true_iff in Hnl. apply Nat.leb_le in Hsize.
      assert (0 < size token).
      { destruct (size token); [discriminate | lia]. }
      destruct (Nat.ltb_spec w (pos + gap + size token)) as [Hov | Hov];
        destruct (Nat.ltb_spec h pos) as [Hh | Hh]; cbn [andb].
      * cbn [lines_within]. rewrite Ascii.eqb_refl, Hw. cbn [andb].
        rewrite lines_within_append by apply contains_newline_spaces.
        rewrite lines_within_append by exact Hnl.
        rewrite size_spaces. apply IH; [lia |]. left. lia.
      * rewrite lines_within_append by apply contains_newline_spaces.
        rewrite lines_within_append by exact Hnl.
        rewrite size_spaces.
        apply IH; [lia |].
        destruct (Nat.eq_dec slack 0) as [-> | Hs]; [left; lia |].
        destruct (Nat.le_gt_cases (pos + gap + size token) h);
          [right; split; lia | left; lia].
      * rewrite lines_within_append by apply contains_newline_spaces.
        rewrite lines_within_append by exact Hnl.
        rewrite size_spaces. apply IH; [lia |]. left. lia.
      * rewrite lines_within_append by apply contains_newline_spaces.
        rewrite lines_within_append by exact Hnl.
        rewrite size_spaces. apply IH; [lia |].
        destruct (Nat.eq_dec slack 0) as [-> | Hs]; [left; lia |].
        destruct (Nat.le_gt_cases (pos + gap + size token) h);
          [right; split; lia | left; lia].
Qed.

(** X4: [writeWrapped] keeps every line within the help width when each
    token fits after the hanging indent and the loop starts past the
    hanging indent or with the next token exactly at it (as in a
    paragraph and in a glossary entry).  From a start before the hanging
    indent (as in the usage line) the lines stay within the width when
    each token fits one column further to the right. *)
Theorem wrapped_within_width (w h : nat) (tokens : list string)
    (pos gap : nat) :
  pos <= w ->
  (forallb (fits w h) tokens = true ->
   h < pos \/ pos + gap = h ->
   lines_within w pos (writeWrapped_from w h tokens pos gap) = true)
  /\ (forallb (fits w (h + 1)) tokens = true ->
      h < pos \/ pos + gap <= h + 1 ->
      lines_within w pos (writeWrapped_from w h tokens pos gap) = true).
Proof.
  intros Hpos. split; intros Hfit Hinv.
  - apply (wrapped_within w h 0); [rewrite Nat.add_0_r; exact Hfit | exact Hpos |].
    destruct Hinv; [left; assumption | right; split; lia].
  - apply (wrapped_within w h 1); [exact Hfit | exact Hpos |].
    destruct Hinv; [left; assumption | right; split; lia].
Qed.

Lemma wrapped_within_width_witness :
  lines_within 21 6 (writeWrapped_from 21 6 ["See"; "Averylongtoken"; "here"] 6 0)
  = true
  /\ lines_within 21 2 (writeWrapped_from 21 4 ["ab"; "[-a]"; "[--verbose]"] 2 0)
     = true.
Proof.
  split.
  - apply (proj1 (wrapped_within_width 21 6
                    ["See"; "Averylongtoken"; "here"] 6 0 ltac:(lia)));
      [reflexivity | right; reflexivity].
  - apply (proj2 (wrapped_within_width 21 4
                    ["ab"; "[-a]"; "[--verbose]"] 2 0 ltac:(lia)));
      [reflexivity | right; simpl; lia].
Defined.

Lemma tokens_fit (w : nat) (tokens : list string) :
  forallb is_token tokens = true ->
  forallb (fun t => Nat.leb (size t) w) (words tokens) = true ->
  forallb (fits w 0) tokens = true.
Proof.
  induction tokens as [| t r IH]; [reflexivity |].
  cbn [forallb words]. intros Ht Hw.
  apply andb_true_iff in Ht as [Ht Hr]. unfold is_token in Ht.
  unfold fits at 1.
  destruct (String.eqb t newline_token) eqn:En.
  - cbn [orb andb]. apply IH; assumption.
  - rewrite orb_false_r in Ht. cbn [forallb] in Hw.
    apply andb_true_iff in Hw as [Hs Hw].
    unfold is_word in Ht. apply andb_true_iff in Ht as [Hne Hnb].
    rewrite Hne, (no_blank_no_newline _ Hnb). cbn [orb negb andb plus].
    rewrite Hs. cbn [andb]. apply IH; assumption.
Qed.

(** X5: a paragraph (prolog or epilog) none of whose words is longer
    than the help width is rendered with every line within the help
    width, whatever its blanks and newlines. *)
Theorem paragraph_within_width (p : Parser) (text : string) :
  forallb (fun t => Nat.leb (size t) (helpWidth_ p)) (words (tokenize text))
  = true ->
  lines_within (helpWidth_ p) 0 (writeParagraph p text) = true.
Proof.
  intros H. unfold writeParagraph.
  destruct text as [| c r]; [reflexivity |].
  rewrite lines_within_newline. apply andb_true_iff. split; [| reflexivity].
  unfold writeWrapped.
  apply (wrapped_within (helpWidth_ p) 0 0); [| lia | right; split; reflexivity].
  apply tokens_fit; [apply tokenize_from_tokens; tauto | exact H].
Qed.

Lemma paragraph_within_width_witness :
  lines_within 21 0
    (writeParagraph (setHelpWidth 21 (newParser EmptyString EmptyString))
       "A short text   that is wrapped at the width.")
  = true.
Proof.
  apply (paragraph_within_width
           (setHelpWidth 21 (newParser EmptyString EmptyString))).
  reflexivity.
Defined.

(** ** The columns of a glossary *)

Lemma maxTermSize_from (entries : list Entry) : forall m,
  let r :=
    fold_left
      (fun m e => if Nat.ltb m (size (term e)) then size (term e) else m)
      entries m in
  m <= r /\ forall e, In e entries -> size (term e) <= r.
Proof.
  induction entries as [| e0 es IH]; intros m; cbn [fold_left].
  - split; [lia | intros e []].
  - destruct (IH (if Nat.ltb m (size (term e0)) then size (term e0) else m))
      as [H1 H2].
    destruct (Nat.ltb_spec m (size (term e0))); (split; [lia |]);
      intros e [<- | He]; try lia; apply H2; exact He.
Qed.

Lemma maxTermSize_bound (entries : list Entry) (e : Entry) :
  In e entries -> size (term e) <= maxTermSize entries.
Proof. intros H. apply (maxTermSize_from entries 0). exact H. Qed.

(** X6: in a glossary every description starts at the same column: the
    text written before the description of an entry (indent, term and
    padding) has exactly [tab] characters, [tab] being the indent, the
    widest term of the glossary and the indent again. *)
Theorem glossary_column (p : Parser) (args : list Arg) (a : Arg) :
  In a args ->
  let entries := map (makeEntry p (hasAnyShortName args)) args in
  let tab := helpIndent_ p + maxTermSize entries + helpIndent_ p in
  let e := makeEntry p (hasAnyShortName args) a in
  exists lead,
    writeEntry p tab e
    = lead +++ writeWrapped p (description e) tab tab
      +++ String newline EmptyString
    /\ size lead = tab
    /\ size (term e) <= maxTermSize entries.
Proof.
  intros Ha entries tab e.
  assert (Hmax : size (term e) <= maxTermSize entries).
  { apply maxTermSize_bound. apply in_map. exact Ha. }
  exists (spaces (helpIndent_ p) +++ term e
          +++ spaces (tab - helpIndent_ p - size (term e))).
  split; [| split; [| exact Hmax]].
  - unfold writeEntry. rewrite !append_assoc. reflexivity.
  - rewrite !size_append, !size_spaces. unfold tab. lia.
Qed.

Lemma glossary_column_witness :
  In (BoolArg "s" "sss" EmptyString false 3) (options_ value_parser)
  /\ exists lead,
       writeEntry value_parser 14
         (makeEntry value_parser true (BoolArg "s" "sss" EmptyString false 3))
       = lead +++ writeWrapped value_parser [] 14 14
         +++ String newline EmptyString
       /\ size lead = 14.
Proof.
  assert (H : In (BoolArg "s" "sss" EmptyString false 3) (options_ value_parser))
    by (simpl; tauto).
  split; [exact H |].
  destruct (glossary_column value_parser (options_ value_parser)
              (BoolArg "s" "sss" EmptyString false 3) H)
    as (lead & H1 & H2 & _).
  exists lead. split; [exact H1 | exact H2].
Defined.

Lemma entry_within (p : Parser) (tab : nat) (e : Entry) (s : string) :
  helpIndent_ p + size (term e) <= tab ->
  tab <= helpWidth_ p ->
  contains newline (term e) = false ->
  forallb (fits (helpWidth_ p) tab) (description e) = true ->
  lines_within (helpWidth_ p) 0 (writeEntry p tab e +++ s)
  = lines_within (helpWidth_ p) 0 s.
Proof.
  intros Hterm Htab Hnl Hfit. unfold writeEntry.
  rewrite !append_assoc.
  rewrite lines_within_append by apply contains_newline_spaces.
  rewrite lines_within_append by exact Hnl.
  rewrite lines_within_append by apply contains_newline_spaces.
  rewrite !size_spaces.
  replace (0 + helpIndent_ p + size (term e)
           + (tab - helpIndent_ p - size (term e))) with tab by lia.
  change (String newline EmptyString +++ s) with (String newline s).
  rewrite lines_within_newline. unfold writeWrapped.
  rewrite (wrapped_within (helpWidth_ p) tab 0 (description e));
    [reflexivity | rewrite Nat.add_0_r; exact Hfit | exact Htab |].
  right. split; lia.
Qed.

Lemma entries_within (p : Parser) (tab : nat) (s : string) :
  tab <= helpWidth_ p ->
  forall entries,
    (forall e, In e entries -> helpIndent_ p + size (term e) <= tab) ->
    forallb
      (fun e =>
         negb (contains newline (term e))
         && forallb (fits (helpWidth_ p) tab) (description e)) entries
    = true ->
    lines_within (helpWidth_ p) 0
      (concat_strings (map (writeEntry p tab) entries) +++ s)
    = lines_within (helpWidth_ p) 0 s.
Proof.
  intros Htab. induction entries as [| e es IH]; intros Hsize Hall.
  - reflexivity.
  - cbn [forallb] in Hall. apply andb_true_iff in Hall as [He Hes].
    apply andb_true_iff in He as [Hnl Hfit]. apply negb_true_iff in Hnl.
    cbn [map concat_strings]. rewrite append_assoc.
    rewrite entry_within; try assumption.
    + apply IH; [| exact Hes]. intros e' He'. apply Hsize. right. exact He'.
    + apply Hsize. left. reflexivity.
Qed.

(** X7: a glossary is rendered with every line within the help width
    when its title fits, the column of the descriptions is within the
    width, no term holds a newline and every token of every description
    (the default value in parentheses included) fits after that
    column. *)
Theorem glossary_within_width (p : Parser) (title : string) (args : list Arg) :
  let entries := map (makeEntry p (hasAnyShortName args)) args in
  let tab := helpIndent_ p + maxTermSize entries + helpIndent_ p in
  contains newline title = false ->
  size title <= helpWidth_ p ->
  tab <= helpWidth_ p ->
  forallb
    (fun e =>
       negb (contains newline (term e))
       && forallb (fits (helpWidth_ p) tab) (description e)) entries
  = true ->
  lines_within (helpWidth_ p) 0 (writeGlossary p title args) = true.
Proof.
  intros entries tab Hnl Htitle Htab Hall. unfold writeGlossary.
  destruct (Nat.eqb (size title) 0 || Nat.eqb (length args) 0);
    [reflexivity |].
  fold entries. fold tab.
  rewrite lines_within_append by exact Hnl.
  change (String newline ?x +++ ?y) with (String newline (x +++ y)).
  cbn [lines_within]. rewrite Ascii.eqb_refl.
  apply andb_true_iff. split; [apply Nat.leb_le; lia |].
  rewrite entries_within; try assumption; [reflexivity |].
  intros e He. pose proof (maxTermSize_bound entries e He). unfold tab. lia.
Qed.

Lemma glossary_within_width_witness :
  lines_within 21 0
    (writeGlossary
       (addOption_bool 0 "a" "all" "Show all the entries of the list"
          false wrap_parser)
       "OPTIONS"
       (options_
          (addOption_bool 0 "a" "all" "Show all the entries of the list"
             false wrap_parser)))
  = true.
Proof.
  apply (glossary_within_width
           (addOption_bool 0 "a" "all" "Show all the entries of the list"
              false wrap_parser) "OPTIONS");
    [reflexivity | simpl; lia | simpl; lia | reflexivity].
Defined.
(** ** What a parse ends with *)

Lemma checkRequired_in_done (p : Parser) (args : list Arg) :
  checkRequired_in p args = None <-> required_done args = true.
Proof.
  unfold required_done.
  induction args as [| a r IH]; cbn [checkRequired_in forallb]; [tauto |].
  destruct (isRequired_ a), (isDone_ a); cbn [negb andb implb];
    try exact IH.
  split; discriminate.
Qed.

(** X8: when [parse] returns normally every token has been consumed and
    every required option and operand is marked done. *)
Theorem parse_success (st st' : State) :
  parseAll st = (Ok tt, st') ->
  it st' = []
  /\ required_done (options_ (self st')) = true
  /\ required_done (operands_ (self st')) = true.
Proof.
  unfold parseAll, bind.
  destruct (parseUtility st) as [[[] | e | c l] st1]; try discriminate.
  destruct (parseOptions st1) as [[[] | e | c l] st2]; try discriminate.
  destruct (parseOperands st2) as [[[] | e | c l] st3]; try discriminate.
  destruct (parseTerminator st3) as [[[] | e | c l] st4]; try discriminate.
  unfold checkEnd. destruct (it st4) eqn:Hit; [| discriminate].
  unfold checkRequired.
  destruct (checkRequired_in (self st4) (options_ (self st4))) eqn:H1;
    [discriminate |].
  destruct (checkRequired_in (self st4) (operands_ (self st4))) eqn:H2;
    [discriminate |].
  intros [= <-]. split; [exact Hit |].
  split; eapply checkRequired_in_done; eassumption.
Qed.

Lemma parse_success_witness :
  it (snd (parse required_parser required_mem
             ["prog"; "-b"; "-v"; "V"; "--www"; "W"; "A"; "B"])) = []
  /\ required_done
       (options_
          (self (snd (parse required_parser required_mem
                        ["prog"; "-b"; "-v"; "V"; "--www"; "W"; "A"; "B"]))))
     = true
  /\ required_done
       (operands_
          (self (snd (parse required_parser required_mem
                        ["prog"; "-b"; "-v"; "V"; "--www"; "W"; "A"; "B"]))))
     = true.
Proof.
  apply (parse_success
           (mkState required_parser required_mem
              ["prog"; "-b"; "-v"; "V"; "--www"; "W"; "A"; "B"] [])
           (snd (parse required_parser required_mem
                   ["prog"; "-b"; "-v"; "V"; "--www"; "W"; "A"; "B"]))).
  vm_compute. reflexivity.
Defined.

(** X9: the required check passes exactly when every required argument
    of the list is marked done, and otherwise it names the first
    argument in the order of declaration that is required and not
    done. *)
Theorem required_first_missing (p : Parser) :
  (forall args, checkRequired_in p args = None <-> required_done args = true)
  /\ (forall before a rest,
        required_done before = true ->
        isRequired_ a = true -> isDone_ a = false ->
        checkRequired_in p (before ++ a :: rest)
        = Some ("Cannot find required argument: " +++ expandName p a)).
Proof.
  split; [apply checkRequired_in_done |].
  induction before as [| b r IH]; intros a rest Hb Hr Hd.
  - cbn [app checkRequired_in]. rewrite Hr, Hd. reflexivity.
  - unfold required_done in Hb. cbn [forallb] in Hb.
    apply andb_true_iff in Hb as [Hb Hrest].
    cbn [app checkRequired_in].
    destruct (isRequired_ b), (isDone_ b); try discriminate;
      cbn [negb andb]; apply IH; assumption.
Qed.

Lemma required_first_missing_witness :
  checkRequired_in required_parser
    ([set_isDone (BoolArg "b" EmptyString EmptyString true 0)]
     ++ ValueArg PString "v" EmptyString EmptyString EmptyString true 1
          (VString "v")
     :: [])
  = Some "Cannot find required argument: -v".
Proof.
  apply (proj2 (required_first_missing required_parser)
           [set_isDone (BoolArg "b" EmptyString EmptyString true 0)]
           (ValueArg PString "v" EmptyString EmptyString EmptyString true 1
              (VString "v")) []);
    reflexivity.
Defined.

(** ** Looking up an option *)

Lemma find_from_Some (f : Arg -> bool) (l : list Arg) : forall i k a,
  find_from f i l = Some (k, a) <->
  exists j,
    k = i + j /\ l !! j = Some a /\ f a = true
    /\ forall j' b, j' < j -> l !! j' = Some b -> f b = false.
Proof.
  induction l as [| x r IH]; intros i k a; cbn [find_from].
  - split; [discriminate |]. intros (j & _ & H & _). discriminate.
  - destruct (f x) eqn:Hx.
    + split.
      * intros [= <- <-]. exists 0. split; [lia |]. split; [reflexivity |].
        split; [exact Hx |]. intros; lia.
      * intros (j & -> & Hj & Ha & Hmin). destruct j as [| j].
        -- cbn in Hj. injection Hj as <-. f_equal. f_equal. lia.
        -- specialize (Hmin 0 x ltac:(lia) eq_refl). congruence.
    + rewrite IH. split.
      * intros (j & -> & Hj & Ha & Hmin). exists (S j).
        split; [lia |]. split; [exact Hj |]. split; [exact Ha |].
        intros [| j'] b Hlt Hb.
        -- cbn in Hb. congruence.
        -- apply (Hmin j'); [lia | exact Hb].
      * intros (j & -> & Hj & Ha & Hmin). destruct j as [| j].
        -- cbn in Hj. congruence.
        -- exists j. split; [lia |]. split; [exact Hj |]. split; [exact Ha |].
           intros j' b Hlt Hb. apply (Hmin (S j')); [lia | exact Hb].
Qed.

Lemma find_from_None (f : Arg -> bool) (l : list Arg) : forall i,
  find_from f i l = None <-> forall a, In a l -> f a = false.
Proof.
  induction l as [| x r IH]; intros i; cbn [find_from].
  - split; [intros _ a [] | reflexivity].
  - destruct (f x) eqn:Hx.
    + split; [discriminate |]. intros H.
      specialize (H x (or_introl eq_refl)). congruence.
    + rewrite IH. split.
      * intros H a [<- | Ha]; [exact Hx | apply H, Ha].
      * intros H a Ha. apply H. right. exact Ha.
Qed.

Lemma lookup_In (l : list Arg) : forall i a, l !! i = Some a -> In a l.
Proof.
  induction l as [| x r IH]; intros [| i] a H; try discriminate.
  - injection H as <-. left. reflexivity.
  - right. exact (IH i a H).
Qed.

Lemma first_match (f : Arg -> bool) (l : list Arg) :
  (forall i a,
     find_from f 0 l = Some (i, a) <->
     l !! i = Some a /\ f a = true
     /\ forall j b, j < i -> l !! j = Some b -> f b = false)
  /\ (find_from f 0 l = None <-> forall a, In a l -> f a = false).
Proof.
  split; [| apply find_from_None].
  intros i a. rewrite find_from_Some. split.
  - intros (j & -> & H). exact H.
  - intros H. exists i. split; [reflexivity | exact H].
Qed.

Lemma size_zero (s : string) : Nat.eqb (size s) 0 = true <-> s = EmptyString.
Proof. destruct s; split; try reflexivity; discriminate. Qed.

Lemma getOption_unknown (name : string) (st : State) :
  name = EmptyString
  \/ (forall a, In a (options_ (self st)) -> longName_ a <> name) ->
  getOption name st = (Error ("Unknown option name: " +++ name), st).
Proof.
  intros H. unfold getOption.
  destruct (Nat.eqb (size name) 0) eqn:En; [reflexivity |].
  destruct H as [H | H]; [apply size_zero in H; congruence |].
  replace (find_from (fun a => String.eqb (longName_ a) name) 0
             (options_ (self st))) with (@None (nat * Arg)); [reflexivity |].
  symmetry. apply find_from_None. intros a Ha.
  apply String.eqb_neq. exact (H a Ha).
Qed.

Lemma getOption_char_unknown (c : ascii) (st : State) :
  c = zero \/ (forall a, In a (options_ (self st)) -> shortName_ a <> c) ->
  getOption_char c st
  = (Error ("Unknown option name: " +++ String c EmptyString), st).
Proof.
  intros H. unfold getOption_char.
  destruct (Ascii.eqb_spec c zero) as [Hc | Hc]; [reflexivity |].
  destruct H as [H | H]; [contradiction |].
  replace (find_from (fun a => Ascii.eqb (shortName_ a) c) 0
             (options_ (self st))) with (@None (nat * Arg)); [reflexivity |].
  symmetry. apply find_from_None. intros a Ha.
  apply Ascii.eqb_neq. exact (H a Ha).
Qed.

(** X10: both overloads of [getOption] return the first declared option
    that carries the name, whatever is declared after it, and leave the
    state as it is; an empty long name or a zero short name is never
    looked up, and the call throws [Unknown option name] exactly when
    the name is empty (zero) or no option carries it. *)
Theorem getOption_first (st : State) :
  (forall name i a,
     getOption name st = (Ok (InOptions i, a), st) <->
     name <> EmptyString
     /\ options_ (self st) !! i = Some a /\ longName_ a = name
     /\ forall j b, j < i -> options_ (self st) !! j = Some b ->
                    longName_ b <> name)
  /\ (forall name,
        getOption name st = (Error ("Unknown option name: " +++ name), st) <->
        name = EmptyString
        \/ forall a, In a (options_ (self st)) -> longName_ a <> name)
  /\ (forall c i a,
        getOption_char c st = (Ok (InOptions i, a), st) <->
        c <> zero
        /\ options_ (self st) !! i = Some a /\ shortName_ a = c
        /\ forall j b, j < i -> options_ (self st) !! j = Some b ->
                       shortName_ b <> c)
  /\ (forall c,
        getOption_char c st
        = (Error ("Unknown option name: " +++ String c EmptyString), st) <->
        c = zero
        \/ forall a, In a (options_ (self st)) -> shortName_ a <> c).
Proof.
  split; [| split; [| split]].
  - intros name i a. unfold getOption.
    destruct (first_match (fun o => String.eqb (longName_ o) name)
                (options_ (self st))) as [HS _].
    destruct (Nat.eqb (size name) 0) eqn:En.
    { apply size_zero in En. split; [discriminate | tauto]. }
    assert (Hne : name <> EmptyString).
    { intros H. apply size_zero in H. congruence. }
    destruct (find_from _ 0 (options_ (self st))) as [[k b] |].
    + split.
      * intros [= -> ->]. destruct (proj1 (HS i a) eq_refl) as (H1 & H2 & H3).
        split; [exact Hne |]. split; [exact H1 |].
        split; [apply String.eqb_eq, H2 |].
        intros j x Hlt Hx. apply String.eqb_neq. exact (H3 j x Hlt Hx).
      * intros (_ & H1 & H2 & H3).
        assert (H : Some (k, b) = Some (i, a)).
        { apply HS. split; [exact H1 |]. split; [apply String.eqb_eq, H2 |].
          intros j x Hlt Hx. apply String.eqb_neq. exact (H3 j x Hlt Hx). }
        injection H as -> ->. reflexivity.
    + split; [discriminate |]. intros (_ & H1 & H2 & H3).
      assert (H : @None (nat * Arg) = Some (i, a)); [| discriminate].
      apply HS. split; [exact H1 |]. split; [apply String.eqb_eq, H2 |].
      intros j x Hlt Hx. apply String.eqb_neq. exact (H3 j x Hlt Hx).
  - intros name. unfold getOption.
    destruct (first_match (fun o => String.eqb (longName_ o) name)
                (options_ (self st))) as [HS HN].
    destruct (Nat.eqb (size name) 0) eqn:En.
    { apply size_zero in En. split; [tauto | reflexivity]. }
    assert (Hne : name <> EmptyString).
    { intros H. apply size_zero in H. congruence. }
    destruct (find_from _ 0 (options_ (self st))) as [[k b] |].
    + split; [discriminate |]. intros [H | H]; [contradiction |].
      destruct (proj1 (HS k b) eq_refl) as (H1 & H2 & _).
      apply String.eqb_eq in H2. exfalso.
      exact (H b (lookup_In _ _ _ H1) H2).
    + split; [| reflexivity]. intros _. right. intros a Ha.
      apply String.eqb_neq. exact (proj1 HN eq_refl a Ha).
  - intros c i a. unfold getOption_char.
    destruct (first_match (fun o => Ascii.eqb (shortName_ o) c)
                (options_ (self st))) as [HS _].
    destruct (Ascii.eqb_spec c zero) as [Hc | Hc].
    { split; [discriminate | tauto]. }
    destruct (find_from _ 0 (options_ (self st))) as [[k b] |].
    + split.
      * intros [= -> ->]. destruct (proj1 (HS i a) eq_refl) as (H1 & H2 & H3).
        split; [exact Hc |]. split; [exact H1 |].
        split; [apply Ascii.eqb_eq, H2 |].
        intros j x Hlt Hx. apply Ascii.eqb_neq. exact (H3 j x Hlt Hx).
      * intros (_ & H1 & H2 & H3).
        assert (H : Some (k, b) = Some (i, a)).
        { apply HS. split; [exact H1 |]. split; [apply Ascii.eqb_eq, H2 |].
          intros j x Hlt Hx. apply Ascii.eqb_neq. exact (H3 j x Hlt Hx). }
        injection H as -> ->. reflexivity.
    + split; [discriminate |]. intros (_ & H1 & H2 & H3).
      assert (H : @None (nat * Arg) = Some (i, a)); [| discriminate].
      apply HS. split; [exact H1 |]. split; [apply Ascii.eqb_eq, H2 |].
      intros j x Hlt Hx. apply Ascii.eqb_neq. exact (H3 j x Hlt Hx).
  - intros c. unfold getOption_char.
    destruct (first_match (fun o => Ascii.eqb (shortName_ o) c)
                (options_ (self st))) as [HS HN].
    destruct (Ascii.eqb_spec c zero) as [Hc | Hc].
    { split; [tauto | reflexivity]. }
    destruct (find_from _ 0 (options_ (self st))) as [[k b] |].
    + split; [discriminate |]. intros [H | H]; [contradiction |].
      destruct (proj1 (HS k b) eq_refl) as (H1 & H2 & _).
      apply Ascii.eqb_eq in H2. exfalso.
      exact (H b (lookup_In _ _ _ H1) H2).
    + split; [| reflexivity]. intros _. right. intros a Ha.
      apply Ascii.eqb_neq. exact (proj1 HN eq_refl a Ha).
Qed.

(** ** The terminated flag *)

Lemma parseShortOptions_not_predicted st :
  predictShortOption st = false -> parseShortOptions st = (Ok tt, st).
Proof. intros H. unfold parseShortOptions. rewrite H. reflexivity. Qed.

Lemma moved_same (st : State) : moved (it st) st = false.
Proof. unfold moved. rewrite Nat.eqb_refl. reflexivity. Qed.

Lemma predict_terminated (st : State) :
  isTerminated_ (self st) = true ->
  predictLongOption st = false /\ predictShortOption st = false.
Proof.
  intros H. unfold predictLongOption, predictShortOption. rewrite H.
  destruct (it st); split; reflexivity.
Qed.

(** X11: once the parser is terminated the options stage takes no token
    and changes nothing, whatever the tokens look like; and a terminator
    under the cursor of a parser that is not terminated is consumed and
    ends the options stage at once. *)
Theorem options_stage_terminated (st : State) :
  (isTerminated_ (self st) = true -> parseOptions st = (Ok tt, st))
  /\ (forall t rest,
        it st = t :: rest -> is_terminator (self st) t = true ->
        parseOptions st = (Ok tt, set_it rest (terminate st))).
Proof.
  split.
  - intros H. rewrite parseOptions_unroll. unfold bind at 1.
    unfold parseOptions_body, bind.
    rewrite (parseTerminator_terminated st H), moved_same.
    destruct (predict_terminated st H) as [HL HS].
    rewrite (parseLongOption_not_predicted st HL), moved_same.
    rewrite (parseShortOptions_not_predicted st HS), moved_same.
    reflexivity.
  - intros t rest Hit Ht. rewrite parseOptions_unroll. unfold bind at 1.
    unfold parseOptions_body, bind.
    rewrite (parseTerminator_spec st t rest Hit), Ht.
    unfold moved. rewrite Hit. cbn [set_it it length terminate set_self].
    replace (Nat.eqb (length rest) (S (length rest))) with false; [reflexivity |].
    symmetry. apply Nat.eqb_neq. lia.
Qed.

Lemma options_stage_terminated_witness :
  parseOptions (terminate (sink_state ["-a"; "--bb"]))
  = (Ok tt, terminate (sink_state ["-a"; "--bb"]))
  /\ parseOptions (sink_state ["--"; "-a"])
     = (Ok tt, set_it ["-a"] (terminate (sink_state ["--"; "-a"]))).
Proof.
  split.
  - apply (proj1 (options_stage_terminated
                    (terminate (sink_state ["-a"; "--bb"])))).
    reflexivity.
  - apply (proj2 (options_stage_terminated (sink_state ["--"; "-a"]))
             "--" ["-a"]); reflexivity.
Defined.

Lemma flags_kept_refl (st : State) : flags_kept st st.
Proof.
  split; [tauto |]. split; intros i a H1 H2; exists a; tauto.
Qed.

Lemma flags_kept_self (st st' : State) :
  self st' = self st -> flags_kept st st'.
Proof.
  intros H. unfold flags_kept. rewrite H.
  split; [tauto |]. split; intros i a H1 H2; exists a; tauto.
Qed.

Lemma flags_kept_trans (a b c : State) :
  flags_kept a b -> flags_kept b c -> flags_kept a c.
Proof.
  intros (T1 & O1 & P1) (T2 & O2 & P2). split; [tauto |]. split.
  - intros i x Hx Hd. destruct (O1 i x Hx Hd) as (y & Hy & Hyd).
    exact (O2 i y Hy Hyd).
  - intros i x Hx Hd. destruct (P1 i x Hx Hd) as (y & Hy & Hyd).
    exact (P2 i y Hy Hyd).
Qed.

Lemma alter_set_isDone_kept (l : list Arg) (k i : nat) (a : Arg) :
  l !! i = Some a -> isDone_ a = true ->
  exists a', alter set_isDone k l !! i = Some a' /\ isDone_ a' = true.
Proof.
  intros Hi Hd. rewrite list_lookup_alter.
  destruct (decide (k = i)) as [-> | Hne]; rewrite Hi.
  - exists (set_isDone a). split; reflexivity.
  - exists a. split; [reflexivity | exact Hd].
Qed.

(** X12: a parse never clears a flag of the parser: a parser that is
    terminated stays terminated, and an argument that is marked done
    stays marked done, also across calls of [parse] on the same
    parser. *)
Theorem flags_never_cleared (st : State) :
  flags_kept st (snd (parseAll st)).
Proof.
  apply (parseAll_related flags_kept (fun _ => True)); try tauto.
  - apply flags_kept_refl.
  - apply flags_kept_trans.
  - intros s t x. apply flags_kept_self. reflexivity.
  - intros s t rest _. apply flags_kept_self. reflexivity.
  - intros s [k | k]; unfold flags_kept, mark_done;
      cbn [snd set_self self with_args options_ operands_ isTerminated_];
      (split; [tauto |]); split; intros i a Hi Hd;
      first [ eapply alter_set_isDone_kept; eassumption | exists a; tauto ].
  - intros s n. split; [tauto |]. split; intros i a Hi Hd; exists a; tauto.
  - intros s. split; [reflexivity |]. split; intros i a Hi Hd; exists a; tauto.
Qed.

(** ** No token, and the utility name *)

Lemma parseTerminator_end st : it st = [] -> parseTerminator st = (Ok tt, st).
Proof. intros H. unfold parseTerminator. rewrite H. reflexivity. Qed.

Lemma predict_end (st : State) :
  it st = [] -> predictLongOption st = false /\ predictShortOption st = false.
Proof.
  intros H. unfold predictLongOption, predictShortOption. rewrite H.
  split; reflexivity.
Qed.

Lemma parseOperandContent_end ptr operand st :
  it st = [] -> parseOperandContent ptr operand st = (Ok tt, st).
Proof.
  intros H. rewrite parseOperandContent_unroll. unfold bind at 1.
  unfold parseOperandContent_body, bind.
  rewrite (parseTerminator_end st H), H. reflexivity.
Qed.

Lemma parseOperands_from_end (ops : list Arg) : forall i st,
  it st = [] -> parseOperands_from i ops st = (Ok tt, st).
Proof.
  induction ops as [| a r IH]; intros i st H; [reflexivity |].
  cbn [parseOperands_from]. unfold bind.
  rewrite (parseOperandContent_end _ _ _ H). apply IH, H.
Qed.

Lemma parseOptions_end st : it st = [] -> parseOptions st = (Ok tt, st).
Proof.
  intros H. rewrite parseOptions_unroll. unfold bind at 1.
  unfold parseOptions_body, bind.
  rewrite (parseTerminator_end st H), moved_same.
  destruct (predict_end st H) as [HL HS].
  rewrite (parseLongOption_not_predicted st HL), moved_same.
  rewrite (parseShortOptions_not_predicted st HS), moved_same.
  reflexivity.
Qed.

Lemma parseArguments_end (st : State) :
  it st = [] -> parseArguments st = (required_outcome (self st), st).
Proof.
  intros H. unfold parseArguments, bind.
  rewrite (parseOptions_end st H).
  unfold parseOperands. rewrite (parseOperands_from_end _ 0 st H).
  rewrite (parseTerminator_end st H).
  unfold checkEnd, checkRequired, required_outcome. rewrite H.
  destruct (checkRequired_in (self st) (options_ (self st))); [reflexivity |].
  destruct (checkRequired_in (self st) (operands_ (self st))); reflexivity.
Qed.

(** X13: with no token at all, or with the utility name only, [parse]
    assigns to no variable of the caller and consumes what there is;
    its outcome is that of the required checks alone, and the utility
    name is taken from the token when none was set. *)
Theorem parse_no_arguments (p : Parser) (m : Mem) (util : string) :
  parse p m [] = (required_outcome p, mkState p m [] [])
  /\ parse p m [util]
     = (required_outcome (named util p), mkState (named util p) m [] []).
Proof.
  split.
  - unfold parse, parseAll.
    change (parseAll (mkState p m [] []))
      with (parseArguments (mkState p m [] [])).
    apply (parseArguments_end (mkState p m [] [])). reflexivity.
  - unfold parse.
    change (parseAll (mkState p m [util] []))
      with (parseArguments (mkState (named util p) m [] [])).
    apply (parseArguments_end (mkState (named util p) m [] [])). reflexivity.
Qed.

Section Arguments.
Variable R : State -> State -> Prop.
Hypothesis R_refl : forall st, R st st.
Hypothesis R_trans : forall a b c, R a b -> R b c -> R a c.
Hypothesis R_write : forall st t s, R st (write t s st).
Hypothesis R_advance :
  forall st t rest, it st = t :: rest -> R st (set_it rest st).
Hypothesis R_done : forall st ptr, R st (snd (mark_done ptr st)).
Hypothesis R_term :
  forall st, R st (set_self (with_isTerminated (self st) true) st).

(** The stages after [parseUtility] respect every relation that the
    steps other than the naming of the utility respect. *)
Lemma parseArguments_related (st : State) : R st (snd (parseArguments st)).
Proof.
  unfold parseArguments, bind.
  destruct (respects_parseOptions R (fun _ => True) R_refl R_trans R_write
              R_advance R_done R_term (fun _ _ _ _ => I) (fun _ => I)
              (fun _ => I) (fun _ => I) st) as [H2 _].
  destruct (parseOptions st) as [[[] | e | c l] st2]; simpl in H2 |- *;
    try exact H2.
  destruct (respects_parseOperands R (fun _ => True) R_refl R_trans R_write
              R_advance R_done R_term (fun _ _ _ _ => I) (fun _ => I) st2)
    as [H3 _].
  destruct (parseOperands st2) as [[[] | e | c l] st3]; simpl in H3 |- *;
    try (eapply R_trans; eassumption).
  destruct (respects_parseTerminator R (fun _ => True) R_refl R_trans
              R_advance R_term st3) as [H4 _].
  assert (H04 : R st (snd (parseTerminator st3))).
  { eapply R_trans; [eassumption |]. eapply R_trans; eassumption. }
  destruct (parseTerminator st3) as [[[] | e | c l] st4]; simpl in H04 |- *;
    try exact H04.
  unfold checkEnd. destruct (it st4); simpl; [| exact H04].
  unfold checkRequired.
  destruct (checkRequired_in (self st4) (options_ (self st4))); simpl;
    [exact H04 |].
  destruct (checkRequired_in (self st4) (operands_ (self st4))); simpl;
    exact H04.
Qed.
End Arguments.

Lemma parseArguments_name (st : State) :
  utilityName_ (self (snd (parseArguments st))) = utilityName_ (self st).
Proof.
  apply (parseArguments_related
           (fun a b => utilityName_ (self b) = utilityName_ (self a)));
    try reflexivity.
  - intros a b c H1 H2. congruence.
  - intros s [k | k]; reflexivity.
Qed.

(** X14: after [parse] the utility name of the parser is the name that
    was set before the call when one was set, and the first token
    otherwise; no later stage changes it. *)
Theorem utility_name (st : State) :
  utilityName_ (self (snd (parseAll st)))
  = match it st with
    | [] => utilityName_ (self st)
    | t :: _ => utilityName_ (named t (self st))
    end.
Proof.
  change (parseAll st) with (bind parseUtility (fun _ => parseArguments) st).
  unfold bind, parseUtility.
  destruct (it st) as [| t rest] eqn:Hit.
  - apply parseArguments_name.
  - rewrite parseArguments_name. reflexivity.
Qed.

(** ** The help text after a parse *)

Lemma writeHelp_same (p p' : Parser) :
  declared p' = declared p -> utilityName_ p' = utilityName_ p ->
  writeHelp p' = writeHelp p.
Proof.
  intros Hd Hn.
  assert (Esp : shortPrefix_ p' = shortPrefix_ p)
    by exact (f_equal shortPrefix_ Hd).
  assert (Elp : longPrefix_ p' = longPrefix_ p)
    by exact (f_equal longPrefix_ Hd).
  assert (Epr : helpProlog_ p' = helpProlog_ p)
    by exact (f_equal helpProlog_ Hd).
  assert (Eep : helpEpilog_ p' = helpEpilog_ p)
    by exact (f_equal helpEpilog_ Hd).
  assert (Eut : usageTitle_ p' = usageTitle_ p)
    by exact (f_equal usageTitle_ Hd).
  assert (Eot : optionsTitle_ p' = optionsTitle_ p)
    by exact (f_equal optionsTitle_ Hd).
  assert (Ept : operandsTitle_ p' = operandsTitle_ p)
    by exact (f_equal operandsTitle_ Hd).
  assert (Eou : optionsUsage_ p' = optionsUsage_ p)
    by exact (f_equal optionsUsage_ Hd).
  assert (Epu : operandsUsage_ p' = operandsUsage_ p)
    by exact (f_equal operandsUsage_ Hd).
  assert (Ew : helpWidth_ p' = helpWidth_ p)
    by exact (f_equal helpWidth_ Hd).
  assert (Ei : helpIndent_ p' = helpIndent_ p)
    by exact (f_equal helpIndent_ Hd).
  destruct (writeGlossary_same_declaration p p' (optionsTitle_ p) Hd)
    as [G1 _].
  destruct (writeGlossary_same_declaration p p' (operandsTitle_ p) Hd)
    as [_ G2].
  assert (U : forall a, usageToken p' (set_isDone a) = usageToken p a).
  { intros a. unfold usageToken.
    cbn [set_isDone shortName_ longName_ hasValue_ valueName_ isRequired_
         isSink_].
    rewrite Esp, Elp. reflexivity. }
  assert (Uo : map (usageToken p') (options_ p')
               = map (usageToken p) (options_ p)).
  { transitivity (map (usageToken p') (map set_isDone (options_ p'))).
    - rewrite map_map. apply map_ext. intros a. reflexivity.
    - rewrite (declared_options _ _ Hd), map_map. apply map_ext. exact U. }
  assert (Up : map (usageToken p') (operands_ p')
               = map (usageToken p) (operands_ p)).
  { transitivity (map (usageToken p') (map set_isDone (operands_ p'))).
    - rewrite map_map. apply map_ext. intros a. reflexivity.
    - rewrite (declared_operands _ _ Hd), map_map. apply map_ext. exact U. }
  unfold writeHelp. rewrite Epr, Eep, Eot, Ept, G1, G2.
  unfold writeParagraph, writeUsage, writeWrapped, pushUsageTokens.
  rewrite Uo, Up, Ew, Eut, Hn, Eou, Epu, Ei. reflexivity.
Qed.

(** X15: the help text of a parser after a parse is that of the parser
    before it with the utility name that the parse left: nothing else
    that the parse changes (the terminated flag, the done flags of the
    arguments, the caller variables) shows in the help text. *)
Theorem help_after_parse (st : State) :
  writeHelp (self (snd (parseAll st)))
  = writeHelp
      (setUtilityName (utilityName_ (self (snd (parseAll st)))) (self st)).
Proof.
  apply writeHelp_same; [| reflexivity].
  transitivity (declared (self st)); [| reflexivity].
  apply parseAll_same_declaration.
Qed.
(** ** A cluster of short flags *)

Lemma flag_writes_map (l : list Arg) (flags : string) :
  flag_writes (map set_isDone l) flags = flag_writes l flags.
Proof.
  induction flags as [| ch r IH]; [reflexivity |].
  cbn [flag_writes]. rewrite IH.
  rewrite find_from_map by reflexivity.
  destruct (find_from _ 0 l) as [[k a] |]; reflexivity.
Qed.

Lemma flag_writes_same (p p' : Parser) (flags : string) :
  declared p' = declared p ->
  flag_writes (options_ p') flags = flag_writes (options_ p) flags.
Proof.
  intros H.
  rewrite <- flag_writes_map, (declared_options _ _ H), flag_writes_map.
  reflexivity.
Qed.

Lemma done_flag (ptr : ArgPtr) (a : Arg) (st : State) :
  is_signal a = false ->
  exists st0,
    done ptr a st = (Ok tt, st0)
    /\ it st0 = it st
    /\ history st0
       = history st
         ++ match derived a with
            | DBool target => [(target, SBool true)]
            | _ => []
            end
    /\ mem st0
       = replay
           match derived a with
           | DBool target => [(target, SBool true)]
           | _ => []
           end (mem st).
Proof.
  intros Hs. unfold done, bind, doDone, is_signal in *.
  destruct (derived a) as [| t | T t d | T t]; [discriminate | | |];
    eexists; (split; [reflexivity |]); destruct ptr;
    cbn [mark_done snd set_self write it history mem replay fold_left fst];
    rewrite ?app_nil_r; repeat split; reflexivity.
Qed.

(** The walk over a cluster assigns [true] to the target of every flag
    that it passes, in the order of the cluster, and nothing else. *)
Lemma parseShortNames_flag_writes token (flags : string) :
  forall names st,
    plain_flags (options_ (self st)) flags = true ->
    exists st1,
      parseShortNames token (flags +++ names) st
      = parseShortNames token names st1
      /\ same_declaration st st1 /\ it st1 = it st
      /\ history st1
         = history st ++ flag_writes (options_ (self st)) flags
      /\ mem st1 = replay (flag_writes (options_ (self st)) flags) (mem st).
Proof.
  induction flags as [| ch r IH]; intros names st Hp.
  - exists st. cbn [flag_writes replay fold_left]. rewrite app_nil_r.
    repeat split; reflexivity.
  - cbn [plain_flags] in Hp.
    destruct (Ascii.eqb_spec ch zero) as [| Hch]; [discriminate |].
    cbn [flag_writes].
    destruct (find_from _ 0 (options_ (self st))) as [[i a] |] eqn:Hf;
      [| discriminate].
    cbn [negb andb] in Hp.
    destruct (hasValue_ a) eqn:Hv; [discriminate |].
    destruct (is_signal a) eqn:Hs; [discriminate |].
    cbn [negb andb] in Hp.
    change (String ch r +++ names) with (String ch (r +++ names)).
    cbn [parseShortNames]. unfold bind at 1.
    rewrite (getOption_char_found ch i a st Hch Hf), Hv.
    pose proof (declaration_respected _ (staged_done (InOptions i) a) st) as Hd.
    destruct (done_flag (InOptions i) a st Hs) as (st0 & Hdone & Hc & Hh & Hm).
    unfold bind at 1. rewrite Hdone in Hd |- *. cbn [snd] in Hd.
    assert (Hp0 : plain_flags (options_ (self st0)) r = true).
    { rewrite <- plain_flags_map, (declared_options _ _ Hd), plain_flags_map.
      exact Hp. }
    destruct (IH names st0 Hp0) as (st1 & E & D & C & H & M).
    rewrite (flag_writes_same _ _ r Hd) in H, M.
    exists st1. split; [exact E |]. split.
    { eapply same_declaration_trans; eassumption. }
    split; [congruence |]. split.
    + rewrite H, Hh, <- app_assoc. reflexivity.
    + rewrite M, Hm, replay_app. reflexivity.
Qed.

Lemma parseShortOptions_predicted st token rest :
  it st = token :: rest -> predictShortOption st = true ->
  parseShortOptions st
  = parseShortNames token (str_drop 1 token) (set_it rest st).
Proof.
  intros Hit Hp. unfold parseShortOptions. rewrite Hp, Hit. reflexivity.
Qed.

(** X16: a token of short flags that take no value and are no signals
    is consumed as a whole, assigns [true] to the target of each of its
    flags in the order of the cluster and to no other variable, and the
    options stage goes on with the next token. *)
Theorem flag_cluster (st : State) (token : string) (rest : list string) :
  it st = token :: rest ->
  is_terminator (self st) token = false ->
  predictLongOption st = false ->
  predictShortOption st = true ->
  plain_flags (options_ (self st)) (str_drop 1 token) = true ->
  exists st1,
    parseOptions st = parseOptions st1
    /\ it st1 = rest
    /\ same_declaration st st1
    /\ history st1
       = history st ++ flag_writes (options_ (self st)) (str_drop 1 token)
    /\ mem st1
       = replay (flag_writes (options_ (self st)) (str_drop 1 token)) (mem st).
Proof.
  intros Hit Ht HL HS Hp.
  destruct (parseShortNames_flag_writes token (str_drop 1 token) EmptyString
              (set_it rest st) Hp) as (st1 & E & D & C & H & M).
  rewrite append_nil_r in E. cbn [parseShortNames] in E.
  assert (Hrun : parseShortOptions st = (Ok tt, st1)).
  { rewrite (parseShortOptions_predicted st token rest Hit HS). exact E. }
  exists st1. split.
  - rewrite (parseOptions_after_short st token rest Hit Ht HL).
    + unfold bind. rewrite Hrun. reflexivity.
    + rewrite Hrun, Hit. cbn [snd length]. rewrite C. cbn [set_it it]. lia.
  - split; [exact C |]. split; [exact D |]. split; [exact H | exact M].
Qed.

Lemma flag_cluster_witness :
  exists st1,
    parseOptions
      (mkState (setLongOptionPrefix "--" precedence_parser) precedence_mem
         ["/ba"; "x"] [])
    = parseOptions st1
    /\ it st1 = ["x"]
    /\ history st1 = [(2, SBool true); (0, SBool true)].
Proof.
  destruct (flag_cluster
              (mkState (setLongOptionPrefix "--" precedence_parser)
                 precedence_mem ["/ba"; "x"] []) "/ba" ["x"]
              eq_refl eq_refl eq_refl eq_refl eq_refl)
    as (st1 & H1 & H2 & _ & H3 & _).
  exists st1. split; [exact H1 | split; [exact H2 | exact H3]].
Defined.

(** ** The errors of the options stage *)

Lemma parseOptions_long_error st t rest e st' :
  it st = t :: rest ->
  is_terminator (self st) t = false ->
  parseLongOption st = (Error e, st') ->
  parseOptions st = (Error e, st').
Proof.
  intros Hit Ht H. rewrite parseOptions_unroll. unfold bind at 1.
  rewrite (parseOptions_body_not_terminator st t rest Hit Ht).
  unfold bind. rewrite H. reflexivity.
Qed.

Lemma parseOptions_short_error st t rest e st' :
  it st = t :: rest ->
  is_terminator (self st) t = false ->
  predictLongOption st = false ->
  parseShortOptions st = (Error e, st') ->
  parseOptions st = (Error e, st').
Proof.
  intros Hit Ht Hp H. rewrite parseOptions_unroll. unfold bind at 1.
  rewrite (parseOptions_body_not_terminator st t rest Hit Ht).
  unfold bind at 1. rewrite (parseLongOption_not_predicted st Hp), moved_same.
  unfold bind. rewrite H. reflexivity.
Qed.

Lemma parseLongOption_predicted st token rest name value :
  it st = token :: rest ->
  predictLongOption st = true ->
  find_split (longSeparator_ (self st))
    (str_drop (size (longPrefix_ (self st))) token) = (name, value) ->
  parseLongOption st
  = bind (getOption name) (fun '(ptr, option) =>
      (if hasValue_ option then
         match value with
         | Some v => parse_arg option v
         | None => parse_next token option
         end
       else
         match value with
         | Some _ => throw ("Unexpected option value: " +++ token)
         | None => ret tt
         end) ;;
      done ptr option) (set_it rest st).
Proof.
  intros Hit Hp Hs. unfold parseLongOption.
  rewrite Hp, Hit. cbn [negb]. rewrite Hs. reflexivity.
Qed.

Lemma In_same_declaration (p p' : Parser) (a' : Arg) :
  declared p' = declared p -> In a' (options_ p') ->
  exists a, In a (options_ p) /\ set_isDone a' = set_isDone a.
Proof.
  intros Hd Ha. apply (in_map set_isDone) in Ha.
  rewrite (declared_options _ _ Hd) in Ha.
  apply in_map_iff in Ha as (a & E & Ha). exists a. split; [exact Ha |].
  symmetry. exact E.
Qed.

(** X17: a name that no declared option carries ends the options stage
    with [Unknown option name]: the long name as written before the
    separator (an empty one included), with the token consumed and no
    variable assigned; or the first unknown character of a cluster,
    after the flags before it have been assigned. *)
Theorem unknown_option_name :
  (forall st token rest name value,
     it st = token :: rest ->
     is_terminator (self st) token = false ->
     predictLongOption st = true ->
     find_split (longSeparator_ (self st))
       (str_drop (size (longPrefix_ (self st))) token) = (name, value) ->
     name = EmptyString
     \/ (forall a, In a (options_ (self st)) -> longName_ a <> name) ->
     parseOptions st
     = (Error ("Unknown option name: " +++ name), set_it rest st))
  /\ (forall st token rest flags c more,
        it st = token :: rest ->
        is_terminator (self st) token = false ->
        predictLongOption st = false ->
        predictShortOption st = true ->
        str_drop 1 token = flags +++ String c more ->
        plain_flags (options_ (self st)) flags = true ->
        c = zero
        \/ (forall a, In a (options_ (self st)) -> shortName_ a <> c) ->
        exists st',
          parseOptions st
          = (Error ("Unknown option name: " +++ String c EmptyString), st')
          /\ it st' = rest
          /\ mem st' = replay (flag_writes (options_ (self st)) flags) (mem st)).
Proof.
  split.
  - intros st token rest name value Hit Ht Hp Hs Hn.
    apply (parseOptions_long_error st token rest); [exact Hit | exact Ht |].
    rewrite (parseLongOption_predicted st token rest name value Hit Hp Hs).
    unfold bind. rewrite getOption_unknown; [reflexivity |].
    exact Hn.
  - intros st token rest flags c more Hit Ht HL HS Hd Hp Hc.
    destruct (parseShortNames_flag_writes token flags (String c more)
                (set_it rest st) Hp) as (st1 & E & D & C & _ & M).
    exists st1. split; [| split; [exact C | exact M]].
    apply (parseOptions_short_error st token rest); try assumption.
    rewrite (parseShortOptions_predicted st token rest Hit HS), Hd, E.
    cbn [parseShortNames]. unfold bind.
    rewrite getOption_char_unknown; [reflexivity |].
    destruct Hc as [Hc | Hc]; [left; exact Hc | right].
    intros a' Ha' Hn.
    destruct (In_same_declaration _ _ a' D Ha') as (a & Ha & Ea).
    apply (Hc a Ha). rewrite <- Hn.
    exact (f_equal shortName_ (eq_sym Ea)).
Qed.

Lemma unknown_option_name_witness :
  parseOptions (mkState value_parser value_mem ["--=x"; "y"] [])
  = (Error ("Unknown option name: " +++ EmptyString),
     mkState value_parser value_mem ["y"] [])
  /\ exists st',
       parseOptions (mkState value_parser value_mem ["-sx"; "y"] [])
       = (Error "Unknown option name: x", st')
       /\ it st' = ["y"]
       /\ mem st' = <[3 := SBool true]> value_mem.
Proof.
  split.
  - apply (proj1 unknown_option_name
             (mkState value_parser value_mem ["--=x"; "y"] [])
             "--=x" ["y"] EmptyString (Some "x"));
      try reflexivity.
    left. reflexivity.
  - destruct (proj2 unknown_option_name
                (mkState value_parser value_mem ["-sx"; "y"] [])
                "-sx" ["y"] "s" "x"%char EmptyString
                eq_refl eq_refl eq_refl eq_refl eq_refl eq_refl)
      as (st' & H1 & H2 & H3).
    + right. intros a Ha. simpl in Ha.
      destruct Ha as [<- | [<- | [<- | [<- | []]]]]; discriminate.
    + exists st'. split; [exact H1 |]. split; [exact H2 | exact H3].
Defined.

(** X18: a value merged after the name of a long option that takes no
    value ends the options stage with [Unexpected option value] and the
    whole token; the token is consumed, the option is not marked done
    and no variable is assigned. *)
Theorem unexpected_option_value (st : State) (token : string)
    (rest : list string) (name v : string) (i : nat) (a : Arg) :
  it st = token :: rest ->
  is_terminator (self st) token = false ->
  predictLongOption st = true ->
  find_split (longSeparator_ (self st))
    (str_drop (size (longPrefix_ (self st))) token) = (name, Some v) ->
  name <> EmptyString ->
  find_from (fun o => String.eqb (longName_ o) name) 0 (options_ (self st))
  = Some (i, a) ->
  hasValue_ a = false ->
  parseOptions st
  = (Error ("Unexpected option value: " +++ token), set_it rest st).
Proof.
  intros Hit Ht Hp Hs Hn Hf Hv.
  apply (parseOptions_long_error st token rest); [exact Hit | exact Ht |].
  rewrite (parseLongOption_predicted st token rest name (Some v) Hit Hp Hs).
  unfold bind at 1.
  rewrite (getOption_found name i a (set_it rest st) Hn Hf), Hv.
  reflexivity.
Qed.

Lemma unexpected_option_value_witness :
  parseOptions (mkState value_parser value_mem ["--sss=1"; "y"] [])
  = (Error "Unexpected option value: --sss=1",
     mkState value_parser value_mem ["y"] []).
Proof.
  apply (unexpected_option_value
           (mkState value_parser value_mem ["--sss=1"; "y"] [])
           "--sss=1" ["y"] "sss" "1" 3
           (BoolArg "s" "sss" EmptyString false 3));
    try reflexivity.
  discriminate.
Defined.

(** X19: an option that takes a value and is written as the last token
    without one (by its long name without separator, or as the last
    character of a cluster) ends the options stage with [Cannot find
    value for option] and the whole token; its target is not
    assigned. *)
Theorem missing_option_value :
  (forall st token name i a,
     it st = [token] ->
     is_terminator (self st) token = false ->
     predictLongOption st = true ->
     find_split (longSeparator_ (self st))
       (str_drop (size (longPrefix_ (self st))) token) = (name, None) ->
     name <> EmptyString ->
     find_from (fun o => String.eqb (longName_ o) name) 0 (options_ (self st))
     = Some (i, a) ->
     hasValue_ a = true ->
     parseOptions st
     = (Error ("Cannot find value for option: " +++ token), set_it [] st))
  /\ (forall st token flags c i a,
        it st = [token] ->
        is_terminator (self st) token = false ->
        predictLongOption st = false ->
        predictShortOption st = true ->
        str_drop 1 token = flags +++ String c EmptyString ->
        plain_flags (options_ (self st)) flags = true ->
        c <> zero ->
        find_from (fun o => Ascii.eqb (shortName_ o) c) 0 (options_ (self st))
        = Some (i, a) ->
        hasValue_ a = true ->
        exists st',
          parseOptions st
          = (Error ("Cannot find value for option: " +++ token), st')
          /\ mem st' = replay (flag_writes (options_ (self st)) flags) (mem st)).
Proof.
  split.
  - intros st token name i a Hit Ht Hp Hs Hn Hf Hv.
    apply (parseOptions_long_error st token []); [exact Hit | exact Ht |].
    rewrite (parseLongOption_predicted st token [] name None Hit Hp Hs).
    unfold bind at 1.
    rewrite (getOption_found name i a (set_it [] st) Hn Hf), Hv.
    reflexivity.
  - intros st token flags c i a Hit Ht HL HS Hd Hp Hc Hf Hv.
    destruct (parseShortNames_flag_writes token flags (String c EmptyString)
                (set_it [] st) Hp) as (st1 & E & D & C & _ & M).
    exists st1. split; [| exact M].
    apply (parseOptions_short_error st token []); try assumption.
    rewrite (parseShortOptions_predicted st token [] Hit HS), Hd, E.
    destruct (find_from_same (fun o => Ascii.eqb (shortName_ o) c)
                (options_ (self (set_it [] st))) (options_ (self st1)) i a)
      as (a' & Hf' & Ea); [reflexivity | | exact Hf |].
    { apply declared_options. exact D. }
    cbn [parseShortNames]. unfold bind at 1.
    rewrite (getOption_char_found c i a' st1 Hc Hf').
    destruct (set_isDone_fields _ _ Ea) as (_ & _ & Hv' & _).
    rewrite Hv', Hv. unfold bind, parse_next. rewrite C. reflexivity.
Qed.

Lemma missing_option_value_witness :
  parseOptions (mkState value_parser value_mem ["--iii"] [])
  = (Error "Cannot find value for option: --iii",
     mkState value_parser value_mem [] [])
  /\ exists st',
       parseOptions (mkState value_parser value_mem ["-si"] [])
       = (Error "Cannot find value for option: -si", st')
       /\ mem st' = <[3 := SBool true]> value_mem.
Proof.
  split.
  - apply (proj1 missing_option_value
             (mkState value_parser value_mem ["--iii"] [])
             "--iii" "iii" 2
             (ValueArg (PInt true W32) "i" "iii" EmptyString EmptyString false 2
                (VInt 1)));
      try reflexivity.
    discriminate.
  - apply (proj2 missing_option_value
             (mkState value_parser value_mem ["-si"] [])
             "-si" "s" "i"%char 2
             (ValueArg (PInt true W32) "i" "iii" EmptyString EmptyString false 2
                (VInt 1)));
      try reflexivity.
    discriminate.
Defined.
(** ** A value option given more than once *)

(** The state after a value has been bound to an option: the assignment
    and the done flag. *)
Lemma bound_value (i : nat) (a : Arg) (T : Payload) (target : nat)
    (d v : Value) (V : string) (st : State) :
  derived a = DValue T target d ->
  fromString T V = Ok v ->
  exists st1,
    (parse_arg a V ;; done (InOptions i) a) st = (Ok tt, st1)
    /\ it st1 = it st
    /\ same_declaration st st1
    /\ history st1 = history st ++ [(target, SValue v)]
    /\ mem st1 = <[target := SValue v]> (mem st).
Proof.
  intros Hd Hv.
  pose proof (declaration_respected _ (staged_done (InOptions i) a)
                (write target (SValue v) st)) as D.
  unfold bind, parse_arg, doParse, done, bind, doDone in *.
  rewrite Hd, Hv in *. cbn [mark_done snd] in D |- *.
  eexists. split; [reflexivity |]. repeat split. exact D.
Qed.

Lemma set_it_same (st : State) : set_it (it st) st = st.
Proof. destruct st; reflexivity. Qed.

(** X20: when a value option is given twice by its long name, each
    occurrence is assigned in turn, so the variable holds the value of
    the last occurrence when the options stage goes on. *)
Theorem last_value_wins (st : State) (l V1 V2 : string) (v1 v2 : Value)
    (i : nat) (a : Arg) (T : Payload) (target : nat) (d : Value)
    (rest : list string) :
  isTerminated_ (self st) = false ->
  longPrefix_ (self st) <> EmptyString ->
  l <> EmptyString ->
  contains (longSeparator_ (self st)) l = false ->
  find_from (fun o => String.eqb (longName_ o) l) 0 (options_ (self st))
  = Some (i, a) ->
  derived a = DValue T target d ->
  hasValue_ a = true ->
  is_terminator (self st) (longPrefix_ (self st) +++ l) = false ->
  fromString T V1 = Ok v1 ->
  fromString T V2 = Ok v2 ->
  exists st',
    parseOptions
      (set_it ((longPrefix_ (self st) +++ l) :: V1
               :: (longPrefix_ (self st) +++ l) :: V2 :: rest) st)
    = parseOptions st'
    /\ it st' = rest
    /\ history st'
       = history st ++ [(target, SValue v1); (target, SValue v2)]
    /\ mem st' !! target = Some (SValue v2).
Proof.
  intros Hterm Hpre Hl Hsep Hf Hd Hv Ht F1 F2.
  set (long := longPrefix_ (self st) +++ l) in *.
  pose proof (form_long_separate st l V1 i a (long :: V2 :: rest)
                Hterm Hpre Hl Hsep Hf Hv Ht) as E1.
  fold long in E1.
  destruct (bound_value i a T target d v1 V1 (set_it (long :: V2 :: rest) st)
              Hd F1) as (st1 & B1 & I1 & D1 & H1 & M1).
  assert (E1' : parseOptions (set_it (long :: V1 :: long :: V2 :: rest) st)
                = parseOptions st1).
  { rewrite E1. unfold bind at 1. rewrite B1. reflexivity. }
  cbn [set_it it] in I1.
  assert (P1 : declared (self st1) = declared (self st)) by exact D1.
  assert (Esp : longPrefix_ (self st1) = longPrefix_ (self st))
    by exact (f_equal longPrefix_ P1).
  assert (Ese : longSeparator_ (self st1) = longSeparator_ (self st))
    by exact (f_equal longSeparator_ P1).
  assert (Ete : terminator_ (self st1) = terminator_ (self st))
    by exact (f_equal terminator_ P1).
  assert (Hterm1 : isTerminated_ (self st1) = false).
  { unfold bind, parse_arg, doParse, done, bind, doDone in B1.
    rewrite Hd, F1 in B1. injection B1 as <-. exact Hterm. }
  destruct (find_from_same (fun o => String.eqb (longName_ o) l)
              (options_ (self st)) (options_ (self st1)) i a)
    as (a' & Hf' & Ea); [reflexivity | | exact Hf |].
  { apply declared_options. exact P1. }
  destruct (set_isDone_fields _ _ Ea) as (_ & _ & Hv' & Hd').
  pose proof (form_long_separate st1 l V2 i a' rest) as E2.
  rewrite Esp, Ese in E2. fold long in E2.
  assert (Ht1 : is_terminator (self st1) long = false).
  { unfold is_terminator in Ht |- *. rewrite Hterm1, Ete.
    rewrite Hterm in Ht. exact Ht. }
  specialize (E2 Hterm1 Hpre Hl Hsep Hf' ltac:(congruence) Ht1).
  rewrite <- I1, set_it_same in E2.
  destruct (bound_value i a' T target d v2 V2 (set_it rest st1)
              ltac:(congruence) F2) as (st2 & B2 & I2 & D2 & H2 & M2).
  exists st2. split; [| split; [exact I2 | split]].
  - rewrite E1', E2. unfold bind at 1. rewrite B2. reflexivity.
  - rewrite H2. cbn [set_it history]. rewrite H1. cbn [set_it history].
    rewrite <- app_assoc. reflexivity.
  - rewrite M2. apply lookup_insert_eq.
Qed.

Lemma last_value_wins_witness :
  exists st',
    parseOptions
      (mkState out_parser out_mem ["--out"; "x"; "--out"; "y"; "z"] [])
    = parseOptions st'
    /\ it st' = ["z"]
    /\ history st' = [(0, SValue (VString "x")); (0, SValue (VString "y"))]
    /\ mem st' !! 0 = Some (SValue (VString "y")).
Proof.
  apply (last_value_wins (mkState out_parser out_mem [] []) "out" "x" "y"
           (VString "x") (VString "y") 0
           (ValueArg PString "o" "out" "FILE" EmptyString false 0 (VString "a"))
           PString 0 (VString "a") ["z"]);
    try reflexivity; discriminate.
Defined.
(** ** The tokens that the operands take *)

Lemma bound_terminated ptr (a : Arg) (v : string) (b : bool) (st : State) :
  isTerminated_ (self (snd ((parse_arg a v ;; done ptr a ;; ret b) st)))
  = isTerminated_ (self st).
Proof.
  unfold bind, parse_arg, doParse, done, bind, doDone, ret.
  destruct (derived a) as [| t | T t d | T t];
    try destruct (fromString T v); destruct ptr; reflexivity.
Qed.

Lemma bound_cursor ptr (a : Arg) (v : string) (b : bool) (st : State) :
  it (snd ((parse_arg a v ;; done ptr a ;; ret b) st)) = it st.
Proof.
  unfold bind, parse_arg, doParse, done, bind, doDone, ret.
  destruct (derived a) as [| t | T t d | T t];
    try destruct (fromString T v); destruct ptr; reflexivity.
Qed.

Lemma bound_again ptr (a : Arg) (v : string) (again : bool) (st st' : State) :
  (parse_arg a v ;; done ptr a ;; ret (isSink_ a)) st = (Ok again, st') ->
  again = isSink_ a.
Proof.
  unfold bind, parse_arg, doParse, done, bind, doDone, mark_done, ret.
  destruct (derived a) as [| t | T t d | T t];
    try destruct (fromString T v); destruct ptr; intros H;
    try discriminate; injection H as <-; reflexivity.
Qed.

Lemma parseTerminator_count (st : State) :
  fst (parseTerminator st) = Ok tt
  /\ length (it st) + terminators_left (snd (parseTerminator st))
     = length (it (snd (parseTerminator st))) + terminators_left st.
Proof.
  unfold parseTerminator, terminators_left.
  destruct (it st) as [| t rest] eqn:Hit.
  { cbn [snd fst]. rewrite Hit. tauto. }
  destruct (isTerminated_ (self st)) eqn:Ht; cbn [orb snd fst].
  - rewrite Hit, Ht. tauto.
  - destruct (Nat.eqb (size (terminator_ (self st))) 0
              || negb (String.eqb t (terminator_ (self st)))); cbn [snd fst].
    + rewrite Hit, Ht. tauto.
    + split; [reflexivity |].
      cbn [set_it set_self it self with_isTerminated isTerminated_ length].
      lia.
Qed.

(** An operand that is no sink takes at most one token, and the stage
    takes the terminator at most once. *)
Lemma parseOperandContent_count ptr operand st st' :
  isSink_ operand = false ->
  parseOperandContent ptr operand st = (Ok tt, st') ->
  length (it st) + terminators_left st'
  <= length (it st') + 1 + terminators_left st.
Proof.
  intros Hs. rewrite parseOperandContent_unroll. unfold bind at 1.
  unfold parseOperandContent_body. unfold bind at 1.
  destruct (parseTerminator_count st) as [Hok Hcount]. revert Hok Hcount.
  destruct (parseTerminator st) as [r st1]. cbn [fst snd].
  intros -> Hcount.
  destruct (it st1) as [| t rest] eqn:Hit.
  - intros [= <-]. cbn [length] in Hcount. lia.
  - destruct (predictLongOption st1 || predictShortOption st1);
      [discriminate |].
    pose proof (bound_terminated ptr operand t (isSink_ operand)
                  (set_it rest st1)) as HT.
    pose proof (bound_cursor ptr operand t (isSink_ operand)
                  (set_it rest st1)) as HC.
    pose proof (bound_again ptr operand t) as HA.
    destruct ((parse_arg operand t ;; done ptr operand ;; ret (isSink_ operand))
                (set_it rest st1)) as [[again | e | c l] st2] eqn:HB;
      try discriminate.
    rewrite (HA again (set_it rest st1) st2 HB), Hs.
    intros [= <-]. cbn [snd set_it it self] in HT, HC.
    unfold terminators_left in *. rewrite HT, HC. cbn [length] in Hcount. lia.
Qed.

Lemma parseOperands_from_count (ops : list Arg) :
  forallb (fun a => negb (isSink_ a)) ops = true ->
  forall i st st',
    parseOperands_from i ops st = (Ok tt, st') ->
    length (it st) + terminators_left st'
    <= length (it st') + length ops + terminators_left st.
Proof.
  induction ops as [| a r IH]; intros Hall i st st'.
  - intros [= <-]. cbn [length]. lia.
  - cbn [forallb] in Hall. apply andb_true_iff in Hall as [Ha Hr].
    apply negb_true_iff in Ha.
    cbn [parseOperands_from]. unfold bind.
    destruct (parseOperandContent (InOperands i) a st)
      as [[[] | e | c l] st1] eqn:H1; try discriminate.
    intros H2.
    pose proof (parseOperandContent_count _ _ _ _ Ha H1).
    pose proof (IH Hr _ _ _ H2). cbn [length]. lia.
Qed.

(** X21: when no operand is a sink, the operands stage takes at most
    one token for each declared operand, and the terminator at most
    once. *)
Theorem operands_consumption (st st' : State) :
  forallb (fun a => negb (isSink_ a)) (operands_ (self st)) = true ->
  parseOperands st = (Ok tt, st') ->
  length (it st) + terminators_left st'
  <= length (it st') + length (operands_ (self st)) + terminators_left st.
Proof.
  intros Hall H. unfold parseOperands in H.
  exact (parseOperands_from_count _ Hall _ _ _ H).
Qed.

Lemma operands_consumption_witness :
  length ["1"; "--"; "2"; "3"]
  + terminators_left
      (snd (parseOperands
              (mkState error_parser error_mem ["1"; "--"; "2"; "3"] [])))
  <= length
       (it (snd (parseOperands
                   (mkState error_parser error_mem ["1"; "--"; "2"; "3"] []))))
     + 2 + 1.
Proof.
  apply (operands_consumption
           (mkState error_parser error_mem ["1"; "--"; "2"; "3"] [])
           (snd (parseOperands
                   (mkState error_parser error_mem ["1"; "--"; "2"; "3"] [])))).
  - reflexivity.
  - vm_compute. reflexivity.
Defined.

(** X22: when no operand is a sink and more tokens are left for the
    operands than there are operands (the terminator, if still to come,
    counted apart), the parse does not end normally: a token is
    rejected by an operand or left over for the end check. *)
Theorem too_many_arguments (st : State) :
  forallb (fun a => negb (isSink_ a)) (operands_ (self st)) = true ->
  length (operands_ (self st)) + terminators_left st < length (it st) ->
  forall k : M unit,
    fst ((parseOperands ;; parseTerminator ;; checkEnd ;; k) st) <> Ok tt.
Proof.
  intros Hall Hlen k. unfold bind at 1.
  destruct (parseOperands st) as [[[] | e | c l] st1] eqn:H1;
    [| discriminate | discriminate].
  pose proof (parseOperands_from_count _ Hall _ _ _ H1) as Hc.
  unfold bind at 1.
  destruct (parseTerminator_count st1) as [Hok Hcount]. revert Hok Hcount.
  destruct (parseTerminator st1) as [r st2]. cbn [fst snd].
  intros -> Hcount. unfold bind, checkEnd.
  destruct (it st2) as [| t rest] eqn:Hit; [| discriminate].
  exfalso. cbn [length] in Hcount.
  unfold terminators_left in *.
  destruct (isTerminated_ (self st)), (isTerminated_ (self st1)),
    (isTerminated_ (self st2)); lia.
Qed.

Lemma too_many_arguments_witness :
  fst (parseArguments (mkState error_parser error_mem ["1"; "2"; "3"; "4"] []))
  <> Ok tt.
Proof.
  assert (E : parseOptions
                (mkState error_parser error_mem ["1"; "2"; "3"; "4"] [])
              = (Ok tt, mkState error_parser error_mem ["1"; "2"; "3"; "4"] []))
    by (vm_compute; reflexivity).
  unfold parseArguments. unfold bind at 1. rewrite E.
  apply (too_many_arguments
           (mkState error_parser error_mem ["1"; "2"; "3"; "4"] [])).
  - reflexivity.
  - vm_compute. lia.
Defined.
(** ** The shape of an integer token *)

Lemma scan_digits_shift (base : Z) (s : string) : forall acc n k,
  scan_digits base s acc (n + k)
  = (fst (scan_digits base s acc n), snd (scan_digits base s acc n) + k).
Proof.
  induction s as [| c r IH]; intros acc n k; [reflexivity |].
  rewrite !scan_digits_cons.
  destruct (digit_value c) as [d |]; [| reflexivity].
  destruct (d <? base)%Z; [| reflexivity].
  change (S (n + k)) with (S n + k). apply IH.
Qed.

Lemma skip_space_shift (s : string) : forall n k,
  skip_space s (n + k) = (fst (skip_space s n), snd (skip_space s n) + k).
Proof.
  induction s as [| c r IH]; intros n k; [reflexivity |].
  rewrite !skip_space_cons. destruct (isspace c); [| reflexivity].
  change (S (n + k)) with (S n + k). apply IH.
Qed.

Lemma read_sign_shift (s : string) (n k : nat) :
  read_sign s (n + k)
  = (fst (read_sign s n), snd (read_sign s n) + k).
Proof.
  destruct s as [| c r]; [reflexivity |].
  destruct c as [[] [] [] [] [] [] [] []]; reflexivity.
Qed.

Lemma skip_hex_prefix_shift (base : Z) (s : string) (n k : nat) :
  skip_hex_prefix base s (n + k)
  = (fst (skip_hex_prefix base s n), snd (skip_hex_prefix base s n) + k).
Proof.
  destruct s as [| c [| x [| h r]]]; try reflexivity;
    destruct c as [[] [] [] [] [] [] [] []]; try reflexivity.
  unfold skip_hex_prefix.
  destruct ((base =? 16)%Z && (Ascii.eqb x "x" || Ascii.eqb x "X")
            && is_digit 16 h); reflexivity.
Qed.

Lemma isspace_plain (c : ascii) :
  isspace c = true ->
  Ascii.eqb c "-" = false /\ contains c "Xx" = false.
Proof.
  destruct c as [[] [] [] [] [] [] [] []]; intros H; vm_compute in H;
    try discriminate H; split; reflexivity.
Qed.

Lemma strto_subject_space (c : ascii) (s : string) (base : Z) :
  isspace c = true ->
  strto_subject (String c s) base
  = match strto_subject s base with
    | Some (neg, mag, pos) => Some (neg, mag, S pos)
    | None => None
    end.
Proof.
  intros Hc. unfold strto_subject. rewrite skip_space_cons, Hc.
  change 1 with (0 + 1). rewrite skip_space_shift.
  destruct (skip_space s 0) as [s1 n1]. cbn [fst snd].
  rewrite read_sign_shift.
  destruct (read_sign s1 n1) as [[neg s2] n2]. cbn [fst snd].
  rewrite skip_hex_prefix_shift.
  destruct (skip_hex_prefix base s2 n2) as [s3 n3]. cbn [fst snd].
  rewrite scan_digits_shift.
  destruct (scan_digits base s3 0 n3) as [mag n4]. cbn [fst snd].
  rewrite !Nat.add_1_r. cbn [Nat.eqb].
  destruct (Nat.eqb n4 n3); reflexivity.
Qed.

Lemma stoll_space (c : ascii) (s : string) (base : Z) :
  isspace c = true ->
  stoll (String c s) base
  = match stoll s base with
    | StoValue v p => StoValue v (S p)
    | StoInvalidArgument => StoInvalidArgument
    | StoOutOfRange => StoOutOfRange
    end.
Proof.
  intros Hc. unfold stoll. rewrite (strto_subject_space c s base Hc).
  destruct (strto_subject s base) as [[[neg mag] pos] |]; [| reflexivity].
  match goal with |- context [if ?b then StoValue _ _ else _] =>
    destruct b end; reflexivity.
Qed.

Lemma stoull_space (c : ascii) (s : string) (base : Z) :
  isspace c = true ->
  stoull (String c s) base
  = match stoull s base with
    | StoValue v p => StoValue v (S p)
    | StoInvalidArgument => StoInvalidArgument
    | StoOutOfRange => StoOutOfRange
    end.
Proof.
  intros Hc. unfold stoull. rewrite (strto_subject_space c s base Hc).
  destruct (strto_subject s base) as [[[neg mag] pos] |]; [| reflexivity].
  destruct (mag <=? ULLONG_MAX)%Z; reflexivity.
Qed.

(** X23: white space before an integer token is skipped: a token
    with a white-space character put in front is accepted at an
    integral type exactly when the token is, and with the same value. *)
Theorem leading_space_skipped (sg : bool) (w : Width) (c : ascii)
    (s : string) (v : Z) :
  isspace c = true ->
  fromString_int sg w (String c s) = Ok v <-> fromString_int sg w s = Ok v.
Proof.
  intros Hc. destruct (isspace_plain c Hc) as [Hm Hx].
  assert (Hb : base_of (String c s) = base_of s).
  { unfold base_of. cbn [contains_any]. rewrite Hx. reflexivity. }
  assert (Hn : contains "-" (String c s) = contains "-" s).
  { cbn [contains]. rewrite Hm. reflexivity. }
  unfold fromString_int, toLongest. rewrite Hb, Hn.
  rewrite (stoll_space c s _ Hc), (stoull_space c s _ Hc).
  change (size (String c s)) with (S (size s)).
  destruct sg.
  - destruct (stoll s (base_of s)) as [value pos | |];
      [| split; discriminate | split; discriminate].
    cbn [Nat.eqb].
    match goal with |- context [if ?b then Ok _ else _] => destruct b end;
      [tauto | split; discriminate].
  - destruct (contains "-" s); [split; discriminate |].
    destruct (stoull s (base_of s)) as [value pos | |];
      [| split; discriminate | split; discriminate].
    cbn [Nat.eqb].
    match goal with |- context [if ?b then Ok _ else _] => destruct b end;
      [tauto | split; discriminate].
Qed.

Lemma leading_space_skipped_witness :
  fromString_int true W32 (String " " "-42") = Ok (-42)%Z
  <-> fromString_int true W32 "-42" = Ok (-42)%Z.
Proof. apply (leading_space_skipped true W32 " " "-42" (-42)). reflexivity. Defined.

Lemma last_char_cons (c : ascii) (r : string) :
  r <> EmptyString -> last_char (String c r) = last_char r.
Proof. destruct r; [congruence | reflexivity]. Qed.

Lemma scan_digits_count (base : Z) (s : string) : forall acc n,
  n <= snd (scan_digits base s acc n) <= n + size s
  /\ (snd (scan_digits base s acc n) = n + size s -> s <> EmptyString ->
      exists c, last_char s = Some c /\ is_digit base c = true).
Proof.
  induction s as [| c r IH]; intros acc n.
  - cbn [scan_digits snd size String.length]. split; [lia | congruence].
  - rewrite scan_digits_cons. change (size (String c r)) with (S (size r)).
    destruct (digit_value c) as [d |] eqn:Hd.
    + destruct (d <? base)%Z eqn:Hlt.
      * destruct (IH (acc * base + d)%Z (S n)) as [H1 H2].
        split; [lia |]. intros Hn _.
        destruct r as [| c' r'].
        -- exists c. split; [reflexivity |].
           unfold is_digit. rewrite Hd. exact Hlt.
        -- rewrite last_char_cons by discriminate.
           apply H2; [lia | discriminate].
      * cbn [snd]. split; [lia |]. intros; lia.
    + cbn [snd]. split; [lia |]. intros; lia.
Qed.

Lemma skip_space_count (s : string) : forall n,
  size (fst (skip_space s n)) + snd (skip_space s n) = size s + n
  /\ n <= snd (skip_space s n)
  /\ (fst (skip_space s n) <> EmptyString ->
      last_char (fst (skip_space s n)) = last_char s).
Proof.
  induction s as [| c r IH]; intros n; [repeat split; reflexivity |].
  rewrite skip_space_cons. destruct (isspace c).
  - destruct (IH (S n)) as (H1 & H2 & H3).
    change (size (String c r)) with (S (size r)).
    split; [lia |]. split; [lia |].
    intros Hne. rewrite (H3 Hne). symmetry. apply last_char_cons.
    intros ->. apply Hne. reflexivity.
  - repeat split; reflexivity.
Qed.

Lemma read_sign_count (s : string) (n : nat) :
  size (snd (fst (read_sign s n))) + snd (read_sign s n) = size s + n
  /\ n <= snd (read_sign s n)
  /\ (snd (fst (read_sign s n)) <> EmptyString ->
      last_char (snd (fst (read_sign s n))) = last_char s).
Proof.
  destruct s as [| c r]; [repeat split; reflexivity |].
  destruct c as [[] [] [] [] [] [] [] []];
    cbn [read_sign fst snd]; try (repeat split; reflexivity);
    change (size (String ?x r)) with (S (size r));
    (split; [lia |]); (split; [lia |]);
    intros Hne; symmetry; apply last_char_cons; exact Hne.
Qed.

Lemma skip_hex_prefix_count (base : Z) (s : string) (n : nat) :
  size (fst (skip_hex_prefix base s n)) + snd (skip_hex_prefix base s n)
  = size s + n
  /\ n <= snd (skip_hex_prefix base s n)
  /\ (fst (skip_hex_prefix base s n) <> EmptyString ->
      last_char (fst (skip_hex_prefix base s n)) = last_char s).
Proof.
  destruct s as [| c [| x [| h r]]]; try (repeat split; reflexivity);
    destruct c as [[] [] [] [] [] [] [] []]; try (repeat split; reflexivity).
  unfold skip_hex_prefix.
  destruct ((base =? 16)%Z && (Ascii.eqb x "x" || Ascii.eqb x "X")
            && is_digit 16 h); [| repeat split; reflexivity].
  cbn [fst snd]. split; [| split; [lia | reflexivity]].
  cbn [size String.length]. lia.
Qed.

(** The subject sequence never passes the end of the text, and reaches
    it only on a digit of the base. *)
Lemma strto_subject_last (s : string) (base : Z) (neg : bool) (mag : Z)
    (pos : nat) :
  strto_subject s base = Some (neg, mag, pos) ->
  pos <= size s
  /\ (pos = size s ->
      exists c, last_char s = Some c /\ is_digit base c = true).
Proof.
  unfold strto_subject.
  destruct (skip_space_count s 0) as (A1 & A0 & A2). revert A1 A0 A2.
  destruct (skip_space s 0) as [s1 n1]. cbn [fst snd]. intros A1 A0 A2.
  pose proof (read_sign_count s1 n1) as (B1 & B0 & B2). revert B1 B0 B2.
  destruct (read_sign s1 n1) as [[ng s2] n2]. cbn [fst snd]. intros B1 B0 B2.
  pose proof (skip_hex_prefix_count base s2 n2) as (C1 & C0 & C2).
  revert C1 C0 C2.
  destruct (skip_hex_prefix base s2 n2) as [s3 n3]. cbn [fst snd].
  intros C1 C0 C2.
  pose proof (scan_digits_count base s3 0 n3) as [D1 D2]. revert D1 D2.
  destruct (scan_digits base s3 0 n3) as [m n4]. cbn [fst snd]. intros D1 D2.
  destruct (Nat.eqb_spec n4 n3) as [| Hne]; [discriminate |].
  intros [= -> -> ->]. split; [lia |]. intros Hpos.
  assert (H3 : s3 <> EmptyString).
  { intros ->. cbn [size String.length] in D1. lia. }
  destruct (D2 ltac:(lia) H3) as (c & Hc & Hd).
  exists c. split; [| exact Hd].
  assert (N3 : 0 < size s3) by (destruct s3; [congruence | cbn; lia]).
  assert (H2 : s2 <> EmptyString).
  { intros ->. cbn [size String.length] in C1. lia. }
  assert (N2 : 0 < size s2) by (destruct s2; [congruence | cbn; lia]).
  assert (H1 : s1 <> EmptyString).
  { intros ->. cbn [size String.length] in B1. lia. }
  rewrite <- (A2 H1), <- (B2 H2), <- (C2 H3). exact Hc.
Qed.

(** X24: an integer token is accepted only as a whole: a token that is
    accepted at an integral type ends in a digit of its base (so
    anything after the number, white space included, is rejected), and
    at an unsigned type it holds no minus sign anywhere. *)
Theorem accepted_integer_token (sg : bool) (w : Width) (s : string) (v : Z) :
  fromString_int sg w s = Ok v ->
  (exists c, last_char s = Some c /\ is_digit (base_of s) c = true)
  /\ (sg = false -> contains "-" s = false).
Proof.
  unfold fromString_int, toLongest, stoll, stoull. intros H. split.
  - destruct sg.
    + destruct (strto_subject s (base_of s)) as [[[neg mag] pos] |] eqn:Hs;
        [| discriminate].
      destruct (strto_subject_last _ _ _ _ _ Hs) as [_ Hlast].
      match type of H with context [if ?b then StoValue _ _ else _] =>
        destruct b end; [| discriminate].
      destruct (Nat.eqb_spec pos (size s)) as [Hp | Hp]; [| discriminate].
      exact (Hlast Hp).
    + destruct (contains "-" s); [discriminate |].
      destruct (strto_subject s (base_of s)) as [[[neg mag] pos] |] eqn:Hs;
        [| discriminate].
      destruct (strto_subject_last _ _ _ _ _ Hs) as [_ Hlast].
      destruct (mag <=? ULLONG_MAX)%Z; [| discriminate].
      destruct (Nat.eqb_spec pos (size s)) as [Hp | Hp]; [| discriminate].
      exact (Hlast Hp).
  - intros ->. destruct (contains "-" s); [discriminate | reflexivity].
Qed.

Lemma accepted_integer_token_witness :
  (exists c, last_char "0x1F" = Some c /\ is_digit (base_of "0x1F") c = true)
  /\ (false = false -> contains "-" "0x1F" = false).
Proof. apply (accepted_integer_token false W8 "0x1F" 31). reflexivity. Defined.

(** ** The shape of a token read through a stream *)



(** ** The default value of an optional argument *)

Lemma put_integer_not_empty (z : Z) : put_integer z <> EmptyString.
Proof.
  unfold put_integer. destruct (z <? 0)%Z eqn:Hz; [discriminate |].
  apply Z.ltb_ge in Hz.
  destruct (put_digits_head (Z.to_nat (Z.log2 z)) z EmptyString Hz)
    as (d & r & _ & ->).
  discriminate.
Qed.

(** X25: with an intro set, an optional value argument shows its
    default in the glossary exactly when the text of the default is not
    empty.  The text of an integer, of a string (two quotes at least)
    and of a floating-point value is never empty, so these always show
    one; a type of the caller shows what its [operator<<] writes, and
    nothing when that is nothing.  A required argument, a flag, a
    signal and a sink never show one, and without an intro no argument
    does. *)
Theorem default_shown (p : Parser) :
  (forall T c l vn ds target v,
     defaultIntro_ p <> EmptyString ->
     entryDescription p (ValueArg T c l vn ds false target v)
     = tokenize ds
       ++ (if Nat.eqb (size (toString T v)) 0 then []
           else ["(" +++ defaultIntro_ p +++ toString T v +++ ")"]))
  /\ (forall sg w z, toString (PInt sg w) (VInt z) <> EmptyString)
  /\ (forall s, toString PString (VString s) <> EmptyString)
  /\ (forall f x, toString (PFloat f) (VFloat x) <> EmptyString)
  /\ (forall U x, toString (PStream U) (VStream U x) = insert U x)
  /\ (forall U c l vn ds target x,
        insert U x = EmptyString ->
        entryDescription p
          (ValueArg (PStream U) c l vn ds false target (VStream U x))
        = tokenize ds)
  /\ (forall T c l vn ds target v,
        entryDescription p (ValueArg T c l vn ds true target v) = tokenize ds)
  /\ (forall c l ds req target,
        entryDescription p (BoolArg c l ds req target) = tokenize ds)
  /\ (forall c l ds, entryDescription p (SignalArg c l ds) = tokenize ds)
  /\ (forall T vn ds req target,
        entryDescription p (SinkArg T vn ds req target) = tokenize ds)
  /\ (forall a,
        defaultIntro_ p = EmptyString ->
        entryDescription p a = tokenize (description_ a)).
Proof.
  split; [| split; [| split; [| split; [| split; [| split;
    [| split; [| split; [| split; [| split]]]]]]]]].
  - intros T c l vn ds target v Hintro.
    unfold entryDescription, getDefaultValue, doGetDefaultValue.
    cbn [ValueArg isRequired_ derived description_].
    rewrite (size_nonzero _ Hintro).
    destruct (Nat.eqb (size (toString T v)) 0);
      [apply eq_sym, app_nil_r | reflexivity].
  - intros sg w z. cbn [toString]. apply put_integer_not_empty.
  - intros s. discriminate.
  - intros f x. cbn [toString float_type insert].
    apply insert_float_not_empty.
  - reflexivity.
  - intros U c l vn ds target x Hx.
    unfold entryDescription, getDefaultValue, doGetDefaultValue.
    cbn [ValueArg isRequired_ derived description_ toString]. rewrite Hx.
    cbn [size String.length Nat.eqb negb].
    destruct (negb _); reflexivity.
  - intros. unfold entryDescription, getDefaultValue.
    cbn [ValueArg isRequired_ description_ size String.length Nat.eqb negb].
    destruct (negb _); reflexivity.
  - intros c l ds req target.
    unfold entryDescription, getDefaultValue, doGetDefaultValue.
    cbn [BoolArg isRequired_ derived description_].
    destruct req; cbn [size String.length Nat.eqb negb];
      destruct (negb _); reflexivity.
  - intros. unfold entryDescription, getDefaultValue, doGetDefaultValue.
    cbn [SignalArg isRequired_ derived description_ size String.length
         Nat.eqb negb].
    destruct (negb _); reflexivity.
  - intros T vn ds req target.
    unfold entryDescription, getDefaultValue, doGetDefaultValue.
    cbn [SinkArg isRequired_ derived description_].
    destruct req; cbn [size String.length Nat.eqb negb];
      destruct (negb _); reflexivity.
  - intros a Hintro. unfold entryDescription. rewrite Hintro. reflexivity.
Qed.

Lemma default_shown_witness :
  (entryDescription (newParser EmptyString EmptyString)
     (ValueArg PString "o" "out" "FILE" "Output file." false 0
        (VString EmptyString))
   = ["Output"; "file."; "(default: " +++ String dquote (String dquote ")")])
  /\ (entryDescription (newParser EmptyString EmptyString)
        (ValueArg (PFloat Binary32) "r" "ratio" "R" "Ratio." false 0
           (VFloat (FFinite false 1 (-1))))
      = ["Ratio."; "(default: 0.5)"])
  /\ (entryDescription (newParser EmptyString EmptyString)
        (ValueArg (PStream YesNo) "y" EmptyString "YY" "Yy" false 0
           (VStream YesNo false))
      = ["Yy"; "(default: no)"])
  /\ (entryDescription (newParser EmptyString EmptyString)
        (ValueArg
           (PStream (mkStreamType unit tt (fun st v => (st, v))
                       (fun _ => EmptyString)))
           "u" "unit" "U" "Nothing to show." false 0
           (VStream (mkStreamType unit tt (fun st v => (st, v))
                       (fun _ => EmptyString)) tt))
      = ["Nothing"; "to"; "show."]).
Proof.
  split; [| split; [| split]].
  - apply (proj1 (default_shown (newParser EmptyString EmptyString))
             PString "o"%char "out" "FILE" "Output file." 0
             (VString EmptyString)).
    discriminate.
  - apply (proj1 (default_shown (newParser EmptyString EmptyString))
             (PFloat Binary32) "r"%char "ratio" "R" "Ratio." 0
             (VFloat (FFinite false 1 (-1)))).
    discriminate.
  - apply (proj1 (default_shown (newParser EmptyString EmptyString))
             (PStream YesNo) "y"%char EmptyString "YY" "Yy" 0
             (VStream YesNo false)).
    discriminate.
  - apply (proj1 (default_shown (newParser EmptyString EmptyString))
             (PStream (mkStreamType unit tt (fun st v => (st, v))
                         (fun _ => EmptyString)))
             "u"%char "unit" "U" "Nothing to show." 0
             (VStream (mkStreamType unit tt (fun st v => (st, v))
                         (fun _ => EmptyString)) tt)).
    discriminate.
Defined.
(** ** The usage line and the help text as a whole *)

Lemma writeUsage_tokens (p : Parser) :
  writeUsage p
  = if Nat.eqb (size (usageTitle_ p)) 0 then EmptyString
    else
      usageTitle_ p +++ String newline (spaces (helpIndent_ p)) +++
      writeWrapped p (usageTokens p) (helpIndent_ p) (helpIndent_ p * 2) +++
      String newline (String newline EmptyString).
Proof. reflexivity. Qed.

(** X26: the usage section is rendered with every line within the help
    width when its title fits, the indent is within the width and every
    token of the usage line fits one column after the hanging indent,
    which is twice the indent. *)
Theorem usage_within_width (p : Parser) :
  contains newline (usageTitle_ p) = false ->
  size (usageTitle_ p) <= helpWidth_ p ->
  helpIndent_ p <= helpWidth_ p ->
  forallb (fits (helpWidth_ p) (helpIndent_ p * 2 + 1)) (usageTokens p)
  = true ->
  lines_within (helpWidth_ p) 0 (writeUsage p) = true.
Proof.
  intros Hnl Htitle Hind Hfit. rewrite writeUsage_tokens.
  destruct (Nat.eqb (size (usageTitle_ p)) 0); [reflexivity |].
  rewrite lines_within_append by exact Hnl.
  change (String newline ?x +++ ?y) with (String newline (x +++ y)).
  cbn [lines_within]. rewrite Ascii.eqb_refl.
  apply andb_true_iff. split; [apply Nat.leb_le; lia |].
  rewrite lines_within_append by apply contains_newline_spaces.
  rewrite size_spaces, lines_within_newline.
  apply andb_true_iff. split; [| reflexivity].
  unfold writeWrapped.
  apply (wrapped_within (helpWidth_ p) (helpIndent_ p * 2) 1);
    [exact Hfit | lia | right; split; lia].
Qed.

Lemma usage_within_width_witness :
  lines_within 21 0
    (writeUsage
       (setHelpWidth 21
          (setUtilityName "prog"
             (addOption_bool 0 "a" "all" EmptyString false
                (addOption_bool 1 "v" "verbose" EmptyString false
                   (addOperandSink PString 2 "FILE" EmptyString true
                      (newParser EmptyString EmptyString)))))))
  = true.
Proof.
  apply (usage_within_width
           (setHelpWidth 21
              (setUtilityName "prog"
                 (addOption_bool 0 "a" "all" EmptyString false
                    (addOption_bool 1 "v" "verbose" EmptyString false
                       (addOperandSink PString 2 "FILE" EmptyString true
                          (newParser EmptyString EmptyString)))))));
    [reflexivity | vm_compute; lia | vm_compute; lia | reflexivity].
Defined.

(** A section of the help text is empty or ends in a newline, so the
    next section starts at the first column. *)
Lemma lines_within_section (w : nat) (x s : string) :
  lines_within w 0 ((x +++ String newline EmptyString) +++ s)
  = lines_within w 0 (x +++ String newline EmptyString)
    && lines_within w 0 s.
Proof.
  rewrite append_assoc.
  change (String newline EmptyString +++ s) with (String newline s).
  rewrite !lines_within_newline. cbn [lines_within Nat.leb].
  rewrite andb_true_r. reflexivity.
Qed.

Lemma writeParagraph_section (p : Parser) (text : string) :
  writeParagraph p text = EmptyString
  \/ exists x, writeParagraph p text = x +++ String newline EmptyString.
Proof.
  unfold writeParagraph. destruct text as [| c r]; [left; reflexivity |].
  right. exists (writeWrapped p (tokenize (String c r)) 0 0
                 +++ String newline EmptyString).
  rewrite append_assoc. reflexivity.
Qed.

Lemma writeUsage_section (p : Parser) :
  writeUsage p = EmptyString
  \/ exists x, writeUsage p = x +++ String newline EmptyString.
Proof.
  rewrite writeUsage_tokens.
  destruct (Nat.eqb (size (usageTitle_ p)) 0); [left; reflexivity |].
  right.
  exists (usageTitle_ p +++ String newline (spaces (helpIndent_ p)) +++
          writeWrapped p (usageTokens p) (helpIndent_ p) (helpIndent_ p * 2)
          +++ String newline EmptyString).
  rewrite !append_assoc. reflexivity.
Qed.

Lemma writeGlossary_section (p : Parser) (title : string) (args : list Arg) :
  writeGlossary p title args = EmptyString
  \/ exists x, writeGlossary p title args = x +++ String newline EmptyString.
Proof.
  unfold writeGlossary.
  destruct (Nat.eqb (size title) 0 || Nat.eqb (length args) 0);
    [left; reflexivity |].
  right.
  exists (title +++ String newline
            (concat_strings
               (map (writeEntry p
                       (helpIndent_ p
                        + maxTermSize
                            (map (makeEntry p (hasAnyShortName args)) args)
                        + helpIndent_ p))
                  (map (makeEntry p (hasAnyShortName args)) args)))).
  rewrite append_assoc. reflexivity.
Qed.

Lemma lines_within_sections (w : nat) (a s : string) :
  a = EmptyString \/ (exists x, a = x +++ String newline EmptyString) ->
  lines_within w 0 a = true -> lines_within w 0 s = true ->
  lines_within w 0 (a +++ s) = true.
Proof.
  intros [-> | [x ->]] Ha Hs; [exact Hs |].
  rewrite lines_within_section, Ha, Hs. reflexivity.
Qed.

(** X27: the sections of the help text do not affect each other: each
    section is empty or ends in a newline, so when the prolog, the
    usage, the two glossaries and the epilog are each within the help
    width, the whole help text is. *)
Theorem help_within_width (p : Parser) :
  lines_within (helpWidth_ p) 0 (writeParagraph p (helpProlog_ p)) = true ->
  lines_within (helpWidth_ p) 0 (writeUsage p) = true ->
  lines_within (helpWidth_ p) 0
    (writeGlossary p (optionsTitle_ p) (options_ p)) = true ->
  lines_within (helpWidth_ p) 0
    (writeGlossary p (operandsTitle_ p) (operands_ p)) = true ->
  lines_within (helpWidth_ p) 0 (writeParagraph p (helpEpilog_ p)) = true ->
  lines_within (helpWidth_ p) 0 (writeHelp p) = true.
Proof.
  intros H1 H2 H3 H4 H5. unfold writeHelp.
  apply lines_within_sections;
    [apply writeParagraph_section | exact H1 |].
  apply lines_within_sections; [apply writeUsage_section | exact H2 |].
  apply lines_within_sections; [apply writeGlossary_section | exact H3 |].
  apply lines_within_sections; [apply writeGlossary_section | exact H4 |].
  exact H5.
Qed.

Lemma help_within_width_witness :
  lines_within 21 0
    (writeHelp
       (addOption_bool 0 "a" "all" "Show all the entries of the list"
          false
          (setHelpWidth 21 (newParser "A short prolog." "The end."))))
  = true.
Proof.
  apply (help_within_width
           (addOption_bool 0 "a" "all" "Show all the entries of the list"
              false
              (setHelpWidth 21 (newParser "A short prolog." "The end."))));
    vm_compute; reflexivity.
Defined.
(** ** Operands are bound in the order of declaration *)

Lemma bound_operand (i : nat) (a : Arg) (T : Payload) (target : nat)
    (d v : Value) (t : string) (st : State) :
  derived a = DValue T target d ->
  fromString T t = Ok v ->
  exists st1,
    (parse_arg a t ;; done (InOperands i) a) st = (Ok tt, st1)
    /\ it st1 = it st
    /\ history st1 = history st ++ [(target, SValue v)]
    /\ mem st1 = <[target := SValue v]> (mem st)
    /\ forall x, plain_token (self st1) x = plain_token (self st) x.
Proof.
  intros Hd Hv. unfold bind, parse_arg, doParse, done, bind, doDone.
  rewrite Hd, Hv. eexists. split; [reflexivity |]. repeat split.
Qed.

Lemma plain_token_bound (p : Parser) (t : string) :
  plain_token p t = true ->
  is_terminator p t = false
  /\ negb (isTerminated_ p) && (looks_like_long p t || looks_like_short p t)
     = false.
Proof.
  unfold plain_token. intros H. apply andb_true_iff in H as [H1 H2].
  apply negb_true_iff in H1, H2. split; assumption.
Qed.

(** X28: the first token that is neither the terminator nor shaped like
    an option ends the options stage: the stage returns at once, with
    the token left under the cursor for the operands, so options are
    only recognised before the first operand. *)
Theorem first_operand_ends_options (st : State) (t : string)
    (rest : list string) :
  it st = t :: rest ->
  plain_token (self st) t = true ->
  parseOptions st = (Ok tt, st).
Proof.
  intros Hit Hp. destruct (plain_token_bound _ _ Hp) as [Ht Hl].
  rewrite andb_orb_distrib_r in Hl. apply orb_false_iff in Hl as [HL HS].
  rewrite <- (predictLongOption_spec st t rest Hit) in HL.
  rewrite <- (predictShortOption_spec st t rest Hit) in HS.
  rewrite parseOptions_unroll. unfold bind at 1.
  rewrite (parseOptions_body_not_terminator st t rest Hit Ht).
  unfold bind.
  rewrite (parseLongOption_not_predicted st HL), moved_same.
  rewrite (parseShortOptions_not_predicted st HS), moved_same.
  reflexivity.
Qed.

Lemma first_operand_ends_options_witness :
  parseOptions (mkState value_parser value_mem ["file"; "-s"] [])
  = (Ok tt, mkState value_parser value_mem ["file"; "-s"] []).
Proof.
  apply (first_operand_ends_options
           (mkState value_parser value_mem ["file"; "-s"] []) "file" ["-s"]);
    reflexivity.
Defined.

Lemma forallb_same (f g : string -> bool) (l : list string) :
  (forall x, f x = g x) -> forallb f l = forallb g l.
Proof.
  intros H. induction l as [| x r IH]; [reflexivity |].
  cbn [forallb]. rewrite H, IH. reflexivity.
Qed.

Lemma parseOperands_from_positional (ops : list Arg) :
  forall i st ws,
    operand_writes ops (it st) = Some ws ->
    forallb (plain_token (self st)) (firstn (length ops) (it st)) = true ->
    exists st',
      parseOperands_from i ops st = (Ok tt, st')
      /\ it st' = skipn (length ops) (it st)
      /\ history st' = history st ++ ws
      /\ mem st' = replay ws (mem st).
Proof.
  induction ops as [| a ops' IH]; intros i st ws Hw Hp.
  - cbn [operand_writes] in Hw. injection Hw as <-.
    exists st. rewrite app_nil_r. repeat split; reflexivity.
  - destruct (it st) as [| t rest] eqn:Hit.
    + cbn [operand_writes] in Hw. injection Hw as <-.
      exists st. rewrite (parseOperands_from_end _ _ _ Hit), app_nil_r, Hit.
      repeat split; reflexivity.
    + cbn [operand_writes] in Hw.
      destruct (derived a) as [| tg | T target d | T tg] eqn:Hd;
        try discriminate.
      destruct (fromString T t) as [v | e | c l] eqn:Hv; try discriminate.
      destruct (isSink_ a) eqn:Hs; [discriminate |].
      destruct (operand_writes ops' rest) as [ws' |] eqn:Hw'; [| discriminate].
      injection Hw as <-.
      cbn [length firstn forallb] in Hp.
      apply andb_true_iff in Hp as [Hpt Hpr].
      destruct (plain_token_bound _ _ Hpt) as [Ht Hl].
      destruct (bound_operand i a T target d v t (set_it rest st) Hd Hv)
        as (st1 & B & I1 & H1 & M1 & P1).
      cbn [set_it it history mem self] in I1, H1, M1, P1.
      destruct (IH (S i) st1 ws') as (st' & E & I' & H' & M').
      { rewrite I1. exact Hw'. }
      { rewrite I1. rewrite <- Hpr. apply forallb_same. exact P1. }
      exists st'. split; [| split; [| split]].
      * cbn [parseOperands_from]. unfold bind at 1.
        rewrite (parseOperandContent_bound (InOperands i) a st t rest Hit Ht Hl).
        rewrite Hs. rewrite <- bind_assoc. unfold bind at 1. rewrite B.
        exact E.
      * rewrite I', I1. reflexivity.
      * rewrite H', H1, <- app_assoc. reflexivity.
      * rewrite M', M1. reflexivity.
Qed.

(** X29: operands are positional: when the tokens under the cursor are
    neither the terminator nor shaped like options and each is a value
    of the type of the operand at its place, the operands stage assigns
    the first token to the first declared operand, the second to the
    second, and so on, and leaves the cursor after the last token
    bound; tokens beyond the declared operands are left, operands
    beyond the tokens are not assigned. *)
Theorem positional_operands (st : State) (ws : list (nat * Slot)) :
  operand_writes (operands_ (self st)) (it st) = Some ws ->
  forallb (plain_token (self st))
    (firstn (length (operands_ (self st))) (it st)) = true ->
  exists st',
    parseOperands st = (Ok tt, st')
    /\ it st' = skipn (length (operands_ (self st))) (it st)
    /\ history st' = history st ++ ws
    /\ mem st' = replay ws (mem st).
Proof.
  intros Hw Hp. unfold parseOperands.
  exact (parseOperands_from_positional _ 0 st ws Hw Hp).
Qed.

Lemma positional_operands_witness :
  exists st',
    parseOperands
      (mkState (setShortOptionPrefix "+" error_parser) error_mem
         ["7"; "-8"; "x"] [])
    = (Ok tt, st')
    /\ it st' = ["x"]
    /\ history st' = [(3, SValue (VInt 7)); (4, SValue (VInt (-8)))]
    /\ mem st'
       = replay [(3, SValue (VInt 7)); (4, SValue (VInt (-8)))] error_mem.
Proof.
  apply (positional_operands
           (mkState (setShortOptionPrefix "+" error_parser) error_mem
              ["7"; "-8"; "x"] [])
           [(3, SValue (VInt 7)); (4, SValue (VInt (-8)))]);
    vm_compute; reflexivity.
Defined.

(** ** The embedding on the cases of the test suite *)

Example test_value_option_forms :
  after (parse value_parser value_mem ["prog"; "-a"; "A"]) 0
  = Some (SValue (VString "A"))
  /\ after (parse value_parser value_mem ["prog"; "-aA"]) 0
     = Some (SValue (VString "A"))
  /\ after (parse value_parser value_mem ["prog"; "--bbb"; "B"]) 1
     = Some (SValue (VString "B"))
  /\ after (parse value_parser value_mem ["prog"; "--bbb=B"]) 1
     = Some (SValue (VString "B"))
  /\ after (parse value_parser value_mem ["prog"; "--bbb=="]) 1
     = Some (SValue (VString "="))
  /\ after (parse value_parser value_mem ["prog"; "--bbb="]) 1
     = Some (SValue (VString EmptyString))
  /\ after (parse value_parser value_mem ["prog"; "-saA"]) 3 = Some (SBool true)
  /\ after (parse value_parser value_mem
              ["prog"; "-a"; "-i"; "--bbb"; "--iii"; "-i"; "-2"]) 2
     = Some (SValue (VInt (-2))).
Proof. vm_compute. repeat split; reflexivity. Qed.

Example test_value_option_errors :
  fst (parse value_parser value_mem ["prog"; "-b"; "B"])
  = Error (String.append "Unknown option name: " "b")
  /\ fst (parse value_parser value_mem ["prog"; "-as"; "A"])
     = Error "Unexpected argument: A"
  /\ fst (parse value_parser value_mem ["prog"; "-a"])
     = Error "Cannot find value for option: -a"
  /\ fst (parse value_parser value_mem ["prog"; "--iii="])
     = Error "Cannot parse integer: "
  /\ fst (parse value_parser value_mem ["prog"; "--=2"])
     = Error "Unknown option name: "
  /\ fst (parse value_parser value_mem ["prog"; "--sss=1"])
     = Error "Unexpected option value: --sss=1".
Proof. vm_compute. repeat split; reflexivity. Qed.

Example test_error_messages :
  fst (parse error_parser error_mem ["prog"; "--uu"; "-2"])
  = Error "Cannot parse unsigned integer: -2"
  /\ fst (parse error_parser error_mem ["prog"; "-i"; "foo"])
     = Error "Cannot parse integer: foo"
  /\ fst (parse error_parser error_mem ["prog"; "-i"; "12x"])
     = Error "Cannot parse integer: 12x"
  /\ fst (parse error_parser error_mem ["prog"; "--uu"])
     = Error "Cannot find value for option: --uu"
  /\ fst (parse error_parser error_mem ["prog"; "2"; "-3"])
     = Error "Unexpected option: -3"
  /\ fst (parse error_parser error_mem ["prog"; "2"; "--33"])
     = Error "Unexpected option: --33"
  /\ fst (parse error_parser error_mem ["prog"; "2"; "3"; "4"])
     = Error "Unexpected argument: 4"
  /\ fst (parse error_parser error_mem ["prog"; "--xx"])
     = Error "Unknown option name: xx".
Proof. vm_compute. repeat split; reflexivity. Qed.

Example test_required :
  (let x := parse required_parser required_mem
              ["prog"; "-b"; "-v"; "V"; "--www"; "W"; "O"; "S"] in
   fst x = Ok tt
   /\ after x 0 = Some (SBool true)
   /\ after x 1 = Some (SValue (VString "V"))
   /\ after x 2 = Some (SValue (VString "W"))
   /\ after x 3 = Some (SValue (VString "O"))
   /\ after x 4 = Some (SSeq [VString "S"]))
  /\ fst (parse required_parser required_mem ["prog"; "-vV"; "--www=W"; "O"; "S"])
     = Error "Cannot find required argument: -b"
  /\ fst (parse required_parser required_mem ["prog"; "-b"; "-vV"; "O"; "S"])
     = Error "Cannot find required argument: --www"
  /\ fst (parse required_parser required_mem ["prog"; "-b"; "-vV"; "--www=W"])
     = Error "Cannot find required argument: "
  /\ fst (parse required_parser required_mem ["prog"; "-b"; "-vV"; "--www=W"; "O"])
     = Error "Cannot find required argument: ".
Proof. vm_compute. repeat split; reflexivity. Qed.

Example test_operand_sink :
  after (parse sink_parser sink_mem ["prog"; "A"; "B"; "-"]) 0
  = Some (SSeq [VString "A"; VString "B"; VString "-"])
  /\ after (parse sink_parser sink_mem ["prog"; "--"; "-A"; "--B"; "C"]) 0
     = Some (SSeq [VString "-A"; VString "--B"; VString "C"])
  /\ after (parse sink_parser sink_mem ["prog"; "A"; "--"; "--B"; "C"]) 0
     = Some (SSeq [VString "A"; VString "--B"; VString "C"])
  /\ after (parse sink_parser sink_mem ["prog"; "A"; "B"; "C"; "--"]) 0
     = Some (SSeq [VString "A"; VString "B"; VString "C"])
  /\ after (parse sink_parser sink_mem ["prog"; "--"; "--"]) 0
     = Some (SSeq [VString "--"])
  /\ fst (parse sink_parser sink_mem ["prog"; "-a"])
     = Error "Unknown option name: a"
  /\ fst (parse sink_parser sink_mem ["prog"; "A"; "-a"])
     = Error "Unexpected option: -a".
Proof. vm_compute. repeat split; reflexivity. Qed.

Example test_prefix_precedence :
  (let x := parse precedence_parser precedence_mem ["prog"; "/a"] in
   after x 0 = Some (SBool false) /\ after x 1 = Some (SBool true))
  /\ (let x := parse precedence_parser precedence_mem ["prog"; "/ab"] in
      after x 0 = Some (SBool false) /\ after x 1 = Some (SBool false)
      /\ after x 2 = Some (SBool false) /\ after x 3 = Some (SBool true)).
Proof. vm_compute. repeat split; reflexivity. Qed.

Example test_custom_syntax :
  after (parse (setShortOptionPrefix "+" custom_parser) custom_mem
           ["prog"; "+a"]) 0 = Some (SBool true)
  /\ after (parse (setLongOptionPrefix "+" custom_parser) custom_mem
              ["prog"; "+bbb"]) 1 = Some (SBool true)
  /\ after (parse (setLongOptionPrefix EmptyString
                     (setShortOptionPrefix "+" custom_parser)) custom_mem
              ["prog"; "--bbb"]) 3 = Some (SValue (VString "--bbb"))
  /\ after (parse (setLongOptionSeparator ":" custom_parser) custom_mem
              ["prog"; "--iii:2"]) 2 = Some (SValue (VInt 2))
  /\ fst (parse (setLongOptionSeparator zero custom_parser) custom_mem
            ["prog"; "--iii=2"])
     = Error "Unknown option name: iii=2"
  /\ (let x := parse (setOptionTerminator "-a" custom_parser) custom_mem
                 ["prog"; "-a"; "-a"] in
      after x 0 = Some (SBool false) /\ after x 3 = Some (SValue (VString "-a")))
  /\ (let x := parse (setOptionTerminator EmptyString custom_parser) custom_mem
                 ["prog"; "-a"; EmptyString] in
      after x 0 = Some (SBool true)
      /\ after x 3 = Some (SValue (VString EmptyString))).
Proof. vm_compute. repeat split; reflexivity. Qed.

Example test_usage_line :
  writeHelp
    (setHelpIndent 4
       (setOperandsUsage "FILES"
          (setOptionsUsage "[options]"
             (setUtilityName "tool"
                (setOperandsTitle EmptyString
                   (setOptionsTitle EmptyString custom_parser))))))
  = unlines ["USAGE"; "    tool [options] FILES"; EmptyString].
Proof. vm_compute. reflexivity. Qed.

Example test_integer_syntax :
  fromString (PInt true W32) " -2" = Ok (VInt (-2))
  /\ fromString (PInt true W32) "2 " = Error "Cannot parse integer: 2 "
  /\ fromString (PInt true W32) EmptyString = Error "Cannot parse integer: "
  /\ fromString (PInt true W32) "1.0" = Error "Cannot parse integer: 1.0"
  /\ fromString (PInt true W8) "0x1f" = Ok (VInt 31)
  /\ fromString (PInt true W8) "a" = Error "Cannot parse integer: a"
  /\ fromString (PInt true W32) "0XFF" = Ok (VInt 255)
  /\ fromString (PInt true W32) "-0x80000000" = Ok (VInt (-2147483648))
  /\ fromString (PInt true W32) "0x80000000"
     = Error "Cannot parse integer: 0x80000000"
  /\ fromString (PInt true W32) "08" = Ok (VInt 8)
  /\ fromString (PInt true W32) "010" = Ok (VInt 10).
Proof. vm_compute. repeat split; reflexivity. Qed.

Example test_help_defaults :
  writeHelp
    (addOperand PString (<[0 := SValue (VString "hello")]> ∅) 0 "hello"
       EmptyString false
       (setOptionsTitle EmptyString
          (setUsageTitle EmptyString (newParser EmptyString EmptyString))))
  = unlines ["OPERANDS";
             "  hello  (default: " +++ String dquote ("hello" +++ String dquote ")");
             EmptyString]
  /\ writeHelp
       (setDefaultValueIntro "Hello:"
          (addOperand (PInt true W32) (<[0 := SValue (VInt 2)]> ∅) 0 "II" "Ii"
             false
             (setOptionsTitle EmptyString
                (setUsageTitle EmptyString (newParser EmptyString EmptyString)))))
     = unlines ["OPERANDS"; "  II  Ii (Hello:2)"; EmptyString]
  /\ writeHelp
       (setDefaultValueIntro EmptyString
          (addOperand (PInt true W32) (<[0 := SValue (VInt 2)]> ∅) 0 "II" "Ii"
             false
             (setOptionsTitle EmptyString
                (setUsageTitle EmptyString (newParser EmptyString EmptyString)))))
     = unlines ["OPERANDS"; "  II  Ii"; EmptyString].
Proof. vm_compute. repeat split; reflexivity. Qed.

Example test_help_zero_width :
  writeHelp
    (setHelpWidth 0
       (setUtilityName "hello"
          (addOperand (PInt true W32) (<[1 := SValue (VInt 1)]> ∅) 1 "BBB"
             "Still stupid..." false
             (addOption (PInt true W32) (<[1 := SValue (VInt 1)]> ∅) 1 "a" "aaa"
                "AA" "A stupid width." false
                (newParser EmptyString EmptyString)))))
  = unlines ["USAGE";
             "  hello";
             "    [-a AA]";
             "    [BBB]";
             EmptyString;
             "OPTIONS";
             "  -a, --aaa AA  A";
             "                stupid";
             "                width.";
             "                (default: 1)";
             EmptyString;
             "OPERANDS";
             "  BBB  Still";
             "       stupid...";
             "       (default: 1)";
             EmptyString].
Proof. vm_compute. reflexivity. Qed.

Example test_floating_point :
  fromString (PFloat Binary32) "0.0 " = Ok (VFloat (FZero false))
  /\ fromString (PFloat Binary32) "0.0" = Error "Cannot parse value: 0.0"
  /\ fromString (PFloat Binary32) " -1000000.0 "
     = Ok (VFloat (FFinite true 16000000 (-4)))
  /\ fromString (PFloat Binary32) "1e3 " = Ok (VFloat (FFinite false 16384000 (-14)))
  /\ fromString (PFloat Binary32) "1.0 x" = Error "Cannot parse value: 1.0 x"
  /\ fromString (PFloat Binary32) "a " = Error "Cannot parse value: a "
  /\ fromString (PFloat Binary32) EmptyString = Error "Cannot parse value: "
  /\ writeHelp
       (addOperand (PFloat Binary32)
          (<[1 := SValue (VFloat (FFinite false 1 (-1)))]>
             (<[0 := SValue (VFloat (FZero false))]> ∅)) 1 "half"
          EmptyString false
          (addOperand (PFloat Binary32)
             (<[0 := SValue (VFloat (FZero false))]> ∅) 0 "zero"
             EmptyString false
             (setOptionsTitle EmptyString
                (setUsageTitle EmptyString
                   (newParser EmptyString EmptyString)))))
     = unlines ["OPERANDS";
                "  zero  (default: 0)";
                "  half  (default: 0.5)";
                EmptyString].
Proof. vm_compute. repeat split; reflexivity. Qed.

Example test_custom_type :
  fromString_stream YesNo "yes " = Ok true
  /\ fromString_stream YesNo "no " = Ok false
  /\ fromString_stream YesNo "yes" = Error "Cannot parse value: yes"
  /\ fromString_stream YesNo "ja " = Error "Cannot parse value: ja "
  /\ writeHelp
       (addOption (PStream YesNo) (<[0 := SValue (VStream YesNo false)]> ∅) 0
          "y" EmptyString "YY" "Yy" false
          (newParser EmptyString EmptyString))
     = unlines ["USAGE";
                "  [-y YY]";
                EmptyString;
                "OPTIONS";
                "  -y YY  Yy (default: no)";
                EmptyString].
Proof. vm_compute. repeat split; reflexivity. Qed.
